(** * commit-town: the API's storage layer, the user endpoint and the
      commit-activity engine

    The Go packages [models], [db], [repository], [usecase] and
    [controller] of [apps/api] are embedded as Rocq modules of the same
    names.  A [gorm.DB] handle is modelled by the rows of its tables
    together with the sequence that feeds the auto-increment key; the
    statements gorm sends (INSERT, UPDATE ... WHERE, INSERT ... ON CONFLICT)
    are functions on those rows that enforce the unique indexes the
    migration creates.

    Package [validator] is embedded with the regular expression of its
    email check, matched by derivatives; [main] with the environment and
    the driver as parameters; and of [apps/web] the session callback and
    the texts of the dashboard.

    A [models.User] is modelled in two parts: the fields that are columns,
    on which the calls of [gorm] work, and the association slices, for
    which [after_call] has what gorm writes when their owner is created or
    saved.  The columns are not bounded: [fits_columns] and [fits] say
    which values Postgres stores as they are. *)

From Stdlib Require Import ZArith Lia Ascii.
From stdpp Require Import gmap strings list sorting fin_maps.

Local Open Scope string_scope.
Local Open Scope list_scope.
Local Open Scope Z_scope.

(** ** Values, errors and results *)

(** A column value as the database sees it. *)
Inductive Value :=
  | VNull
  | VInt (z : Z)
  | VText (s : string)
  | VBool (b : bool).

Global Instance Value_eq_dec : EqDecision Value.
Proof. solve_decision. Defined.

(** The two errors of gorm that the code under study can observe. *)
Inductive GormError :=
  | ErrRecordNotFound
  | ErrDuplicatedKey.

Global Instance GormError_eq_dec : EqDecision GormError.
Proof. solve_decision. Defined.

(** [time.Time] at second resolution, as Unix seconds.  The zero value of
    [time.Time] is January 1 of year 1. *)
Definition Time := Z.
Definition zeroTime : Time := -62135596800.
Definition IsZero (t : Time) : bool := bool_decide (t = zeroTime).

Definition optTime (o : option Time) : Value :=
  match o with
  | None => VNull
  | Some t => VInt t
  end.

(** ** package models *)

(** Every model knows its table and how to read a column of a row. *)
Class Model (R : Type) := {
  TableName : string;
  column : string → R → Value
}.

Module User.
(** [models.User], the fields that are columns of [users].  The slices
    [Repositories], [DailyCommitLogs] and [Streaks] hold no column; they
    are [Associations] below, and what gorm writes for them when a value
    is created or saved is [after_call].  The calls of [gorm] and of
    [repository] take the value without them.  A [uint64] is a [Z] and a
    [string] is not cut to the size of its column: [fits_columns] says
    which values the columns hold as they are. *)
Record t := mk {
  ID : Z;
  GitHubUserID : Z;
  GitHubUsername : string;
  Email : string;
  CreatedAt : Time;
  UpdatedAt : Time;
  DeletedAt : option Time
}.

Global Instance eq_dec : EqDecision t.
Proof. solve_decision. Defined.

Definition col (c : string) (u : t) : Value :=
  if decide (c = "id") then VInt (ID u)
  else if decide (c = "github_user_id") then VInt (GitHubUserID u)
  else if decide (c = "github_username") then VText (GitHubUsername u)
  else if decide (c = "email") then VText (Email u)
  else if decide (c = "created_at") then VInt (CreatedAt u)
  else if decide (c = "updated_at") then VInt (UpdatedAt u)
  else if decide (c = "deleted_at") then optTime (DeletedAt u)
  else VNull.
End User.

Global Instance User_model : Model User.t :=
  {| TableName := "users"; column := User.col |}.

Module UserRepository.
(** [models.UserRepository]: a repository a user registered. *)
Record t := mk {
  ID : Z;
  UserID : Z;
  RepoOwner : string;
  RepoName : string;
  IsPublic : bool;
  DeactivatedAt : option Time;
  CreatedAt : Time;
  UpdatedAt : Time
}.

Definition col (c : string) (r : t) : Value :=
  if decide (c = "id") then VInt (ID r)
  else if decide (c = "user_id") then VInt (UserID r)
  else if decide (c = "repo_owner") then VText (RepoOwner r)
  else if decide (c = "repo_name") then VText (RepoName r)
  else if decide (c = "is_public") then VBool (IsPublic r)
  else if decide (c = "deactivated_at") then optTime (DeactivatedAt r)
  else if decide (c = "created_at") then VInt (CreatedAt r)
  else if decide (c = "updated_at") then VInt (UpdatedAt r)
  else VNull.
End UserRepository.

Global Instance UserRepository_model : Model UserRepository.t :=
  {| TableName := "user_repositories"; column := UserRepository.col |}.

Module RepoDailyCommitLog.
(** [models.RepoDailyCommitLog]: commits of one repository on one day. *)
Record t := mk {
  ID : Z;
  UserRepoID : Z;
  CommitDate : Time;
  CommitCount : Z;
  RawData : string;
  CreatedAt : Time;
  UpdatedAt : Time
}.

Definition col (c : string) (r : t) : Value :=
  if decide (c = "id") then VInt (ID r)
  else if decide (c = "user_repo_id") then VInt (UserRepoID r)
  else if decide (c = "commit_date") then VInt (CommitDate r)
  else if decide (c = "commit_count") then VInt (CommitCount r)
  else if decide (c = "raw_data") then VText (RawData r)
  else if decide (c = "created_at") then VInt (CreatedAt r)
  else if decide (c = "updated_at") then VInt (UpdatedAt r)
  else VNull.
End RepoDailyCommitLog.

Global Instance RepoDailyCommitLog_model : Model RepoDailyCommitLog.t :=
  {| TableName := "repo_daily_commit_logs"; column := RepoDailyCommitLog.col |}.

Module UserDailyCommitLog.
(** [models.UserDailyCommitLog]: a user's commits of one day, all
    repositories together. *)
Record t := mk {
  ID : Z;
  UserID : Z;
  Date : Time;
  TotalCommits : Z;
  CreatedAt : Time;
  UpdatedAt : Time
}.

Definition col (c : string) (r : t) : Value :=
  if decide (c = "id") then VInt (ID r)
  else if decide (c = "user_id") then VInt (UserID r)
  else if decide (c = "date") then VInt (Date r)
  else if decide (c = "total_commits") then VInt (TotalCommits r)
  else if decide (c = "created_at") then VInt (CreatedAt r)
  else if decide (c = "updated_at") then VInt (UpdatedAt r)
  else VNull.
End UserDailyCommitLog.

Global Instance UserDailyCommitLog_model : Model UserDailyCommitLog.t :=
  {| TableName := "user_daily_commit_logs"; column := UserDailyCommitLog.col |}.

Module UserStreak.
(** [models.UserStreak]: one run of consecutive days with commits. *)
Record t := mk {
  ID : Z;
  UserID : Z;
  StartDate : Time;
  EndDate : option Time;
  Length : Z;
  Active : bool;
  CreatedAt : Time
}.

Definition col (c : string) (r : t) : Value :=
  if decide (c = "id") then VInt (ID r)
  else if decide (c = "user_id") then VInt (UserID r)
  else if decide (c = "start_date") then VInt (StartDate r)
  else if decide (c = "end_date") then optTime (EndDate r)
  else if decide (c = "length") then VInt (Length r)
  else if decide (c = "active") then VBool (Active r)
  else if decide (c = "created_at") then VInt (CreatedAt r)
  else VNull.
End UserStreak.

Global Instance UserStreak_model : Model UserStreak.t :=
  {| TableName := "user_streaks"; column := UserStreak.col |}.

(** ** The database: rows, sequences and unique indexes *)

Record Index := mkIndex {
  ix_name : string;
  ix_table : string;
  ix_columns : list string
}.

Global Instance Index_eq_dec : EqDecision Index.
Proof. solve_decision. Defined.

(** What a [*gorm.DB] handle gives access to. *)
Record DB := mkDB {
  users : list User.t;
  user_repositories : list UserRepository.t;
  repo_daily_commit_logs : list RepoDailyCommitLog.t;
  user_daily_commit_logs : list UserDailyCommitLog.t;
  user_streaks : list UserStreak.t;
  users_id_seq : Z;
  schema : list Index
}.

(** A call on the handle changes the database and returns a value or an
    error, as a Go method returning [(T, error)] does. *)
Definition M (A : Type) : Type := DB → DB * (GormError + A).

Definition ret {A} (a : A) : M A := λ d, (d, inr a).
Definition fail {A} (e : GormError) : M A := λ d, (d, inl e).
Definition bind {A B} (m : M A) (k : A → M B) : M B :=
  λ d, match m d with
       | (d', inr a) => k a d'
       | (d', inl e) => (d', inl e)
       end.

Section statements.
Context {R : Type} `{Model R}.

Definition key_of (cols : list string) (r : R) : list Value :=
  (λ c, column c r) <$> cols.

(** Two rows collide on a unique index when their key tuples are equal
    and hold no NULL. *)
Definition same_key (ix : Index) (r r' : R) : bool :=
  bool_decide (VNull ∉ key_of (ix_columns ix) r)
  && bool_decide (key_of (ix_columns ix) r = key_of (ix_columns ix) r').

Definition indexes_of (sch : list Index) : list Index :=
  filter (λ ix, ix_table ix = TableName) sch.

Definition clash (ix : Index) (r : R) (rows : list R) : bool :=
  existsb (same_key ix r) rows.

Definition violates (sch : list Index) (r : R) (rows : list R) : bool :=
  existsb (λ ix, clash ix r rows) (indexes_of sch).

(** INSERT INTO t VALUES (r) *)
Definition insert_row (sch : list Index) (r : R) (rows : list R)
  : GormError + list R :=
  if violates sch r rows then inl ErrDuplicatedKey else inr (rows ++ [r]).

(** UPDATE t SET ... WHERE p: the rows are rewritten one after the other
    and each new version is checked against all the other rows. *)
Fixpoint update_rows (sch : list Index) (p : R → bool) (f : R → R)
    (seen todo : list R) : GormError + list R :=
  match todo with
  | [] => inr seen
  | r :: rest =>
      if p r then
        if violates sch (f r) (seen ++ rest) then inl ErrDuplicatedKey
        else update_rows sch p f (seen ++ [f r]) rest
      else update_rows sch p f (seen ++ [r]) rest
  end.

Definition update_where (sch : list Index) (p : R → bool) (f : R → R)
    (rows : list R) : GormError + list R :=
  update_rows sch p f [] rows.

(** DELETE FROM t WHERE p *)
Definition delete_where (p : R → bool) (rows : list R) : list R :=
  List.filter (λ r, negb (p r)) rows.

(** INSERT ... ON CONFLICT (columns of ix) DO UPDATE SET ...: the row
    that collides on [ix] is rewritten by [merge], otherwise [r] is
    inserted. *)
Definition upsert_row (sch : list Index) (ix : Index) (merge : R → R → R)
    (r : R) (rows : list R) : GormError + list R :=
  if clash ix r rows
  then update_where sch (same_key ix r) (λ old, merge old r) rows
  else insert_row sch r rows.

(** No two rows of the table collide on [ix]. *)
Fixpoint unique_rows (ix : Index) (rows : list R) : bool :=
  match rows with
  | [] => true
  | r :: rest => negb (clash ix r rest) && unique_rows ix rest
  end.
End statements.

(** ** package db *)

Module db.
Definition pkey (table : string) : Index :=
  mkIndex (table +:+ "_pkey") table ["id"].

Definition idx_users_github_user_id : Index :=
  mkIndex "idx_users_github_user_id" "users" ["github_user_id"].
Definition idx_user_repositories_user_repo : Index :=
  mkIndex "idx_user_repositories_user_repo" "user_repositories"
          ["user_id"; "repo_owner"; "repo_name"].
Definition idx_repo_daily_commit_logs_repo_date : Index :=
  mkIndex "idx_repo_daily_commit_logs_repo_date" "repo_daily_commit_logs"
          ["user_repo_id"; "commit_date"].
Definition idx_user_daily_commit_logs_user_date : Index :=
  mkIndex "idx_user_daily_commit_logs_user_date" "user_daily_commit_logs"
          ["user_id"; "date"].

(** Whether the rows of the index's table are free of collisions. *)
Definition table_unique (ix : Index) (d : DB) : bool :=
  if decide (ix_table ix = "users") then unique_rows ix (users d)
  else if decide (ix_table ix = "user_repositories")
    then unique_rows ix (user_repositories d)
  else if decide (ix_table ix = "repo_daily_commit_logs")
    then unique_rows ix (repo_daily_commit_logs d)
  else if decide (ix_table ix = "user_daily_commit_logs")
    then unique_rows ix (user_daily_commit_logs d)
  else if decide (ix_table ix = "user_streaks")
    then unique_rows ix (user_streaks d)
  else true.

Definition with_schema (d : DB) (sch : list Index) : DB :=
  mkDB (users d) (user_repositories d) (repo_daily_commit_logs d)
       (user_daily_commit_logs d) (user_streaks d) (users_id_seq d) sch.

(** CREATE UNIQUE INDEX IF NOT EXISTS: nothing to do when an index of
    that name exists; refused when the rows already collide. *)
Definition createUniqueIndex (ix : Index) : M unit := λ d,
  if bool_decide (ix_name ix ∈ ix_name <$> schema d) then (d, inr ())
  else if table_unique ix d then (with_schema d (schema d ++ [ix]), inr ())
  else (d, inl ErrDuplicatedKey).

(** [db.AutoMigrate(&models.User{}, ...)] of gorm, as far as the unique
    indexes of a new database go: each table gets its primary key, and
    [users] the index of its [uniqueIndex] tag.  The tables, the columns,
    the other indexes and the foreign keys gorm creates are not part of a
    [DB], and a table that exists without a primary key, which gorm
    leaves without one, is outside this model. *)
Definition gormAutoMigrate : M unit :=
  bind (createUniqueIndex (pkey "users")) (λ _,
  bind (createUniqueIndex idx_users_github_user_id) (λ _,
  bind (createUniqueIndex (pkey "user_repositories")) (λ _,
  bind (createUniqueIndex (pkey "repo_daily_commit_logs")) (λ _,
  bind (createUniqueIndex (pkey "user_daily_commit_logs")) (λ _,
  createUniqueIndex (pkey "user_streaks")))))).

Definition addUniqueConstraints : M unit :=
  bind (createUniqueIndex idx_user_repositories_user_repo) (λ _,
  bind (createUniqueIndex idx_repo_daily_commit_logs_repo_date) (λ _,
  createUniqueIndex idx_user_daily_commit_logs_user_date)).

Definition AutoMigrate : M unit :=
  bind gormAutoMigrate (λ _, addUniqueConstraints).

(** A new, empty database. *)
Definition fresh : DB := mkDB [] [] [] [] [] 0 [].
End db.

(** ** gorm: the calls the repository makes on the handle *)

Module gorm.
Import User.

Definition with_users (d : DB) (rows : list User.t) (seq : Z) : DB :=
  mkDB rows (user_repositories d) (repo_daily_commit_logs d)
       (user_daily_commit_logs d) (user_streaks d) seq (schema d).

(** Rows a query sees: gorm adds [deleted_at IS NULL] for a model with
    a [gorm.DeletedAt] field. *)
Definition live (u : User.t) : bool := bool_decide (DeletedAt u = None).

(** ORDER BY id LIMIT 1 among the rows that satisfy [p]. *)
Fixpoint least (p : User.t → bool) (rows : list User.t) : option User.t :=
  match rows with
  | [] => None
  | r :: rest =>
      if p r then
        match least p rest with
        | Some r' => if ID r' <? ID r then Some r' else Some r
        | None => Some r
        end
      else least p rest
  end.

(** [db.Where(cond).First(&user)] *)
Definition First (cond : User.t → bool) : M User.t := λ d,
  match least (λ u, cond u && live u) (users d) with
  | Some u => (d, inr u)
  | None => (d, inl ErrRecordNotFound)
  end.

Definition stamp (now : Time) (t : Time) : Time :=
  if IsZero t then now else t.

(** [db.Create(user)]: a zero ID is drawn from the sequence (drawn values
    are not given back when the INSERT is refused); zero timestamps are
    set to the current time.  The value is one that satisfies
    [fits_columns]: Postgres refuses an id from 2^63 on and a text longer
    than its column, which this model stores.  The association slices are
    not part of the value; [after_call] has what gorm writes for them. *)
Definition Create (now : Time) (user : User.t) : M User.t := λ d,
  let seq := if bool_decide (ID user = 0) then users_id_seq d + 1
             else users_id_seq d in
  let row := User.mk (if bool_decide (ID user = 0) then seq else ID user)
               (GitHubUserID user) (GitHubUsername user) (Email user)
               (stamp now (CreatedAt user)) (stamp now (UpdatedAt user))
               (DeletedAt user) in
  match insert_row (schema d) row (users d) with
  | inr rows => (with_users d rows seq, inr row)
  | inl e => (with_users d (users d) seq, inl e)
  end.

(** [db.Save(user)]: without a primary key it is [Create]; otherwise
    all columns of the live row with that key are written, and when no
    row was written the value goes through INSERT ... ON CONFLICT (id)
    DO UPDATE, which leaves [created_at] of a colliding row alone.  As
    for [Create], the value is one that satisfies [fits_columns] and
    comes without its association slices. *)
Definition Save (now : Time) (user : User.t) : M User.t := λ d,
  if bool_decide (ID user = 0) then Create now user d
  else
    let target := λ r : User.t, bool_decide (ID r = ID user) && live r in
    let row := User.mk (ID user) (GitHubUserID user) (GitHubUsername user)
                 (Email user) (CreatedAt user) now (DeletedAt user) in
    if existsb target (users d) then
      match update_where (schema d) target (λ _, row) (users d) with
      | inr rows => (with_users d rows (users_id_seq d), inr row)
      | inl e => (d, inl e)
      end
    else
      let fresh := User.mk (ID user) (GitHubUserID user)
                     (GitHubUsername user) (Email user)
                     (stamp now (CreatedAt user)) (stamp now (UpdatedAt user))
                     (DeletedAt user) in
      let merge := λ old new : User.t,
                     User.mk (ID old) (GitHubUserID new) (GitHubUsername new)
                       (Email new) (CreatedAt old) now (DeletedAt new) in
      match upsert_row (schema d) (db.pkey "users") merge fresh (users d) with
      | inr rows => (with_users d rows (users_id_seq d), inr fresh)
      | inl e => (d, inl e)
      end.
End gorm.

(** ** package repository *)

Module repository.
(** FindByGitHubUserID *)
Definition FindByGitHubUserID (githubUserID : Z) : M User.t :=
  gorm.First (λ u, bool_decide (User.GitHubUserID u = githubUserID)).

Definition Create (now : Time) (user : User.t) : M User.t :=
  gorm.Create now user.

Definition Update (now : Time) (user : User.t) : M User.t :=
  gorm.Save now user.

(** Upsert: create the user, or update the one with the same GitHub user
    id.  The value returned is the struct behind the pointer after the
    call. *)
Definition Upsert (now : Time) (user : User.t) : M User.t := λ d,
  match FindByGitHubUserID (User.GitHubUserID user) d with
  | (d', inl ErrRecordNotFound) => Create now user d'
  | (d', inl e) => (d', inl e)
  | (d', inr existing) =>
      Update now
        (User.mk (User.ID existing) (User.GitHubUserID user)
           (User.GitHubUsername user) (User.Email user)
           (User.CreatedAt existing) (User.UpdatedAt user)
           (User.DeletedAt user)) d'
  end.
End repository.

(** ** package dto *)

Module dto.
Record UpsertUserRequest := mkUpsertUserRequest {
  req_GitHubUserID : Z;
  req_GitHubUsername : string;
  req_Email : string
}.

Record UserResponse := mkUserResponse {
  ID : Z;
  GitHubUserID : Z;
  GitHubUsername : string;
  Email : string;
  CreatedAt : string;
  UpdatedAt : string
}.
End dto.

(** ** package usecase *)

Module usecase.
Section with_format.
(** [time.Time.Format] with the RFC 3339 layout, from Go's library. *)
Variable Format : Time → string.

Definition UpsertUser (now : Time) (req : dto.UpsertUserRequest)
  : M dto.UserResponse :=
  let user := User.mk 0 (dto.req_GitHubUserID req)
                (dto.req_GitHubUsername req) (dto.req_Email req)
                zeroTime zeroTime None in
  bind (repository.Upsert now user) (λ user,
    ret (dto.mkUserResponse (User.ID user) (User.GitHubUserID user)
           (User.GitHubUsername user) (User.Email user)
           (Format (User.CreatedAt user)) (Format (User.UpdatedAt user)))).
End with_format.
End usecase.

(** ** package controller *)

Module controller.
Inductive Body :=
  | ErrorBody (msg : string)
  | UserBody (u : dto.UserResponse).

Record Response := mkResponse { status : Z; body : Body }.

Definition StatusOK : Z := 200.
Definition StatusBadRequest : Z := 400.
Definition StatusInternalServerError : Z := 500.

Section with_usecase.
(** The [userUsecase] field of the controller. *)
Variable userUsecase : dto.UpsertUserRequest → M dto.UserResponse.

(** UpsertUser; [bound] is what [ctx.Bind] made of the request body,
    [None] when it returned an error. *)
Definition UpsertUser (bound : option dto.UpsertUserRequest)
  : DB → DB * Response := λ d,
  match bound with
  | None => (d, mkResponse StatusBadRequest (ErrorBody "Invalid request body"))
  | Some req =>
      if bool_decide (dto.req_GitHubUserID req = 0) then
        (d, mkResponse StatusBadRequest
              (ErrorBody "github_user_id is required"))
      else if bool_decide (dto.req_GitHubUsername req = "") then
        (d, mkResponse StatusBadRequest
              (ErrorBody "github_username is required"))
      else
        match userUsecase req d with
        | (d', inl _) =>
            (d', mkResponse StatusInternalServerError
                   (ErrorBody "Failed to upsert user"))
        | (d', inr user) => (d', mkResponse StatusOK (UserBody user))
        end
  end.
End with_usecase.
End controller.

(** The wiring of [main]: POST /api/users. *)
Definition postUsers (Format : Time → string) (now : Time)
    (bound : option dto.UpsertUserRequest) : DB → DB * controller.Response :=
  controller.UpsertUser (usecase.UpsertUser Format now) bound.

(** * The commit-activity engine

    The repository holds the schema of the commit logs and of the streaks
    ([models.RepoDailyCommitLog], [models.UserDailyCommitLog],
    [models.UserStreak], [models.UserRepository]) but none of the code that
    fills them.  The operations below follow the specification, over a
    keyed store of the four relations. *)

Module engine.

Inductive Error :=
  | ValidationError
  | NotFoundError.

Global Instance Error_eq_dec : EqDecision Error.
Proof. solve_decision. Defined.

(** A canonical day is a number of days since the epoch. *)
Definition secondsPerDay : Z := 86400.

(** Modelled from the spec: the date of an observation is a calendar
    date with no time component (section 4.1); a [time.Time], the type of
    the date columns, is such a date when it is a midnight, and malformed
    otherwise. *)
Definition calendarDate (t : Time) : option Z :=
  if bool_decide (t `mod` secondsPerDay = 0) then Some (t `div` secondsPerDay)
  else None.

Definition midnight (day : Z) : Time := day * secondsPerDay.

(** TrackedRepository: the columns of [models.UserRepository] the engine
    reads. *)
Record TrackedRepository := mkTrackedRepository {
  ownerUserId : Z;
  repoOwner : string;
  repoName : string;
  deactivatedAt : option Time
}.

Definition isActive (r : TrackedRepository) : bool :=
  bool_decide (deactivatedAt r = None).

(** RepoDayCommitRecord, the value stored under (repository, date):
    [CommitCount] and [RawData] of [models.RepoDailyCommitLog]. *)
Record RepoDayCommitRecord := mkRepoDayCommitRecord {
  count : Z;
  rawPayload : string
}.

Global Instance RepoDayCommitRecord_eq_dec : EqDecision RepoDayCommitRecord.
Proof. solve_decision. Defined.

(** StreakInterval: [UserID], [StartDate], [EndDate], [Length] and
    [Active] of [models.UserStreak], dates as canonical days. *)
Record StreakInterval := mkStreakInterval {
  userId : Z;
  startDate : Z;
  endDate : option Z;
  length : Z;
  active : bool
}.

Global Instance StreakInterval_eq_dec : EqDecision StreakInterval.
Proof. solve_decision. Defined.

(** The four relations, and the users the system has observed.  Keys:
    the repository id; (repository, date); (user, date), which holds the
    [TotalCommits] of [models.UserDailyCommitLog]; and the user, whose
    intervals are kept as a ledger in ascending start date. *)
Record Store := mkStore {
  knownUsers : gset Z;
  trackedRepositories : gmap Z TrackedRepository;
  repoDays : gmap (Z * Z) RepoDayCommitRecord;
  userDays : gmap (Z * Z) Z;
  streakIntervals : gmap Z (list StreakInterval)
}.

Definition empty : Store := mkStore ∅ ∅ ∅ ∅ ∅.

Definition setRepoDays (st : Store) (m : gmap (Z * Z) RepoDayCommitRecord) :=
  mkStore (knownUsers st) (trackedRepositories st) m (userDays st)
          (streakIntervals st).
Definition setUserDays (st : Store) (m : gmap (Z * Z) Z) :=
  mkStore (knownUsers st) (trackedRepositories st) (repoDays st) m
          (streakIntervals st).
Definition setStreakIntervals (st : Store) (m : gmap Z (list StreakInterval)) :=
  mkStore (knownUsers st) (trackedRepositories st) (repoDays st)
          (userDays st) m.
Definition setTrackedRepositories (st : Store) (m : gmap Z TrackedRepository) :=
  mkStore (knownUsers st) m (repoDays st) (userDays st) (streakIntervals st).
Definition setKnownUsers (st : Store) (s : gset Z) :=
  mkStore s (trackedRepositories st) (repoDays st) (userDays st)
          (streakIntervals st).

(** ** Queries *)

Definition getUserDayTotal (st : Store) (user date : Z) : option Z :=
  userDays st !! (user, date).

Definition getStreakHistory (st : Store) (user : Z) : list StreakInterval :=
  default [] (streakIntervals st !! user).

Definition isOpen (r : StreakInterval) : bool :=
  bool_decide (endDate r = None).

Definition getActiveStreak (st : Store) (user : Z) : option StreakInterval :=
  List.find isOpen (getStreakHistory st user).

(** ** User Aggregator *)

(** The ids of the active repositories a user owns. *)
Definition activeRepositories (st : Store) (user : Z) : list Z :=
  (map_to_list
     (filter (λ kv, ownerUserId kv.2 = user ∧ isActive kv.2 = true)
             (trackedRepositories st))).*1.

(** The count of a repository on a date; 0 without a record. *)
Definition countOn (st : Store) (date repo : Z) : Z :=
  match repoDays st !! (repo, date) with
  | Some rec => count rec
  | None => 0
  end.

Definition sumZ (l : list Z) : Z := foldr Z.add 0 l.

Definition activeTotal (st : Store) (user date : Z) : Z :=
  sumZ (countOn st date <$> activeRepositories st user).

(** Modelled from the spec: the aggregation pass of section 4.2, which
    writes the single record of (user, date) from scratch. *)
Definition aggregate (user date : Z) (st : Store) : Error + Store :=
  if bool_decide (user ∈ knownUsers st)
  then inr (setUserDays st (<[(user, date) := activeTotal st user date]>
                              (userDays st)))
  else inl NotFoundError.

(** ** Streak Engine *)

Inductive StreakState :=
  | NoStreak
  | Active (start lastCountedDate len : Z).

Definition closedInterval (user start last len : Z) : StreakInterval :=
  mkStreakInterval user start (Some last) len false.

Definition activeInterval (user start len : Z) : StreakInterval :=
  mkStreakInterval user start None len true.

(** Modelled from the spec: one step of the replay of section 4.3, for
    the date [day.1] with total [day.2]; it returns the next state and
    the interval it closed, if any. *)
Definition replayDay (user : Z) (s : StreakState) (day : Z * Z)
  : StreakState * list StreakInterval :=
  if bool_decide (0 < day.2) then
    match s with
    | NoStreak => (Active day.1 day.1 1, [])
    | Active start last len =>
        if bool_decide (last = day.1 - 1) then
          (Active start day.1 (len + 1), [])
        else if bool_decide (last = day.1) then (s, [])
        else if bool_decide (last < day.1 - 1) then
          (Active day.1 day.1 1, [closedInterval user start last len])
        else (s, [])
    end
  else (s, []).

(** The interval that is open at the end of the replay. *)
Definition openInterval (user : Z) (s : StreakState) : list StreakInterval :=
  match s with
  | NoStreak => []
  | Active start _ len => [activeInterval user start len]
  end.

(** Modelled from the spec: the replay of the totals in ascending date
    order, and what is persisted after it: the closed intervals, then
    the open one. *)
Fixpoint replay (user : Z) (s : StreakState) (days : list (Z * Z))
  : list StreakInterval :=
  match days with
  | [] => openInterval user s
  | day :: rest =>
      (replayDay user s day).2 ++ replay user (replayDay user s day).1 rest
  end.

(** The records of a user whose date satisfies [keep], as (date, total)
    in ascending date order. *)
Definition byDate (a b : Z * Z) : Prop := a.1 ≤ b.1.

Global Instance byDate_dec : RelDecision byDate.
Proof. intros a b. unfold byDate. apply _. Defined.

Definition selectDay (user : Z) (keep : Z → bool) (kv : Z * Z * Z)
  : option (Z * Z) :=
  if bool_decide (kv.1.1 = user) && keep kv.1.2 then Some (kv.1.2, kv.2)
  else None.

Definition daysOf (m : gmap (Z * Z) Z) (user : Z) (keep : Z → bool)
  : list (Z * Z) :=
  merge_sort byDate (omap (selectDay user keep) (map_to_list m)).

Definition daysFrom (st : Store) (user fromDate : Z) : list (Z * Z) :=
  daysOf (userDays st) user (λ d, bool_decide (fromDate ≤ d)).

Definition allDays (st : Store) (user : Z) : list (Z * Z) :=
  daysOf (userDays st) user (λ _, true).

(** The last counted day of a stored interval. *)
Definition lastDay (r : StreakInterval) : Z :=
  match endDate r with
  | Some e => e
  | None => startDate r + length r - 1
  end.

(** The state in which the replay enters the window: the loaded
    interval, cut off before [fromDate]. *)
Definition resume (fromDate : Z) (r : StreakInterval) : StreakState :=
  let last := Z.min (lastDay r) (fromDate - 1) in
  Active (startDate r) last (last - startDate r + 1).

(** Whether a loaded interval agrees with itself: a positive length, an
    end date that matches it, and an active flag that says whether the
    end date is null. *)
Definition reconcilable (r : StreakInterval) : bool :=
  bool_decide (0 < length r)
  && match endDate r with
     | Some e => bool_decide (e = startDate r + length r - 1) && negb (active r)
     | None => active r
     end.

(** A closed interval whose recorded end date is strictly before
    [fromDate]; the range of an interval without end date reaches into
    every window. *)
Definition endsBefore (fromDate : Z) (r : StreakInterval) : bool :=
  match endDate r with
  | Some e => bool_decide (e < fromDate)
  | None => false
  end.

(** Modelled from the spec: the new ledger of recomputeStreaks (section
    4.3), from the stored ledger, the totals of the window and the totals
    of the whole history.  The rows that start at or after [fromDate] are
    discarded; the latest row that starts before it is the loaded
    interval, which the replay re-derives; of the rows before that one,
    those that ended before [fromDate] stay.  A loaded interval that
    cannot be reconciled makes the whole history be replayed. *)
Definition rederive (user fromDate : Z) (ledger : list StreakInterval)
    (window history : list (Z * Z)) : list StreakInterval :=
  let before := filter (λ r, startDate r < fromDate) ledger in
  match last before with
  | None => replay user NoStreak window
  | Some loaded =>
      if reconcilable loaded
      then filter (λ r, endsBefore fromDate r = true) (removelast before)
           ++ replay user (resume fromDate loaded) window
      else replay user NoStreak history
  end.

(** Modelled from the spec: recomputeStreaks of section 4.3, on the
    ledger and the daily records of the user. *)
Definition recomputeStreaks (user fromDate : Z) (st : Store) : Store :=
  setStreakIntervals st
    (<[user := rederive user fromDate (getStreakHistory st user)
                 (daysFrom st user fromDate) (allDays st user)]>
       (streakIntervals st)).

(** Modelled from the spec: recomputeUserDay of section 4.2, with the
    streak recomputation it schedules. *)
Definition recomputeUserDay (user date : Z) (st : Store) : Error + Store :=
  match aggregate user date st with
  | inr st' => inr (recomputeStreaks user date st')
  | inl e => inl e
  end.

(** ** Ingestion Gate *)

(** Modelled from the spec: ingest of section 4.1, with the aggregation
    pass it schedules for the owner; a failure of that pass is not a
    failure of the ingestion.  The specification names the two failures
    and gives no order between the checks behind them: here the count and
    the date are tested before the repository is looked up; [ingestWith]
    below has the other order as well. *)
Definition ingest (repositoryId : Z) (date : Time) (cnt : Z)
    (raw : string) (st : Store) : Error + (Store * RepoDayCommitRecord) :=
  if bool_decide (cnt < 0) then inl ValidationError
  else
    match calendarDate date with
    | None => inl ValidationError
    | Some day =>
        match trackedRepositories st !! repositoryId with
        | None => inl NotFoundError
        | Some repo =>
            let rec := mkRepoDayCommitRecord cnt raw in
            let st1 := setRepoDays st (<[(repositoryId, day) := rec]> (repoDays st)) in
            let st2 := match recomputeUserDay (ownerUserId repo) day st1 with
                       | inr st' => st'
                       | inl _ => st1
                       end in
            inr (st2, rec)
        end
    end.

(** ** Administration *)

(** The dates on which a repository of the user has a record. *)
Definition recordedDates (st : Store) (user : Z) : list Z :=
  omap (λ kv : Z * Z * RepoDayCommitRecord,
          match trackedRepositories st !! kv.1.1 with
          | Some repo => if bool_decide (ownerUserId repo = user)
                         then Some kv.1.2 else None
          | None => None
          end)
       (map_to_list (repoDays st)).

(** Modelled from the spec: forceFullRecompute of section 6: the user's
    daily records and intervals are discarded and derived again from the
    repository records. *)
Definition forceFullRecompute (user : Z) (st : Store) : Store :=
  let others := filter (λ kv : Z * Z * Z, kv.1.1 ≠ user) (userDays st) in
  let mine := list_to_map ((λ d, ((user, d), activeTotal st user d))
                             <$> recordedDates st user) in
  let st' := setUserDays st (mine ∪ others) in
  setStreakIntervals st' (<[user := replay user NoStreak (allDays st' user)]>
                           (streakIntervals st')).

(** ** The operations of the system and of its collaborators *)

Inductive Op :=
  | ObserveUser (user : Z)
  | RegisterRepository (id : Z) (repo : TrackedRepository)
  | DeactivateRepository (id : Z) (at_ : Time)
  | ActivateRepository (id : Z)
  | Ingest (repositoryId : Z) (date : Time) (cnt : Z) (raw : string)
  | RecomputeUserDay (user date : Z)
  | RecomputeStreaks (user fromDate : Z)
  | ForceFullRecompute (user : Z).

Definition setDeactivatedAt (o : option Time) (r : TrackedRepository) :=
  mkTrackedRepository (ownerUserId r) (repoOwner r) (repoName r) o.

(** An operation that fails leaves the store as it was. *)
Definition run (op : Op) (st : Store) : Store :=
  match op with
  | ObserveUser u => setKnownUsers st ({[u]} ∪ knownUsers st)
  | RegisterRepository id repo =>
      match trackedRepositories st !! id with
      | Some _ => st
      | None => setTrackedRepositories st (<[id := repo]> (trackedRepositories st))
      end
  | DeactivateRepository id t =>
      setTrackedRepositories st
        (alter (setDeactivatedAt (Some t)) id (trackedRepositories st))
  | ActivateRepository id =>
      setTrackedRepositories st
        (alter (setDeactivatedAt None) id (trackedRepositories st))
  | Ingest r d c raw =>
      match ingest r d c raw st with
      | inr (st', _) => st'
      | inl _ => st
      end
  | RecomputeUserDay u d =>
      match recomputeUserDay u d st with
      | inr st' => st'
      | inl _ => st
      end
  | RecomputeStreaks u d => recomputeStreaks u d st
  | ForceFullRecompute u => forceFullRecompute u st
  end.

Definition runAll (ops : list Op) (st : Store) : Store :=
  foldl (λ s op, run op s) st ops.

(** The states the system can be in. *)
Inductive reachable : Store → Prop :=
  | reachable_empty : reachable empty
  | reachable_run op st : reachable st → reachable (run op st).

(** ** Notions used to state the properties of the engine *)

(** The state of the replay after a list of days, and the intervals it
    closed on the way. *)
Definition stateAfter (user : Z) (s : StreakState) (days : list (Z * Z))
  : StreakState :=
  foldl (λ s day, (replayDay user s day).1) s days.

Fixpoint closedBy (user : Z) (s : StreakState) (days : list (Z * Z))
  : list StreakInterval :=
  match days with
  | [] => []
  | day :: rest =>
      (replayDay user s day).2 ++ closedBy user (replayDay user s day).1 rest
  end.

(** The ledger of every user is the replay of the whole history of
    that user. *)
Definition consistent (st : Store) : Prop :=
  ∀ user, getStreakHistory st user = replay user NoStreak (allDays st user).

(** What recomputeUserDay amounts to on a consistent store. *)
Definition derive (user date : Z) (st : Store) : Store :=
  if bool_decide (user ∈ knownUsers st) then
    let days := <[(user, date) := activeTotal st user date]> (userDays st) in
    mkStore (knownUsers st) (trackedRepositories st) (repoDays st) days
      (<[user := replay user NoStreak (daysOf days user (λ _, true))]>
         (streakIntervals st))
  else st.

(** Whether an operation may write the daily record of (user, date):
    a recomputation of that day, a full recomputation for the user, or
    an ingestion on that date for a repository that is not known to
    belong to somebody else. *)
Definition mayRecompute (st : Store) (user date : Z) (op : Op) : bool :=
  match op with
  | RecomputeUserDay u d => bool_decide (u = user ∧ d = date)
  | ForceFullRecompute u => bool_decide (u = user)
  | Ingest r t _ _ =>
      bool_decide (calendarDate t = Some date)
      && match trackedRepositories st !! r with
         | Some repo => bool_decide (ownerUserId repo = user)
         | None => true
         end
  | _ => false
  end.

(** An observation as the poller delivers it, and its key. *)
Record Observation := mkObservation {
  obs_repositoryId : Z;
  obs_date : Time;
  obs_count : Z;
  obs_rawPayload : string
}.

Definition obs_key (o : Observation) : Z * Time :=
  (obs_repositoryId o, obs_date o).

Definition ingestOp (o : Observation) : Op :=
  Ingest (obs_repositoryId o) (obs_date o) (obs_count o) (obs_rawPayload o).

(** At most one interval of a ledger has no end date. *)
Definition oneOpen (l : list StreakInterval) : Prop :=
  ∀ i j r r', l !! i = Some r → l !! j = Some r' →
              endDate r = None → endDate r' = None → i = j.

(** Strictly ascending dates. *)
Definition earlier (a b : Z * Z) : Prop := a.1 < b.1.

(** A state that describes consecutive days, all before [bound]. *)
Definition tidy (bound : Z) (s : StreakState) : Prop :=
  match s with
  | NoStreak => True
  | Active a l n => a ≤ l ∧ n = l - a + 1 ∧ l < bound
  end.

(** A state whose open interval, if any, starts at or after [fromDate]. *)
Definition startsFrom (fromDate : Z) (s : StreakState) : Prop :=
  match s with
  | NoStreak => True
  | Active a _ _ => fromDate ≤ a
  end.

Definition addRecord (st : Store) (k : Z * Z) (rec : RepoDayCommitRecord) :=
  setRepoDays st (<[k := rec]> (repoDays st)).

(** What the ingestion of an observation amounts to on a consistent
    store. *)
Definition ingested (o : Observation) (st : Store) : Store :=
  if bool_decide (obs_count o < 0) then st
  else match calendarDate (obs_date o) with
       | None => st
       | Some day =>
           match trackedRepositories st !! obs_repositoryId o with
           | None => st
           | Some repo =>
               derive (ownerUserId repo) day
                 (addRecord st (obs_repositoryId o, day)
                    (mkRepoDayCommitRecord (obs_count o) (obs_rawPayload o)))
           end
       end.

(** Every repository of [st] is still registered in [st'], with the
    same owner. *)
Definition keepsOwners (st st' : Store) : Prop :=
  ∀ r repo, trackedRepositories st !! r = Some repo →
    ∃ repo', trackedRepositories st' !! r = Some repo'
             ∧ ownerUserId repo' = ownerUserId repo.

(** ** Example stores *)

(** The totals 1, 1, 1, 0, 1 of user 7 on days 1 to 5. *)
Definition contiguityStore : Store :=
  mkStore {[7]} ∅ ∅
    (list_to_map [((7, 1), 1); ((7, 2), 1); ((7, 3), 1); ((7, 4), 0);
                  ((7, 5), 1)]) ∅.

(** User 7 with two active repositories. *)
Definition twoRepos : Store :=
  runAll [ObserveUser 7;
          RegisterRepository 1 (mkTrackedRepository 7 "octo" "one" None);
          RegisterRepository 2 (mkTrackedRepository 7 "octo" "two" None)]
         empty.

(** Both repositories have one commit on day 5. *)
Definition dayFive : Store :=
  runAll [Ingest 1 (midnight 5) 1 "{}"; Ingest 2 (midnight 5) 1 "{}"]
         twoRepos.




Definition busyWeek : Store :=
  runAll [Ingest 1 (midnight 6) 3 "{}"; Ingest 1 (midnight 8) 1 "{}"] dayFive.

Definition obsA : Observation := mkObservation 1 (midnight 6) 3 "{}".
Definition obsB : Observation := mkObservation 2 (midnight 6) 2 "{}".
Definition obsC : Observation := mkObservation 1 (midnight 8) 1 "{}".

(** Two observations of repository 1 on day 1. *)
Definition obsOne : Observation := mkObservation 1 (midnight 1) 1 "".
Definition obsZero : Observation := mkObservation 1 (midnight 1) 0 "".
End engine.

(** ** The order of the checks of the Ingestion Gate *)

Inductive CheckOrder :=
  | ValidationFirst
  | LookupFirst.

(** Modelled from the spec: ingest of section 4.1 with its two checks in
    either order.  With [ValidationFirst] it is [engine.ingest]; with
    [LookupFirst] the repository is looked up before the count and the
    date are tested.  The two differ only when both checks fail. *)
Definition ingestWith (order : CheckOrder) (repositoryId : Z) (date : Time)
    (cnt : Z) (raw : string) (st : engine.Store)
  : engine.Error + (engine.Store * engine.RepoDayCommitRecord) :=
  match order with
  | ValidationFirst => engine.ingest repositoryId date cnt raw st
  | LookupFirst =>
      match engine.trackedRepositories st !! repositoryId with
      | None => inl engine.NotFoundError
      | Some _ => engine.ingest repositoryId date cnt raw st
      end
  end.

(** The failures of ingest as the claim words them: each error exactly
    when its own cause is present. *)
Definition failures_as_claimed (order : CheckOrder) (repositoryId : Z)
    (date : Time) (cnt : Z) (raw : string) (st : engine.Store) : Prop :=
  (ingestWith order repositoryId date cnt raw st = inl engine.ValidationError
   ↔ cnt < 0 ∨ engine.calendarDate date = None)
  ∧ (ingestWith order repositoryId date cnt raw st = inl engine.NotFoundError
     ↔ engine.trackedRepositories st !! repositoryId = None).

(** ** Statements on the tables *)

Inductive TableStmt (R : Type) :=
  | InsertInto (r : R)
  | UpdateWhere (p : R → bool) (f : R → R)
  | DeleteWhere (p : R → bool)
  | UpsertOn (ix : Index) (merge : R → R → R) (r : R).

Arguments InsertInto {R} r.
Arguments UpdateWhere {R} p f.
Arguments DeleteWhere {R} p.
Arguments UpsertOn {R} ix merge r.

Definition apply_stmt {R} `{Model R} (sch : list Index) (s : TableStmt R)
    (rows : list R) : GormError + list R :=
  match s with
  | InsertInto r => insert_row sch r rows
  | UpdateWhere p f => update_where sch p f rows
  | DeleteWhere p => inr (delete_where p rows)
  | UpsertOn ix merge r => upsert_row sch ix merge r rows
  end.

Inductive Stmt :=
  | OnUsers (s : TableStmt User.t)
  | OnUserRepositories (s : TableStmt UserRepository.t)
  | OnRepoDailyCommitLogs (s : TableStmt RepoDailyCommitLog.t)
  | OnUserDailyCommitLogs (s : TableStmt UserDailyCommitLog.t)
  | OnUserStreaks (s : TableStmt UserStreak.t).

(** A statement the database refuses changes nothing. *)
Definition exec (s : Stmt) (d : DB) : DB :=
  match s with
  | OnUsers s =>
      match apply_stmt (schema d) s (users d) with
      | inr rows => mkDB rows (user_repositories d) (repo_daily_commit_logs d)
                      (user_daily_commit_logs d) (user_streaks d)
                      (users_id_seq d) (schema d)
      | inl _ => d
      end
  | OnUserRepositories s =>
      match apply_stmt (schema d) s (user_repositories d) with
      | inr rows => mkDB (users d) rows (repo_daily_commit_logs d)
                      (user_daily_commit_logs d) (user_streaks d)
                      (users_id_seq d) (schema d)
      | inl _ => d
      end
  | OnRepoDailyCommitLogs s =>
      match apply_stmt (schema d) s (repo_daily_commit_logs d) with
      | inr rows => mkDB (users d) (user_repositories d) rows
                      (user_daily_commit_logs d) (user_streaks d)
                      (users_id_seq d) (schema d)
      | inl _ => d
      end
  | OnUserDailyCommitLogs s =>
      match apply_stmt (schema d) s (user_daily_commit_logs d) with
      | inr rows => mkDB (users d) (user_repositories d)
                      (repo_daily_commit_logs d) rows (user_streaks d)
                      (users_id_seq d) (schema d)
      | inl _ => d
      end
  | OnUserStreaks s =>
      match apply_stmt (schema d) s (user_streaks d) with
      | inr rows => mkDB (users d) (user_repositories d)
                      (repo_daily_commit_logs d) (user_daily_commit_logs d)
                      rows (users_id_seq d) (schema d)
      | inl _ => d
      end
  end.

Definition execAll (l : list Stmt) (d : DB) : DB :=
  foldl (λ d s, exec s d) d l.

(** Every unique index of the schema holds of the rows of its table. *)
Definition db_ok (d : DB) : Prop :=
  ∀ ix, ix ∈ schema d → db.table_unique ix d = true.

(** The indexes the migration creates. *)
Definition migration_indexes : list Index :=
  [db.pkey "users"; db.idx_users_github_user_id;
   db.pkey "user_repositories"; db.pkey "repo_daily_commit_logs";
   db.pkey "user_daily_commit_logs"; db.pkey "user_streaks";
   db.idx_user_repositories_user_repo;
   db.idx_repo_daily_commit_logs_repo_date;
   db.idx_user_daily_commit_logs_user_date].

(** The indexes of [addUniqueConstraints]. *)
Definition constraint_indexes : list Index :=
  [db.idx_user_repositories_user_repo;
   db.idx_repo_daily_commit_logs_repo_date;
   db.idx_user_daily_commit_logs_user_date].

(** No index of another definition hides behind a name the migration
    uses. *)
Definition names_free (d : DB) : Prop :=
  ∀ ix ix', ix ∈ schema d → ix' ∈ migration_indexes →
            ix_name ix = ix_name ix' → ix = ix'.

(** At most one row per (user_repo_id, commit_date). *)
Definition one_per_repo_date (d : DB) : Prop :=
  ∀ i j r r',
    repo_daily_commit_logs d !! i = Some r →
    repo_daily_commit_logs d !! j = Some r' →
    RepoDailyCommitLog.UserRepoID r = RepoDailyCommitLog.UserRepoID r' →
    RepoDailyCommitLog.CommitDate r = RepoDailyCommitLog.CommitDate r' →
    i = j.

(** At most one row per (user_id, date). *)
Definition one_per_user_date (d : DB) : Prop :=
  ∀ i j r r',
    user_daily_commit_logs d !! i = Some r →
    user_daily_commit_logs d !! j = Some r' →
    UserDailyCommitLog.UserID r = UserDailyCommitLog.UserID r' →
    UserDailyCommitLog.Date r = UserDailyCommitLog.Date r' →
    i = j.

(** The users table after the migration: the primary key and the index
    on github_user_id are in force. *)
Definition users_ok (d : DB) : Prop :=
  db.pkey "users" ∈ schema d ∧ db.idx_users_github_user_id ∈ schema d ∧
  unique_rows (db.pkey "users") (users d) = true ∧
  unique_rows db.idx_users_github_user_id (users d) = true.

(** The calls of the user repository. *)
Inductive RepoCall :=
  | CallFindByGitHubUserID (githubUserID : Z)
  | CallCreate (now : Time) (user : User.t)
  | CallUpdate (now : Time) (user : User.t)
  | CallUpsert (now : Time) (user : User.t).

Definition call (c : RepoCall) : M User.t :=
  match c with
  | CallFindByGitHubUserID g => repository.FindByGitHubUserID g
  | CallCreate now u => repository.Create now u
  | CallUpdate now u => repository.Update now u
  | CallUpsert now u => repository.Upsert now u
  end.

(** ** Notions used to state the properties of the storage layer *)

Definition same_rows (d d' : DB) : Prop :=
  users d' = users d ∧ user_repositories d' = user_repositories d ∧
  repo_daily_commit_logs d' = repo_daily_commit_logs d ∧
  user_daily_commit_logs d' = user_daily_commit_logs d ∧
  user_streaks d' = user_streaks d ∧ users_id_seq d' = users_id_seq d.

Definition createAll (l : list Index) : M unit :=
  foldr (λ ix k, bind (db.createUniqueIndex ix) (λ _, k)) (ret ()) l.

(** Every row of [rows] is still in [rows'], under its primary key. *)
Definition ids_kept (rows rows' : list User.t) : Prop :=
  ∀ r, r ∈ rows → ∃ r', r' ∈ rows' ∧ User.ID r' = User.ID r.

(** The tables that hold a user's history are the same. *)
Definition same_history (d d' : DB) : Prop :=
  user_repositories d' = user_repositories d ∧
  repo_daily_commit_logs d' = repo_daily_commit_logs d ∧
  user_daily_commit_logs d' = user_daily_commit_logs d ∧
  user_streaks d' = user_streaks d.

(** ** The associations of a user *)

(** The slices [Repositories], [DailyCommitLogs] and [Streaks] of
    [models.User]. *)
Record Associations := mkAssociations {
  Repositories : list UserRepository.t;
  DailyCommitLogs : list UserDailyCommitLog.t;
  Streaks : list UserStreak.t
}.

Definition no_associations : Associations := mkAssociations [] [] [].

(** What gorm sends for the elements of an association when its owner is
    created or saved.  An element of a slice goes through INSERT ... ON
    CONFLICT (id) DO UPDATE, which sets columns of the stored row other
    than its primary key; the struct an element belongs to, a [User] in a
    [UserRepository] for one, through INSERT ... ON CONFLICT DO NOTHING.
    Neither deletes a row nor gives a stored row another primary key. *)
Definition keeps_id {R} (id : R → Z) (s : TableStmt R) : Prop :=
  match s with
  | InsertInto _ => True
  | UpsertOn _ merge _ => ∀ old new, id (merge old new) = id old
  | UpdateWhere _ _ => False
  | DeleteWhere _ => False
  end.

Definition keeps_rows {R} (s : TableStmt R) : Prop :=
  match s with
  | InsertInto _ => True
  | UpsertOn _ merge _ => ∀ old new, merge old new = old
  | UpdateWhere _ _ => False
  | DeleteWhere _ => False
  end.

Definition association_write (s : Stmt) : Prop :=
  match s with
  | OnUsers s => keeps_rows s
  | OnUserRepositories s => keeps_id UserRepository.ID s
  | OnRepoDailyCommitLogs s => keeps_id RepoDailyCommitLog.ID s
  | OnUserDailyCommitLogs s => keeps_id UserDailyCommitLog.ID s
  | OnUserStreaks s => keeps_id UserStreak.ID s
  end.

Definition same_tables (d d' : DB) : Prop :=
  users d' = users d ∧ user_repositories d' = user_repositories d ∧
  repo_daily_commit_logs d' = repo_daily_commit_logs d ∧
  user_daily_commit_logs d' = user_daily_commit_logs d ∧
  user_streaks d' = user_streaks d.

(** The database after a call of the user repository with a value whose
    association slices are [a].  With empty slices it is the database
    after [call]; otherwise gorm writes the elements after the row of the
    user, in one transaction with it: either the writes of the
    associations are added, or the transaction is rolled back and the
    tables are the ones before the call. *)
Inductive after_call (c : RepoCall) (a : Associations) (d : DB) : DB → Prop :=
  | without_associations :
      a = no_associations → after_call c a d (call c d).1
  | associations_saved (l : list Stmt) :
      a ≠ no_associations → Forall association_write l →
      after_call c a d (execAll l (call c d).1)
  | rolled_back (d' : DB) :
      a ≠ no_associations → same_tables d d' → after_call c a d d'.

(** Every row of [rows] is still in [rows'], under its primary key. *)
Definition kept {R} (id : R → Z) (rows rows' : list R) : Prop :=
  ∀ r, r ∈ rows → ∃ r', r' ∈ rows' ∧ id r' = id r.

(** No row of any table is gone. *)
Definition rows_kept (d d' : DB) : Prop :=
  kept User.ID (users d) (users d')
  ∧ kept UserRepository.ID (user_repositories d) (user_repositories d')
  ∧ kept RepoDailyCommitLog.ID (repo_daily_commit_logs d)
         (repo_daily_commit_logs d')
  ∧ kept UserDailyCommitLog.ID (user_daily_commit_logs d)
         (user_daily_commit_logs d')
  ∧ kept UserStreak.ID (user_streaks d) (user_streaks d').

(** ** Example databases *)

(** A new database after the migration, and the same with one user. *)
Definition migrated : DB := (db.AutoMigrate db.fresh).1.

Definition alice : User.t :=
  User.mk 0 42 "alice" "alice@example.org" zeroTime zeroTime None.

Definition oneUser : DB := (repository.Create 100 alice migrated).1.

Definition aliceStored : User.t :=
  User.mk 1 42 "alice" "alice@example.org" 100 100 None.

Definition aliceRenamed : User.t :=
  User.mk 0 42 "alice-renamed" "alice@example.org" zeroTime zeroTime None.

Definition aliceRetired : User.t :=
  User.mk 0 42 "alice" "alice@example.org" zeroTime zeroTime (Some 150).

Definition firstLog : RepoDailyCommitLog.t :=
  RepoDailyCommitLog.mk 1 7 (engine.midnight 5) 3 "{}" 100 100.

Definition secondLog : RepoDailyCommitLog.t :=
  RepoDailyCommitLog.mk 2 7 (engine.midnight 5) 9 "{}" 200 200.

(** A repository in the [Repositories] slice of a user, and the statement
    gorm sends for it when the user has id 1. *)
Definition aliceRepository : UserRepository.t :=
  UserRepository.mk 1 0 "alice" "town" true None 100 100.

Definition aliceAssociations : Associations :=
  mkAssociations [aliceRepository] [] [].

Definition saveRepositories : list Stmt :=
  [OnUserRepositories
     (UpsertOn (db.pkey "user_repositories")
        (λ old new, UserRepository.mk (UserRepository.ID old)
                      (UserRepository.UserID new) (UserRepository.RepoOwner old)
                      (UserRepository.RepoName old) (UserRepository.IsPublic old)
                      (UserRepository.DeactivatedAt old)
                      (UserRepository.CreatedAt old)
                      (UserRepository.UpdatedAt old))
        (UserRepository.mk 1 1 "alice" "town" true None 100 100))].

Definition someStatements : list Stmt :=
  [OnRepoDailyCommitLogs (InsertInto firstLog);
   OnRepoDailyCommitLogs (InsertInto secondLog);
   OnUserDailyCommitLogs
     (InsertInto (UserDailyCommitLog.mk 1 3 (engine.midnight 5) 3 100 100))].

(** ** Regular expressions, as package validator uses them *)

Module regexp.
(** A character class, as the ranges between the brackets; a single
    character is the range from itself to itself. *)
Definition CharClass := list (ascii * ascii).

Definition inClass (cc : CharClass) (c : ascii) : bool :=
  existsb (λ r : ascii * ascii,
             (N_of_ascii r.1 <=? N_of_ascii c)%N
             && (N_of_ascii c <=? N_of_ascii r.2)%N) cc.

Inductive Regexp :=
  | NoMatch
  | EmptyMatch
  | Literal (c : ascii)
  | OneOf (cc : CharClass)
  | Concat (r1 r2 : Regexp)
  | Alternate (r1 r2 : Regexp)
  | Star (r : Regexp).

(** [r+] *)
Definition Plus (r : Regexp) : Regexp := Concat r (Star r).

(** [r{n,}] *)
Fixpoint RepeatMin (n : nat) (r : Regexp) : Regexp :=
  match n with
  | O => Star r
  | S n => Concat r (RepeatMin n r)
  end.

Fixpoint nullable (r : Regexp) : bool :=
  match r with
  | NoMatch => false
  | EmptyMatch => true
  | Literal _ => false
  | OneOf _ => false
  | Concat r1 r2 => nullable r1 && nullable r2
  | Alternate r1 r2 => nullable r1 || nullable r2
  | Star _ => true
  end.

(** What is left of [r] to match after the character [c]. *)
Fixpoint deriv (c : ascii) (r : Regexp) : Regexp :=
  match r with
  | NoMatch => NoMatch
  | EmptyMatch => NoMatch
  | Literal c' => if decide (c' = c) then EmptyMatch else NoMatch
  | OneOf cc => if inClass cc c then EmptyMatch else NoMatch
  | Concat r1 r2 =>
      if nullable r1
      then Alternate (Concat (deriv c r1) r2) (deriv c r2)
      else Concat (deriv c r1) r2
  | Alternate r1 r2 => Alternate (deriv c r1) (deriv c r2)
  | Star r => Concat (deriv c r) (Star r)
  end.

(** Whether all of [s] matches [r]. *)
Fixpoint fullMatch (r : Regexp) (s : list ascii) : bool :=
  match s with
  | [] => nullable r
  | c :: s => fullMatch (deriv c r) s
  end.

(** A compiled pattern: whether it begins with [^], whether it ends with
    [$], and what stands between. *)
Record Pattern := mkPattern {
  beginText : bool;
  endText : bool;
  body : Regexp
}.

Definition anyByte : Regexp := OneOf [(ascii_of_N 0, ascii_of_N 255)].

(** [Regexp.MatchString]: some substring matches, one that begins
    where the text begins under [^] and ends where it ends under [$]. *)
Definition MatchString (p : Pattern) (s : string) : bool :=
  fullMatch
    (Concat (if beginText p then EmptyMatch else Star anyByte)
       (Concat (body p) (if endText p then EmptyMatch else Star anyByte)))
    (String.list_ascii_of_string s).

(** The strings a regular expression stands for. *)
Inductive Matches : Regexp → list ascii → Prop :=
  | MEmpty : Matches EmptyMatch []
  | MLiteral c : Matches (Literal c) [c]
  | MOneOf cc c : inClass cc c = true → Matches (OneOf cc) [c]
  | MConcat r1 r2 s1 s2 :
      Matches r1 s1 → Matches r2 s2 → Matches (Concat r1 r2) (s1 ++ s2)
  | MAltL r1 r2 s : Matches r1 s → Matches (Alternate r1 r2) s
  | MAltR r1 r2 s : Matches r2 s → Matches (Alternate r1 r2) s
  | MStarNil r : Matches (Star r) []
  | MStarApp r s1 s2 :
      Matches r s1 → Matches (Star r) s2 → Matches (Star r) (s1 ++ s2).
End regexp.

Module validator.
Import regexp.

Definition error := option string.

Module CreateUserInput.
Record t := mk { Name : string; Email : string }.
End CreateUserInput.

Module UpdateUserInput.
Record t := mk { Name : string; Email : string }.
End UpdateUserInput.

Definition alnum : CharClass :=
  [("a"%char, "z"%char); ("A"%char, "Z"%char); ("0"%char, "9"%char)].

Definition single (c : ascii) : ascii * ascii := (c, c).

(** ^[a-zA-Z0-9._%+-]+@[a-zA-Z0-9.-]+\.[a-zA-Z]{2,}$ *)
Definition emailRegex : Pattern :=
  mkPattern true true
    (Concat (Plus (OneOf (alnum ++ [single "."%char; single "_"%char;
                                    single "%"%char; single "+"%char;
                                    single "-"%char])))
    (Concat (Literal "@"%char)
    (Concat (Plus (OneOf (alnum ++ [single "."%char; single "-"%char])))
    (Concat (Literal "."%char)
            (RepeatMin 2 (OneOf [("a"%char, "z"%char);
                                 ("A"%char, "Z"%char)])))))).

Definition isValidEmail (email : string) : bool :=
  MatchString emailRegex email.

Definition ValidateCreateUser (input : CreateUserInput.t) : error :=
  let name := CreateUserInput.Name input in
  let email := CreateUserInput.Email input in
  if bool_decide (name = "") then Some "name is required"
  else if bool_decide (String.length name < 2)%nat
  then Some "name must be at least 2 characters"
  else if bool_decide (100 < String.length name)%nat
  then Some "name must be less than 100 characters"
  else if bool_decide (email = "") then Some "email is required"
  else if negb (isValidEmail email) then Some "invalid email format"
  else None.

Definition ValidateUpdateUser (input : UpdateUserInput.t) : error :=
  let name := UpdateUserInput.Name input in
  let email := UpdateUserInput.Email input in
  let nameError :=
    if bool_decide (name ≠ "") then
      if bool_decide (String.length name < 2)%nat
      then Some "name must be at least 2 characters"
      else if bool_decide (100 < String.length name)%nat
      then Some "name must be less than 100 characters"
      else None
    else None in
  match nameError with
  | Some err => Some err
  | None =>
      if bool_decide (email ≠ "") && negb (isValidEmail email)
      then Some "invalid email format"
      else None
  end.
End validator.

(** ** Notions used to state the properties of the validator *)

Definition between (lo hi c : ascii) : Prop :=
  (N_of_ascii lo ≤ N_of_ascii c ≤ N_of_ascii hi)%N.

Definition letter (c : ascii) : Prop :=
  between "a" "z" c ∨ between "A" "Z" c.

Definition digit (c : ascii) : Prop := between "0" "9" c.

Definition localChar (c : ascii) : Prop :=
  letter c ∨ digit c ∨ c ∈ ["."; "_"; "%"; "+"; "-"]%char.

Definition domainChar (c : ascii) : Prop :=
  letter c ∨ digit c ∨ c ∈ ["."; "-"]%char.

(** Every byte of the string satisfies [P]. *)
Definition allOf (P : ascii → Prop) (s : string) : Prop :=
  Forall P (String.list_ascii_of_string s).

(** How often the byte occurs in the string. *)
Definition occurrences (c : ascii) (s : string) : nat :=
  List.length (filter (λ x, x = c) (String.list_ascii_of_string s)).

(** ** Notions used to state the properties of the user endpoint *)

(** The only unique indexes on [users] are the two of the migration. *)
Definition users_indexes (d : DB) : Prop :=
  ∀ ix, ix ∈ schema d → ix_table ix = "users" →
        ix = db.pkey "users" ∨ ix = db.idx_users_github_user_id.

(** A row as the endpoint writes it: its id was drawn from the sequence,
    it is not marked as deleted, and it has a GitHub user id and a
    username. *)
Definition row_ok (seq : Z) (r : User.t) : Prop :=
  0 < User.ID r ≤ seq ∧ User.DeletedAt r = None
  ∧ User.GitHubUserID r ≠ 0 ∧ User.GitHubUsername r ≠ "".

Definition api_ok (d : DB) : Prop :=
  users_ok d ∧ users_indexes d ∧ 0 ≤ users_id_seq d
  ∧ Forall (row_ok (users_id_seq d)) (users d).

(** The databases the server can be in: the one the migration leaves,
    and the ones after any requests to POST /api/users. *)
Inductive served (Format : Time → string) : DB → Prop :=
  | served_migrated : served Format migrated
  | served_post d now bound :
      served Format d → served Format (postUsers Format now bound d).1.

(** The database after a sequence of requests to POST /api/users, each
    with the time at which it is served. *)
Definition postAll (Format : Time → string)
    (requests : list (Time * option dto.UpsertUserRequest)) (d : DB) : DB :=
  foldl (λ d r, (postUsers Format r.1 r.2 d).1) d requests.

(** A request the controller lets through. *)
Definition valid_request (req : dto.UpsertUserRequest) : Prop :=
  dto.req_GitHubUserID req ≠ 0 ∧ dto.req_GitHubUsername req ≠ "".

(** A text that a [varchar] column of the given size holds as it is: no
    longer than the column, and of ASCII bytes other than NUL. *)
Definition text_fits (size : nat) (s : string) : Prop :=
  (String.length s ≤ size)%nat
  ∧ allOf (λ c, (0 < N_of_ascii c < 128)%N) s.

(** A value whose columns Postgres stores as they are: [id] and
    [github_user_id] are [bigint], [github_username] is [varchar(100)]
    and [email] is [varchar(255)]. *)
Definition fits_columns (u : User.t) : Prop :=
  0 ≤ User.ID u < 2 ^ 63 ∧ 0 ≤ User.GitHubUserID u < 2 ^ 63
  ∧ text_fits 100 (User.GitHubUsername u) ∧ text_fits 255 (User.Email u).

(** A request whose fields the columns of [users] hold as they are. *)
Definition fits (req : dto.UpsertUserRequest) : Prop :=
  0 ≤ dto.req_GitHubUserID req < 2 ^ 63
  ∧ text_fits 100 (dto.req_GitHubUsername req)
  ∧ text_fits 255 (dto.req_Email req).

(** The sequence behind [users.id] has a value left. *)
Definition sequence_left (d : DB) : Prop := users_id_seq d + 1 < 2 ^ 63.

(** The response the usecase makes of a row. *)
Definition response_of (Format : Time → string) (u : User.t)
  : dto.UserResponse :=
  dto.mkUserResponse (User.ID u) (User.GitHubUserID u) (User.GitHubUsername u)
    (User.Email u) (Format (User.CreatedAt u)) (Format (User.UpdatedAt u)).

(** The row of [existing] after an upsert of the request at [now]. *)
Definition updated_row (now : Time) (req : dto.UpsertUserRequest)
    (existing : User.t) : User.t :=
  User.mk (User.ID existing) (dto.req_GitHubUserID req)
    (dto.req_GitHubUsername req) (dto.req_Email req)
    (User.CreatedAt existing) now None.

(** The row of a new user. *)
Definition created_row (now : Time) (req : dto.UpsertUserRequest) (id : Z)
  : User.t :=
  User.mk id (dto.req_GitHubUserID req) (dto.req_GitHubUsername req)
    (dto.req_Email req) now now None.


(** At most one row per (user_id, repo_owner, repo_name). *)
Definition one_per_user_repo (d : DB) : Prop :=
  ∀ i j r r',
    user_repositories d !! i = Some r →
    user_repositories d !! j = Some r' →
    UserRepository.UserID r = UserRepository.UserID r' →
    UserRepository.RepoOwner r = UserRepository.RepoOwner r' →
    UserRepository.RepoName r = UserRepository.RepoName r' →
    i = j.

(** At most one row per github_user_id, the rows marked as deleted
    included. *)
Definition one_per_github_user (d : DB) : Prop :=
  ∀ i j r r',
    users d !! i = Some r → users d !! j = Some r' →
    User.GitHubUserID r = User.GitHubUserID r' → i = j.

(** ** package db: the connection *)

Section with_driver.
(** [gorm.Open(postgres.Open(dsn), &gorm.Config{})]: the handle, or the
    message of the error. *)
Variable Open : string → string + DB.

(** NewDatabase; an error is the message it carries. *)
Definition NewDatabase (dsn : string) : string + DB :=
  if bool_decide (dsn = "") then inl "DATABASE_URL is not set"
  else match Open dsn with
       | inl err => inl ("failed to connect to database: " +:+ err)
       | inr db => inr db
       end.
End with_driver.

(** ** package main *)

Module main.
(** How [main] ends: with one of its two calls of [log.Fatalf], or in
    [e.Start], serving on an address with a database. *)
Inductive Outcome :=
  | FailedToConnect (err : string)
  | FailedToMigrate (err : GormError)
  | Start (address : string) (database : DB).

Section with_environment.
(** [os.Getenv], after [godotenv.Load]. *)
Variable Getenv : string → string.
Variable Open : string → string + DB.

Definition main : Outcome :=
  match NewDatabase Open (Getenv "DATABASE_URL") with
  | inl err => FailedToConnect err
  | inr database =>
      match db.AutoMigrate database with
      | (_, inl err) => FailedToMigrate err
      | (database, inr _) =>
          let port := Getenv "PORT" in
          let port := if bool_decide (port = "") then "8080" else port in
          Start (":" +:+ port) database
      end
  end.
End with_environment.
End main.

(** ** apps/web: the session and the dashboard *)

Module web.
(** A JavaScript string, as its UTF-16 code units. *)
Definition JSString := list N.

Definition lit (s : string) : JSString :=
  N_of_ascii <$> String.list_ascii_of_string s.

(** [session.user] of next-auth, every field of which may be missing. *)
Record SessionUser := mkSessionUser {
  id : option JSString;
  name : option JSString;
  email : option JSString;
  image : option JSString
}.

Record Session := mkSession { user : SessionUser; expires : JSString }.

Record JWT := mkJWT { sub : option JSString }.

(** Whether a string that may be missing counts as true: not when it is
    missing, and not when it is empty. *)
Definition truthy (v : option JSString) : bool :=
  match v with
  | Some (_ :: _) => true
  | _ => false
  end.

(** [v || d] *)
Definition orElse (v : option JSString) (d : JSString) : JSString :=
  match v with
  | Some (c :: s) => c :: s
  | _ => d
  end.

(** The [session] callback of auth.config.ts; [token] is [None] when
    there is no token. *)
Definition session (s : Session) (token : option JWT) : Session :=
  if truthy (token ≫= sub)
  then mkSession (mkSessionUser (token ≫= sub) (name (user s))
                    (email (user s)) (image (user s)))
                 (expires s)
  else s.

(** [s.split(sep)] for a separator of one code unit. *)
Fixpoint split (sep : N) (s : JSString) : list JSString :=
  match s with
  | [] => [[]]
  | c :: s =>
      if decide (c = sep) then [] :: split sep s
      else match split sep s with
           | [] => [[c]]
           | w :: ws => (c :: w) :: ws
           end
  end.

Definition space : N := 32.

(** DashboardPresenter: the texts it shows. *)
Definition heading (s : Session) : JSString :=
  orElse (name (user s)) (lit "Anonymous User").

Definition userId (s : Session) : JSString :=
  orElse (id (user s)) (lit "N/A").

Definition welcome (s : Session) : JSString :=
  lit "Welcome back, "
  ++ orElse (name (user s) ≫= λ n, head (split space n)) (lit "User")
  ++ lit "!".
End web.

(** ** The accounts, as a map from GitHub user ids *)

Global Instance valid_request_decision req : Decision (valid_request req).
Proof. unfold valid_request. apply _. Defined.

Record Account := mkAccount {
  acc_id : Z;
  acc_username : string;
  acc_email : string
}.

Definition account_of (u : User.t) : Account :=
  mkAccount (User.ID u) (User.GitHubUsername u) (User.Email u).

(** What the rows of [users] say, by GitHub user id. *)
Definition accounts (d : DB) : gmap Z Account :=
  list_to_map ((λ u, (User.GitHubUserID u, account_of u)) <$> users d).

(** What a request does to the accounts: nothing when the controller
    turns it down; otherwise the account of its GitHub user id gets the
    username and the email of the request, and a new account gets the
    next id. *)
Definition register (m : gmap Z Account)
    (r : Time * option dto.UpsertUserRequest) : gmap Z Account :=
  match r.2 with
  | Some req =>
      if bool_decide (valid_request req) then
        let g := dto.req_GitHubUserID req in
        match m !! g with
        | Some a =>
            <[g := mkAccount (acc_id a) (dto.req_GitHubUsername req)
                     (dto.req_Email req)]> m
        | None =>
            <[g := mkAccount (Z.of_nat (size m) + 1)
                     (dto.req_GitHubUsername req) (dto.req_Email req)]> m
        end
      else m
  | None => m
  end.

(** Every request of the sequence that the controller lets through fits
    the columns, and the sequence behind [users.id] outlasts them. *)
Definition all_fit (requests : list (Time * option dto.UpsertUserRequest))
  : Prop :=
  Forall (λ r, ∀ req, r.2 = Some req → valid_request req → fits req) requests
  ∧ Z.of_nat (List.length requests) < 2 ^ 63.

(** ** Examples for the endpoint and for the start of the server *)

Definition aliceRequest : dto.UpsertUserRequest :=
  dto.mkUpsertUserRequest 42 "alice" "alice@example.org".

(** A stand-in for [time.Time.Format]. *)
Definition earlyOrLate (t : Time) : string :=
  if decide (t < 150) then "early" else "late".

(** The database after alice's first request, at time 100. *)
Definition afterAlice : DB :=
  (postUsers earlyOrLate 100 (Some aliceRequest) migrated).1.

(** alice's row, marked as deleted at time 150. *)
Definition aliceDeleted : User.t :=
  User.mk 1 42 "alice" "alice@example.org" 100 150 (Some 150).

Definition retired : DB := (repository.Upsert 150 aliceRetired oneUser).1.

Definition exampleGetenv (key : string) : string :=
  if decide (key = "DATABASE_URL") then "postgres://localhost/commit_town"
  else "".

Definition exampleOpen (dsn : string) : string + DB := inr db.fresh.

Definition octoOne : UserRepository.t :=
  UserRepository.mk 1 7 "octo" "one" true None 100 100.

Definition someRegistrations : list Stmt :=
  [OnUserRepositories (InsertInto octoOne);
   OnUserRepositories
     (InsertInto (UserRepository.mk 2 7 "octo" "one" true None 200 200));
   OnUsers (InsertInto aliceStored)].

(** bob signs up, and alice changes the username and then the email. *)
Definition laterRequests : list (Time * option dto.UpsertUserRequest) :=
  [(200, Some (dto.mkUpsertUserRequest 43 "bob" "bob@example.org"));
   (300, Some (dto.mkUpsertUserRequest 42 "alice-renamed" "alice@example.org"));
   (400, None);
   (500, Some (dto.mkUpsertUserRequest 42 "alice-renamed" "a@example.org"))].

(** * Theorems: the storage layer and the user endpoint *)

(** * Properties of the statements *)

Section statement_facts.
Context {R : Type} `{Model R}.
Implicit Types (ix : Index) (r : R) (rows : list R).

Lemma same_key_sym ix r r' : same_key ix r r' = same_key ix r' r.
Proof.
  unfold same_key.
  destruct (decide (key_of (ix_columns ix) r = key_of (ix_columns ix) r')) as [e|n].
  - by rewrite e.
  - rewrite (bool_decide_eq_false_2 _ n).
    rewrite (bool_decide_eq_false_2 (key_of (ix_columns ix) r' = _))
      by (intros e; by apply n).
    by rewrite !andb_false_r.
Qed.

Lemma clash_false ix r rows :
  clash ix r rows = false ↔ ∀ r', r' ∈ rows → same_key ix r r' = false.
Proof.
  unfold clash. induction rows as [|x rows IH]; simpl.
  - split; [intros _ r' Hr'; inversion Hr'|done].
  - rewrite orb_false_iff, IH. split.
    + intros [Hx Hrest] r' Hr'. inversion Hr'; subst; auto.
    + intros Hall. split; [apply Hall; left|].
      intros r' Hr'. apply Hall. by right.
Qed.

Lemma clash_app ix r l1 l2 :
  clash ix r (l1 ++ l2) = clash ix r l1 || clash ix r l2.
Proof. unfold clash. apply existsb_app. Qed.

Lemma unique_rows_app ix l1 l2 :
  unique_rows ix (l1 ++ l2) = true ↔
  unique_rows ix l1 = true ∧ unique_rows ix l2 = true ∧
  ∀ r, r ∈ l1 → clash ix r l2 = false.
Proof.
  induction l1 as [|x l1 IH]; simpl.
  - split; [intros Hu; repeat split; auto; intros r Hr; inversion Hr|tauto].
  - rewrite !andb_true_iff, !negb_true_iff, IH.
    fold (clash ix x (l1 ++ l2)). fold (clash ix x l1).
    rewrite clash_app, orb_false_iff. split.
    + intros [[Hx1 Hx2] (Hu1 & Hu2 & Hc)]. repeat split; auto.
      intros r Hr. inversion Hr; subst; auto.
    + intros [[Hx1 Hu1] [Hu2 Hc]]. repeat split; auto.
      * apply Hc. left.
      * intros r Hr. apply Hc. by right.
Qed.

Lemma unique_rows_snoc ix rows r :
  unique_rows ix rows = true → clash ix r rows = false →
  unique_rows ix (rows ++ [r]) = true.
Proof.
  intros Hu Hc. apply unique_rows_app. repeat split; auto.
  intros r' Hr'. unfold clash. simpl. rewrite orb_false_r.
  rewrite same_key_sym. by apply (proj1 (clash_false ix r rows)).
Qed.

Lemma unique_rows_middle ix l1 l2 x :
  unique_rows ix (l1 ++ l2) = true → clash ix x (l1 ++ l2) = false →
  unique_rows ix (l1 ++ x :: l2) = true.
Proof.
  rewrite !unique_rows_app, clash_app, orb_false_iff.
  intros (Hu1 & Hu2 & Hc) [Hx1 Hx2]. repeat split; auto.
  - simpl. fold (clash ix x l2). by rewrite Hx2, Hu2.
  - intros r Hr. unfold clash. simpl. fold (clash ix r l2).
    rewrite (Hc r Hr), orb_false_r, same_key_sym.
    by apply (proj1 (clash_false ix x l1)).
Qed.

Lemma unique_rows_drop ix l1 l2 x :
  unique_rows ix (l1 ++ x :: l2) = true → unique_rows ix (l1 ++ l2) = true.
Proof.
  rewrite !unique_rows_app. simpl. rewrite andb_true_iff.
  intros (Hu1 & [_ Hu2] & Hc). repeat split; auto.
  intros r Hr. specialize (Hc r Hr). unfold clash in *. simpl in Hc.
  by apply orb_false_iff in Hc as [_ ?].
Qed.

Lemma unique_rows_lookup ix rows i j r r' :
  unique_rows ix rows = true →
  rows !! i = Some r → rows !! j = Some r' →
  same_key ix r r' = true → i = j.
Proof.
  revert i j. induction rows as [|x rows IH]; intros i j Hu Hi Hj Hk.
  - by rewrite lookup_nil in Hi.
  - simpl in Hu. apply andb_true_iff in Hu as [Hx Hu].
    apply negb_true_iff in Hx. fold (clash ix x rows) in Hx.
    destruct i as [|i], j as [|j]; simpl in *; simplify_eq.
    + done.
    + apply list_elem_of_lookup_2 in Hj.
      rewrite (proj1 (clash_false _ _ _) Hx _ Hj) in Hk. done.
    + apply list_elem_of_lookup_2 in Hi.
      rewrite same_key_sym in Hk.
      rewrite (proj1 (clash_false _ _ _) Hx _ Hi) in Hk. done.
    + f_equal. eauto.
Qed.

Lemma unique_rows_elem ix rows r r' :
  unique_rows ix rows = true → r ∈ rows → r' ∈ rows →
  same_key ix r r' = true → r = r'.
Proof.
  intros Hu [i Hi]%list_elem_of_lookup [j Hj]%list_elem_of_lookup Hk.
  assert (i = j) by eauto using unique_rows_lookup. congruence.
Qed.

Lemma violates_false sch ix r rows :
  violates sch r rows = false → ix ∈ sch → ix_table ix = TableName →
  clash ix r rows = false.
Proof.
  unfold violates. intros Hv Hin Ht.
  destruct (clash ix r rows) eqn:E; [|done].
  assert (existsb (λ ix, clash ix r rows) (indexes_of sch) = true)
    as Hex; [|congruence].
  apply existsb_exists. exists ix. split; [|done].
  apply list_elem_of_In. unfold indexes_of. by apply list_elem_of_filter.
Qed.

Lemma insert_row_unique sch ix r rows rows' :
  insert_row sch r rows = inr rows' → ix ∈ sch → ix_table ix = TableName →
  unique_rows ix rows = true → unique_rows ix rows' = true.
Proof.
  unfold insert_row. destruct (violates sch r rows) eqn:Hv; [done|].
  intros [= <-] Hin Ht Hu.
  apply unique_rows_snoc; eauto using violates_false.
Qed.

Lemma update_rows_unique sch ix p f seen todo rows' :
  update_rows sch p f seen todo = inr rows' → ix ∈ sch →
  ix_table ix = TableName →
  unique_rows ix (seen ++ todo) = true → unique_rows ix rows' = true.
Proof.
  intros Hup Hin Ht. revert seen Hup.
  induction todo as [|r rest IH]; intros seen Hup Hu; simpl in Hup.
  - injection Hup as <-. by rewrite app_nil_r in Hu.
  - destruct (p r).
    + destruct (violates sch (f r) (seen ++ rest)) eqn:Hv; [done|].
      apply (IH _ Hup). rewrite <-app_assoc. simpl.
      apply unique_rows_middle; eauto using unique_rows_drop, violates_false.
    + apply (IH _ Hup). by rewrite <-app_assoc.
Qed.

Lemma update_rows_map sch p f seen todo rows' :
  update_rows sch p f seen todo = inr rows' →
  rows' = seen ++ ((λ r, if p r then f r else r) <$> todo).
Proof.
  revert seen. induction todo as [|r rest IH]; intros seen Hup; simpl in Hup.
  - injection Hup as <-. by rewrite app_nil_r.
  - simpl. destruct (p r).
    + destruct (violates sch (f r) (seen ++ rest)); [done|].
      rewrite (IH _ Hup). by rewrite <-app_assoc.
    + rewrite (IH _ Hup). by rewrite <-app_assoc.
Qed.

Lemma delete_where_unique ix p rows :
  unique_rows ix rows = true → unique_rows ix (delete_where p rows) = true.
Proof.
  unfold delete_where. induction rows as [|r rows IH]; simpl; [done|].
  rewrite andb_true_iff, negb_true_iff. intros [Hc Hu].
  destruct (negb (p r)); simpl; auto.
  rewrite (IH Hu), andb_true_r, negb_true_iff.
  fold (clash ix r (List.filter (λ r0, negb (p r0)) rows)).
  apply clash_false. intros r' Hr'.
  apply (proj1 (clash_false ix r rows) Hc).
  apply list_elem_of_In in Hr'. apply filter_In in Hr' as [Hr' _].
  by apply list_elem_of_In.
Qed.

Lemma apply_stmt_unique sch ix s rows rows' :
  apply_stmt sch s rows = inr rows' → ix ∈ sch → ix_table ix = TableName →
  unique_rows ix rows = true → unique_rows ix rows' = true.
Proof.
  destruct s as [r|p f|p|ix' merge r]; simpl; intros Hs Hin Ht Hu.
  - eauto using insert_row_unique.
  - eapply update_rows_unique; eauto.
  - injection Hs as <-. by apply delete_where_unique.
  - unfold upsert_row in Hs. destruct (clash ix' r rows).
    + eapply update_rows_unique; eauto.
    + eauto using insert_row_unique.
Qed.
End statement_facts.

(** * The migration and the statements keep the indexes *)

Ltac same_key_by_columns col :=
  unfold same_key; cbn; unfold col; simpl;
  rewrite bool_decide_eq_true; split;
  [ intros E; injection E; auto
  | intros E; f_equal; intuition congruence ].

Lemma same_key_repo_date (r r' : RepoDailyCommitLog.t) :
  same_key db.idx_repo_daily_commit_logs_repo_date r r' = true ↔
  RepoDailyCommitLog.UserRepoID r = RepoDailyCommitLog.UserRepoID r' ∧
  RepoDailyCommitLog.CommitDate r = RepoDailyCommitLog.CommitDate r'.
Proof. same_key_by_columns RepoDailyCommitLog.col. Qed.

Lemma same_key_user_date (r r' : UserDailyCommitLog.t) :
  same_key db.idx_user_daily_commit_logs_user_date r r' = true ↔
  UserDailyCommitLog.UserID r = UserDailyCommitLog.UserID r' ∧
  UserDailyCommitLog.Date r = UserDailyCommitLog.Date r'.
Proof. same_key_by_columns UserDailyCommitLog.col. Qed.

Lemma same_key_users_pkey (r r' : User.t) :
  same_key (db.pkey "users") r r' = true ↔ User.ID r = User.ID r'.
Proof. same_key_by_columns User.col. Qed.

Lemma same_key_users_github (r r' : User.t) :
  same_key db.idx_users_github_user_id r r' = true ↔
  User.GitHubUserID r = User.GitHubUserID r'.
Proof. same_key_by_columns User.col. Qed.

Lemma exec_schema s d : schema (exec s d) = schema d.
Proof. destruct s; simpl; by destruct (apply_stmt _ _ _). Qed.

Lemma exec_db_ok s d : db_ok d → db_ok (exec s d).
Proof.
  intros Hok ix Hin. rewrite exec_schema in Hin. specialize (Hok ix Hin).
  destruct s as [s|s|s|s|s]; simpl;
    match goal with |- context [apply_stmt ?sch ?s ?rows] =>
      destruct (apply_stmt sch s rows) as [e|rows'] eqn:E end; try done;
    unfold db.table_unique in *; simpl;
    repeat case_decide; try done; try congruence;
    eapply apply_stmt_unique; eauto.
Qed.

Lemma execAll_schema l d : schema (execAll l d) = schema d.
Proof.
  unfold execAll. revert d. induction l as [|s l IH]; intros d; simpl; [done|].
  by rewrite IH, exec_schema.
Qed.

Lemma execAll_db_ok l d : db_ok d → db_ok (execAll l d).
Proof.
  unfold execAll. revert d.
  induction l as [|s l IH]; intros d Hok; simpl; [done|].
  apply IH. by apply exec_db_ok.
Qed.

(** The migration only adds indexes. *)
Lemma bind_inr {A B} (m : M A) (k : A → M B) d d' b :
  bind m k d = (d', inr b) →
  ∃ d1 a, m d = (d1, inr a) ∧ k a d1 = (d', inr b).
Proof.
  unfold bind. destruct (m d) as [d1 [e|a]]; [done|]. eauto.
Qed.

Lemma table_unique_same_rows ix d d' :
  same_rows d d' → db.table_unique ix d' = db.table_unique ix d.
Proof.
  intros (H1 & H2 & H3 & H4 & H5 & _). unfold db.table_unique.
  by rewrite H1, H2, H3, H4, H5.
Qed.

Lemma migration_names_NoDup : NoDup (ix_name <$> migration_indexes).
Proof. apply (bool_decide_unpack _). by vm_compute. Qed.

Lemma migration_name_inj ix ix' :
  ix ∈ migration_indexes → ix' ∈ migration_indexes →
  ix_name ix = ix_name ix' → ix = ix'.
Proof.
  intros [i Hi]%list_elem_of_lookup [j Hj]%list_elem_of_lookup Hn.
  assert (i = j); [|congruence].
  eapply NoDup_lookup; [apply migration_names_NoDup| |].
  - rewrite list_lookup_fmap, Hi. done.
  - rewrite list_lookup_fmap, Hj. simpl. by rewrite Hn.
Qed.

Lemma createUniqueIndex_ok ix d d' :
  ix ∈ migration_indexes → db_ok d → names_free d →
  db.createUniqueIndex ix d = (d', inr ()) →
  db_ok d' ∧ names_free d' ∧ same_rows d d' ∧ ix ∈ schema d' ∧
  schema d ⊆ schema d'.
Proof.
  intros Hmig Hok Hfree. unfold db.createUniqueIndex.
  case_bool_decide as Hname.
  - intros [= <-]. repeat split; auto.
    apply list_elem_of_fmap in Hname as (ix0 & Hn & Hin).
    by rewrite (Hfree ix0 ix Hin Hmig (eq_sym Hn)) in Hin.
  - destruct (db.table_unique ix d) eqn:Hu; [|done].
    intros [= <-]. simpl. repeat split; auto.
    + intros ix0 Hin. simpl in Hin.
      rewrite (table_unique_same_rows ix0 d) by (repeat split; done).
      apply elem_of_app in Hin as [Hin|Hin]; [by apply Hok|].
      apply list_elem_of_singleton in Hin. by subst.
    + intros ix0 ix' Hin Hin' Hn. simpl in Hin.
      apply elem_of_app in Hin as [Hin|Hin]; [by eapply Hfree|].
      apply list_elem_of_singleton in Hin. subst.
      by apply migration_name_inj.
    + apply elem_of_app. right. by apply list_elem_of_singleton.
    + intros ix0 Hin. apply elem_of_app. by left.
Qed.

Lemma AutoMigrate_createAll d :
  db.AutoMigrate d = createAll migration_indexes d.
Proof.
  unfold db.AutoMigrate, db.gormAutoMigrate, db.addUniqueConstraints.
  unfold createAll, migration_indexes, foldr, bind, ret.
  repeat match goal with
         | |- context [db.createUniqueIndex ?ix ?d] =>
             destruct (db.createUniqueIndex ix d) as [? [?|[]]]; try done
         end.
Qed.

Lemma createAll_ok l d d' :
  l ⊆ migration_indexes → db_ok d → names_free d →
  createAll l d = (d', inr ()) →
  db_ok d' ∧ names_free d' ∧ same_rows d d' ∧ l ⊆ schema d' ∧
  schema d ⊆ schema d'.
Proof.
  revert d. induction l as [|ix l IH]; intros d Hsub Hok Hfree; simpl.
  - intros [= <-]. repeat split; auto. intros x Hx. inversion Hx.
  - intros (d1 & [] & H1 & H2)%bind_inr.
    apply createUniqueIndex_ok in H1 as (Hok1 & Hfree1 & Hrows1 & Hin1 & Hs1);
      [|apply Hsub; left|done..].
    apply IH in H2 as (Hok2 & Hfree2 & Hrows2 & Hin2 & Hs2); [|
      intros x Hx; apply Hsub; by right|done..].
    repeat split; auto; try (unfold same_rows in *; intuition congruence).
    + intros x Hx. inversion Hx; subst; auto.
    + intros x Hx. auto.
Qed.

Lemma AutoMigrate_ok d d' :
  db_ok d → names_free d → db.AutoMigrate d = (d', inr ()) →
  db_ok d' ∧ names_free d' ∧ same_rows d d' ∧ migration_indexes ⊆ schema d'.
Proof.
  rewrite AutoMigrate_createAll. intros Hok Hfree Hm.
  apply createAll_ok in Hm as (? & ? & ? & ? & ?); auto.
Qed.

(** C5: once the migration has created its unique indexes, whatever
    statements are then run on the tables (each one applied or refused),
    [repo_daily_commit_logs] holds at most one row per
    (user_repo_id, commit_date) and [user_daily_commit_logs] at most one
    row per (user_id, date). *)
Theorem unique_keys_enforced d0 d (stmts : list Stmt) :
  db_ok d0 → names_free d0 → db.AutoMigrate d0 = (d, inr ()) →
  one_per_repo_date (execAll stmts d) ∧ one_per_user_date (execAll stmts d).
Proof.
  intros Hok Hfree Hm.
  apply AutoMigrate_ok in Hm as (Hok' & _ & _ & Hin); [|done..].
  pose proof (execAll_db_ok stmts d Hok') as Hall.
  split.
  - assert (db.idx_repo_daily_commit_logs_repo_date ∈ schema (execAll stmts d))
      as Hix by (rewrite execAll_schema; apply Hin; set_solver).
    specialize (Hall _ Hix).
    intros i j r r' Hi Hj H1 H2.
    apply (unique_rows_lookup db.idx_repo_daily_commit_logs_repo_date
             (repo_daily_commit_logs (execAll stmts d)) i j r r' Hall Hi Hj).
    by apply same_key_repo_date.
  - assert (db.idx_user_daily_commit_logs_user_date ∈ schema (execAll stmts d))
      as Hix by (rewrite execAll_schema; apply Hin; set_solver).
    specialize (Hall _ Hix).
    intros i j r r' Hi Hj H1 H2.
    apply (unique_rows_lookup db.idx_user_daily_commit_logs_user_date
             (user_daily_commit_logs (execAll stmts d)) i j r r' Hall Hi Hj).
    by apply same_key_user_date.
Qed.

(** * The user repository *)

Lemma least_Some p rows r :
  gorm.least p rows = Some r → r ∈ rows ∧ p r = true.
Proof.
  revert r. induction rows as [|x rows IH]; intros r; simpl; [done|].
  destruct (p x) eqn:Hp.
  - destruct (gorm.least p rows) as [r'|].
    + destruct (IH r' eq_refl) as [Hin Hr'].
      case_match; intros [= <-]; split; auto; first [by right | by left].
    + intros [= <-]. split; [by left|done].
  - intros Hl. destruct (IH r Hl). split; [by right|done].
Qed.

Lemma least_None p rows :
  gorm.least p rows = None → ∀ r, r ∈ rows → p r = false.
Proof.
  induction rows as [|x rows IH]; simpl; intros Hl r Hr; [inversion Hr|].
  destruct (p x) eqn:Hp.
  - destruct (gorm.least p rows); [by case_match|done].
  - inversion Hr; subst; auto.
Qed.

Lemma violates_true {R} `{Model R} sch ix (r : R) rows :
  ix ∈ sch → ix_table ix = TableName → clash ix r rows = true →
  violates sch r rows = true.
Proof.
  intros Hin Ht Hc. unfold violates. apply existsb_exists. exists ix.
  split; [|done]. apply list_elem_of_In. unfold indexes_of.
  by apply list_elem_of_filter.
Qed.

Lemma clash_true {R} `{Model R} ix (r r' : R) rows :
  r' ∈ rows → same_key ix r r' = true → clash ix r rows = true.
Proof.
  intros Hin Hk. unfold clash. apply existsb_exists. exists r'.
  split; [by apply list_elem_of_In|done].
Qed.

Lemma fmap_replace_self (existing : User.t) (rows : list User.t) :
  (λ r, if decide (r = existing) then existing else r) <$> rows = rows.
Proof.
  induction rows as [|x rows IH]; [done|].
  rewrite fmap_cons, IH. by case_decide; subst.
Qed.

(** A row with the same GitHub user id makes the INSERT fail. *)
Lemma Create_refused now user d existing :
  users_ok d → existing ∈ users d →
  User.GitHubUserID existing = User.GitHubUserID user →
  users (gorm.Create now user d).1 = users d.
Proof.
  intros (_ & Hix & _ & _) Hin Hg. unfold gorm.Create.
  match goal with |- context [insert_row ?s ?r ?rows] =>
    assert (insert_row s r rows = inl ErrDuplicatedKey) as -> end; [|done].
  unfold insert_row.
  rewrite (violates_true (schema d) db.idx_users_github_user_id); try done.
  apply (clash_true db.idx_users_github_user_id _ existing (users d) Hin).
  apply same_key_users_github. by simpl.
Qed.

Lemma Upsert_row_replaced now user d existing :
  users_ok d → existing ∈ users d →
  User.GitHubUserID existing = User.GitHubUserID user →
  ∃ r', users (repository.Upsert now user d).1
          = (λ r, if decide (r = existing) then r' else r) <$> users d
        ∧ User.ID r' = User.ID existing
        ∧ User.GitHubUserID r' = User.GitHubUserID existing
        ∧ User.CreatedAt r' = User.CreatedAt existing
        ∧ (r' = existing
           ∨ (User.GitHubUsername r' = User.GitHubUsername user
              ∧ User.Email r' = User.Email user
              ∧ User.UpdatedAt r' = now
              ∧ User.DeletedAt r' = User.DeletedAt user)).
Proof.
  intros Hok Hin Hg.
  assert (∀ d0, users d0 = users d →
            ∃ r', users d0 = (λ r, if decide (r = existing) then r' else r) <$> users d
              ∧ User.ID r' = User.ID existing
              ∧ User.GitHubUserID r' = User.GitHubUserID existing
              ∧ User.CreatedAt r' = User.CreatedAt existing
              ∧ (r' = existing
                 ∨ (User.GitHubUsername r' = User.GitHubUsername user
                    ∧ User.Email r' = User.Email user
                    ∧ User.UpdatedAt r' = now
                    ∧ User.DeletedAt r' = User.DeletedAt user))) as Hsame.
  { intros d0 ->. exists existing. rewrite fmap_replace_self. auto 10. }
  destruct Hok as (Hpk & Hix & Hupk & Huix).
  unfold repository.Upsert, repository.FindByGitHubUserID, gorm.First.
  destruct (gorm.least _ (users d)) as [found|] eqn:Hl.
  - apply least_Some in Hl as [Hfin Hp].
    apply andb_true_iff in Hp as [Hfg Hlive].
    apply bool_decide_eq_true in Hfg.
    assert (found = existing) as ->.
    { apply (unique_rows_elem db.idx_users_github_user_id (users d)
               found existing Huix Hfin Hin).
      apply same_key_users_github. congruence. }
    unfold repository.Update, gorm.Save. simpl User.ID.
    case_bool_decide as Hz.
    + apply Hsame. eapply Create_refused; eauto. repeat split; eauto.
    + match goal with |- context [existsb ?t (users d)] =>
        assert (existsb t (users d) = true) as -> end.
      { apply existsb_exists. exists existing. split; [by apply list_elem_of_In|].
        simpl. rewrite Hlive. by rewrite bool_decide_eq_true_2. }
      destruct (update_where _ _ _ _) as [e|rows] eqn:Hup; [by apply Hsame|].
      apply update_rows_map in Hup. simpl in Hup. subst rows. simpl.
      exists (User.mk (User.ID existing) (User.GitHubUserID user)
                (User.GitHubUsername user) (User.Email user)
                (User.CreatedAt existing) now (User.DeletedAt user)).
      split; [|simpl; auto 10].
      apply list_fmap_ext. intros i r Hr.
      apply list_elem_of_lookup_2 in Hr.
      case_decide as He.
      * subst r. by rewrite Hlive, bool_decide_eq_true_2.
      * destruct (bool_decide (User.ID r = User.ID existing)) eqn:Hid; [|done].
        apply bool_decide_eq_true in Hid. exfalso. apply He.
        apply (unique_rows_elem (db.pkey "users") (users d) r existing
                 Hupk Hr Hin).
        by apply same_key_users_pkey.
  - apply Hsame. unfold repository.Create. eapply Create_refused; eauto.
    repeat split; eauto.
Qed.

Lemma ids_kept_refl rows : ids_kept rows rows.
Proof. intros r Hr. eauto. Qed.

Lemma ids_kept_snoc rows x : ids_kept rows (rows ++ [x]).
Proof. intros r Hr. exists r. split; [|done]. apply elem_of_app. by left. Qed.

Lemma ids_kept_fmap (f : User.t → User.t) rows :
  (∀ r, User.ID (f r) = User.ID r) → ids_kept rows (f <$> rows).
Proof.
  intros Hf r Hr. exists (f r). split; [|done].
  apply list_elem_of_fmap. eauto.
Qed.

Lemma Create_rows now user d :
  same_history d (gorm.Create now user d).1 ∧
  (users (gorm.Create now user d).1 = users d
   ∨ ∃ row, users (gorm.Create now user d).1 = users d ++ [row]).
Proof.
  unfold gorm.Create, insert_row.
  destruct (violates _ _ _); simpl; split; try done; eauto.
Qed.

Lemma Save_rows now user d :
  same_history d (gorm.Save now user d).1 ∧
  ids_kept (users d) (users (gorm.Save now user d).1).
Proof.
  unfold gorm.Save. case_bool_decide as Hz.
  { destruct (Create_rows now user d) as [Hh [->|[row ->]]];
      auto using ids_kept_refl, ids_kept_snoc. }
  cbv zeta. destruct (existsb _ (users d)).
  - destruct (update_where _ _ _ _) as [e|rows] eqn:Hup; simpl.
    + split; [done|apply ids_kept_refl].
    + split; [done|]. apply update_rows_map in Hup. subst rows. simpl.
      apply ids_kept_fmap. intros r.
      destruct (bool_decide (User.ID r = User.ID user)) eqn:E; simpl; [|done].
      apply bool_decide_eq_true in E. by destruct (gorm.live r).
  - unfold upsert_row, insert_row.
    destruct (clash _ _ _).
    + destruct (update_where _ _ _ _) as [e|rows] eqn:Hup; simpl.
      * split; [done|apply ids_kept_refl].
      * split; [done|]. apply update_rows_map in Hup. subst rows. simpl.
        apply ids_kept_fmap. intros r. by destruct (same_key _ _ r).
    + destruct (violates _ _ _); simpl.
      * split; [done|apply ids_kept_refl].
      * split; [done|apply ids_kept_snoc].
Qed.

Lemma Create_kept now user d :
  same_history d (gorm.Create now user d).1 ∧
  ids_kept (users d) (users (gorm.Create now user d).1).
Proof.
  destruct (Create_rows now user d) as [Hh [->|[row ->]]];
    auto using ids_kept_refl, ids_kept_snoc.
Qed.

Lemma call_rows c d :
  same_history d (call c d).1 ∧ ids_kept (users d) (users (call c d).1).
Proof.
  destruct c as [g|now u|now u|now u]; unfold call.
  - unfold repository.FindByGitHubUserID, gorm.First.
    destruct (gorm.least _ _); simpl; split; try done; apply ids_kept_refl.
  - apply Create_kept.
  - apply Save_rows.
  - unfold repository.Upsert, repository.FindByGitHubUserID, gorm.First.
    destruct (gorm.least _ _).
    + apply Save_rows.
    + apply Create_kept.
Qed.

Lemma Upsert_new now user d :
  (∀ r, r ∈ users d → User.GitHubUserID r ≠ User.GitHubUserID user) →
  users (repository.Upsert now user d).1 = users d
  ∨ ∃ row, users (repository.Upsert now user d).1 = users d ++ [row].
Proof.
  intros Hnew. unfold repository.Upsert, repository.FindByGitHubUserID, gorm.First.
  destruct (gorm.least _ _) as [found|] eqn:Hl.
  - apply least_Some in Hl as [Hin Hp]. apply andb_true_iff in Hp as [Hg _].
    apply bool_decide_eq_true in Hg. by destruct (Hnew found Hin).
  - apply Create_rows.
Qed.

Lemma kept_refl {R} (id : R → Z) rows : kept id rows rows.
Proof. intros r Hr. eauto. Qed.

Lemma kept_trans {R} (id : R → Z) l1 l2 l3 :
  kept id l1 l2 → kept id l2 l3 → kept id l1 l3.
Proof.
  intros H1 H2 r Hr. destruct (H1 r Hr) as (r1 & Hr1 & E1).
  destruct (H2 r1 Hr1) as (r2 & Hr2 & E2). exists r2. split; [done|congruence].
Qed.

Lemma apply_stmt_kept {R} `{Model R} (id : R → Z) sch s rows rows' :
  keeps_id id s → apply_stmt sch s rows = inr rows' → kept id rows rows'.
Proof.
  assert (∀ r, insert_row sch r rows = inr rows' → kept id rows rows') as Hins.
  { intros r. unfold insert_row. destruct (violates _ _ _); [done|].
    intros [= <-] x Hx. exists x. split; [|done]. apply elem_of_app. by left. }
  destruct s as [r|p f|p|ix merge r]; simpl; try done; [by eauto|].
  intros Hid. unfold upsert_row. destruct (clash ix r rows); [|by eauto].
  intros Hup. apply update_rows_map in Hup. subst rows'. simpl.
  intros x Hx. exists (if same_key ix r x then merge x r else x).
  split; [apply list_elem_of_fmap; eauto|]. by destruct (same_key ix r x).
Qed.

Lemma apply_stmt_rows {R} `{Model R} sch s (rows rows' : list R) :
  keeps_rows s → apply_stmt sch s rows = inr rows' →
  ∀ r, r ∈ rows → r ∈ rows'.
Proof.
  assert (∀ r, insert_row sch r rows = inr rows' → ∀ x, x ∈ rows → x ∈ rows')
    as Hins.
  { intros r. unfold insert_row. destruct (violates _ _ _); [done|].
    intros [= <-] x Hx. apply elem_of_app. by left. }
  destruct s as [r|p f|p|ix merge r]; simpl; try done; [by eauto|].
  intros Hid. unfold upsert_row. destruct (clash ix r rows); [|by eauto].
  intros Hup. apply update_rows_map in Hup. subst rows'. simpl.
  intros x Hx. apply list_elem_of_fmap. exists x. split; [|done].
  destruct (same_key ix r x); by rewrite ?Hid.
Qed.

Lemma keeps_rows_id {R} (id : R → Z) (s : TableStmt R) :
  keeps_rows s → keeps_id id s.
Proof.
  destruct s as [r|p f|p|ix merge r]; simpl; try done.
  intros Hm old new. by rewrite Hm.
Qed.

Lemma exec_users s d r :
  association_write s → r ∈ users d → r ∈ users (exec s d).
Proof.
  destruct s as [s|s|s|s|s]; simpl; intros Hs Hr;
    match goal with |- context [apply_stmt ?sch ?s ?rows] =>
      destruct (apply_stmt sch s rows) as [e|rows'] eqn:E end; try done.
  simpl. by apply (apply_stmt_rows _ _ _ _ Hs E).
Qed.

Lemma execAll_users l d r :
  Forall association_write l → r ∈ users d → r ∈ users (execAll l d).
Proof.
  unfold execAll. intros Hl. revert d.
  induction Hl as [|s l Hs _ IH]; intros d Hr; simpl; [done|].
  by apply IH, exec_users.
Qed.

Lemma rows_kept_refl d : rows_kept d d.
Proof. repeat split; apply kept_refl. Qed.

Lemma rows_kept_trans d1 d2 d3 :
  rows_kept d1 d2 → rows_kept d2 d3 → rows_kept d1 d3.
Proof.
  intros (?&?&?&?&?) (?&?&?&?&?). repeat split; eapply kept_trans; eauto.
Qed.

Lemma same_tables_kept d d' : same_tables d d' → rows_kept d d'.
Proof.
  intros (E1&E2&E3&E4&E5). unfold rows_kept.
  rewrite E1, E2, E3, E4, E5. repeat split; apply kept_refl.
Qed.

Lemma exec_kept s d : association_write s → rows_kept d (exec s d).
Proof.
  destruct s as [s|s|s|s|s]; simpl; intros Hs;
    try apply (keeps_rows_id User.ID) in Hs;
    match goal with |- context [apply_stmt ?sch ?s ?rows] =>
      destruct (apply_stmt sch s rows) as [e|rows'] eqn:E end;
    try apply rows_kept_refl;
    apply (apply_stmt_kept _ _ _ _ _ Hs) in E;
    repeat split; simpl; try apply kept_refl; done.
Qed.

Lemma execAll_kept l d : Forall association_write l → rows_kept d (execAll l d).
Proof.
  unfold execAll. intros Hl. revert d.
  induction Hl as [|s l Hs _ IH]; intros d; simpl; [apply rows_kept_refl|].
  eapply rows_kept_trans; [by apply exec_kept|apply IH].
Qed.

Lemma call_kept c d : rows_kept d (call c d).1.
Proof.
  destruct (call_rows c d) as [(E2&E3&E4&E5) Hu]. unfold rows_kept.
  rewrite E2, E3, E4, E5. repeat split; try apply kept_refl. exact Hu.
Qed.

(** C8: no call of the user repository removes a row of any table,
    whether or not the value it is given carries elements in its
    association slices, and with empty slices it leaves the tables that
    hold a user's history as they are; Upsert, with or without such
    elements, finds its row by the GitHub user id alone, keeps the id and
    the GitHub user id of every stored row and leaves alone every row with
    another GitHub user id, whatever its username; a row marked as deleted
    stays in the table and is only hidden from the lookup. *)
Theorem user_identity_and_retention d :
  users_ok d →
  (∀ c a d', after_call c a d d' →
     rows_kept d d'
     ∧ (a = no_associations → same_history d d'))
  ∧ (∀ now user a d' r,
       after_call (CallUpsert now user) a d d' → r ∈ users d →
       ∃ r', r' ∈ users d'
             ∧ User.ID r' = User.ID r
             ∧ User.GitHubUserID r' = User.GitHubUserID r
             ∧ (User.GitHubUserID r ≠ User.GitHubUserID user → r' = r))
  ∧ (∀ g r d', repository.FindByGitHubUserID g d = (d', inr r) →
       d' = d ∧ User.GitHubUserID r = g ∧ User.DeletedAt r = None).
Proof.
  intros Hok. split; [|split].
  - intros c a d' [Ha|l Ha Hl|d1 Ha Hd].
    + split; [apply call_kept|]. intros _. by destruct (call_rows c d).
    + split; [|done].
      eapply rows_kept_trans; [apply call_kept|by apply execAll_kept].
    + split; [by apply same_tables_kept|done].
  - intros now user a d' r Hafter Hr.
    assert (∃ r', r' ∈ users (repository.Upsert now user d).1
                  ∧ User.ID r' = User.ID r
                  ∧ User.GitHubUserID r' = User.GitHubUserID r
                  ∧ (User.GitHubUserID r ≠ User.GitHubUserID user → r' = r))
      as (r' & Hr' & Hbare);
      [|destruct Hafter as [Ha|l Ha Hl|d1 Ha (Hd & _)];
        [by exists r'|exists r'; split; [by apply execAll_users|done]|
         exists r; by rewrite Hd]].
    destruct (decide (Exists (λ x, User.GitHubUserID x = User.GitHubUserID user)
                             (users d))) as [Hex|Hnex].
    + apply Exists_exists in Hex as (existing & Hin & Hg).
      destruct (Upsert_row_replaced now user d existing Hok Hin Hg)
        as (r' & -> & Hid & Hgid & _).
      destruct (decide (r = existing)) as [->|Hne].
      * exists r'. repeat split; auto; [|congruence].
        apply list_elem_of_fmap. exists existing. by rewrite decide_True.
      * exists r. repeat split; auto.
        apply list_elem_of_fmap. exists r. by rewrite decide_False.
    + assert (∀ x, x ∈ users d → User.GitHubUserID x ≠ User.GitHubUserID user)
        as Hnew.
      { intros x Hx Hg. apply Hnex. apply Exists_exists. eauto. }
      exists r. destruct (Upsert_new now user d Hnew) as [->|[row ->]];
        repeat split; auto. apply elem_of_app. by left.
  - intros g r d'. unfold repository.FindByGitHubUserID, gorm.First.
    destruct (gorm.least _ _) as [found|] eqn:Hl; [|done].
    intros [= <- <-]. apply least_Some in Hl as [_ Hp].
    apply andb_true_iff in Hp as [Hg Hlive].
    apply bool_decide_eq_true in Hg, Hlive. done.
Qed.

(** C10: whatever the usecase behind the controller is, a request whose
    GitHub user id is 0 or whose username is empty is answered with status
    400 and the database is the one before the call. *)
Theorem UpsertUser_rejects
    (userUsecase : dto.UpsertUserRequest → M dto.UserResponse)
    (req : dto.UpsertUserRequest) (d : DB) :
  dto.req_GitHubUserID req = 0 ∨ dto.req_GitHubUsername req = "" →
  ∃ msg, controller.UpsertUser userUsecase (Some req) d
         = (d, controller.mkResponse controller.StatusBadRequest
                 (controller.ErrorBody msg)).
Proof.
  intros Hbad. unfold controller.UpsertUser.
  case_bool_decide as H0; [eauto|].
  case_bool_decide as H1; [eauto|].
  destruct Hbad; done.
Qed.

(** * Theorems: the commit-activity engine *)

Import engine.

(** * The days of a user, in ascending order *)

Global Instance byDate_trans : Transitive byDate.
Proof. intros a b c. unfold byDate. lia. Qed.

Global Instance byDate_total : Total byDate.
Proof. intros a b. unfold byDate. lia. Qed.

Lemma NoDup_omap_inj {A B} (f : A → option B) (l : list A) :
  (∀ x y z, f x = Some z → f y = Some z → x = y) →
  NoDup l → NoDup (omap f l).
Proof.
  intros Hinj. induction 1 as [|x l Hx Hl IH]; simpl; [constructor|].
  destruct (f x) as [z|] eqn:Hz; [|done].
  constructor; [|done]. intros Hin.
  apply list_elem_of_omap in Hin as (y & Hy & Hfy).
  by rewrite (Hinj x y z Hz Hfy) in Hx.
Qed.

Lemma selectDay_Some user keep kv d t :
  selectDay user keep kv = Some (d, t) ↔
  kv = ((user, d), t) ∧ keep d = true.
Proof.
  unfold selectDay. destruct kv as [[u' d'] t']. simpl.
  destruct (bool_decide (u' = user)) eqn:Hu; simpl.
  - apply bool_decide_eq_true in Hu. subst.
    destruct (keep d') eqn:Hk; split.
    + intros [= <- <-]. done.
    + intros [[= <- <-] _]. done.
    + done.
    + intros [[= <- <-] ?]. congruence.
  - apply bool_decide_eq_false in Hu. split; [done|].
    intros [[= -> _ _] _]. done.
Qed.

Lemma daysOf_elem m user keep d t :
  (d, t) ∈ daysOf m user keep ↔ m !! (user, d) = Some t ∧ keep d = true.
Proof.
  unfold daysOf. rewrite merge_sort_Permutation, list_elem_of_omap. split.
  - intros (kv & Hin & Hsel). apply selectDay_Some in Hsel as [-> Hk].
    by apply elem_of_map_to_list in Hin.
  - intros [Hm Hk]. exists ((user, d), t). split.
    + by apply elem_of_map_to_list.
    + by apply selectDay_Some.
Qed.

Lemma daysOf_NoDup m user keep : NoDup (daysOf m user keep).
Proof.
  unfold daysOf. rewrite merge_sort_Permutation.
  apply NoDup_omap_inj; [|apply NoDup_map_to_list].
  intros x y [d t] Hx Hy.
  apply selectDay_Some in Hx as [-> _]. by apply selectDay_Some in Hy as [-> _].
Qed.

Lemma daysOf_sorted m user keep : StronglySorted earlier (daysOf m user keep).
Proof.
  assert (StronglySorted byDate (daysOf m user keep)) as Hs.
  { apply StronglySorted_merge_sort; apply _. }
  pose proof (daysOf_NoDup m user keep) as Hnd.
  assert (∀ x, x ∈ daysOf m user keep → m !! (user, x.1) = Some x.2) as Hf.
  { intros [d t] Hx. by apply daysOf_elem in Hx as [? _]. }
  induction Hs as [|x l Hs IH Hall]; [constructor|].
  apply NoDup_cons in Hnd as [Hx Hnd].
  constructor.
  - apply IH; [done|]. intros y Hy. apply Hf. by right.
  - apply Forall_forall. intros y Hy.
    rewrite Forall_forall in Hall. specialize (Hall y Hy).
    unfold byDate, earlier in *.
    destruct (decide (x.1 = y.1)) as [E|]; [|lia].
    exfalso. apply Hx.
    assert (m !! (user, x.1) = Some x.2) as H1 by (apply Hf; left).
    assert (m !! (user, y.1) = Some y.2) as H2 by (apply Hf; by right).
    rewrite E in H1. rewrite H1 in H2. injection H2 as H2.
    destruct x, y; simpl in *; subst. done.
Qed.

Lemma earlier_sorted_unique (l1 l2 : list (Z * Z)) :
  StronglySorted earlier l1 → StronglySorted earlier l2 →
  (∀ x, x ∈ l1 ↔ x ∈ l2) → l1 = l2.
Proof.
  intros H1. revert l2. induction H1 as [|x l1 Hs1 IH Hx]; intros l2 H2 Heq.
  - destruct l2 as [|y l2]; [done|].
    assert (y ∈ []) as Hy by (apply Heq; left). inversion Hy.
  - destruct H2 as [|y l2 Hs2 Hy].
    { assert (x ∈ []) as Hx' by (apply Heq; left). inversion Hx'. }
    rewrite Forall_forall in Hx, Hy. unfold earlier in *.
    assert (x = y) as ->.
    { assert (x ∈ y :: l2) as Hxin by (apply Heq; left).
      assert (y ∈ x :: l1) as Hyin by (apply Heq; left).
      inversion Hxin as [|? ? ? Hxin']; subst; [done|].
      inversion Hyin as [|? ? ? Hyin']; subst; [done|].
      specialize (Hx _ Hyin'). specialize (Hy _ Hxin'). lia. }
    f_equal. apply IH; [done|]. intros z. split; intros Hz.
    + assert (z ∈ y :: l2) as Hz' by (apply Heq; by right).
      inversion Hz'; subst; [|done]. specialize (Hx _ Hz). lia.
    + assert (z ∈ y :: l1) as Hz' by (apply Heq; by right).
      inversion Hz'; subst; [|done]. specialize (Hy _ Hz). lia.
Qed.

Lemma daysOf_ext m m' user keep keep' :
  (∀ d, keep d = keep' d) →
  (∀ d, keep d = true → m !! (user, d) = m' !! (user, d)) →
  daysOf m user keep = daysOf m' user keep'.
Proof.
  intros Hk Hm. apply earlier_sorted_unique; try apply daysOf_sorted.
  intros [d t]. rewrite !daysOf_elem, <-Hk. split.
  - intros [H1 H2]. by rewrite <-Hm.
  - intros [H1 H2]. by rewrite Hm.
Qed.

Lemma daysOf_split m user fromDate :
  daysOf m user (λ _, true)
  = daysOf m user (λ d, bool_decide (d < fromDate))
    ++ daysOf m user (λ d, bool_decide (fromDate ≤ d)).
Proof.
  apply earlier_sorted_unique; [apply daysOf_sorted| |].
  - apply StronglySorted_app. split; [|split; apply daysOf_sorted].
    intros [d1 t1] [d2 t2] Hx1 Hx2.
    apply daysOf_elem in Hx1 as [_ H1]. apply daysOf_elem in Hx2 as [_ H2].
    apply bool_decide_eq_true in H1, H2. unfold earlier. simpl. lia.
  - intros [d t]. rewrite elem_of_app, !daysOf_elem.
    rewrite !bool_decide_eq_true. split; [|by intros [[? _]|[? _]]].
    intros [Hm _]. destruct (decide (d < fromDate)); [left|right]; split; auto; lia.
Qed.

(** * The replay *)

Section replay_facts.
Variable user : Z.

Lemma replay_closed_open s days :
  replay user s days
  = closedBy user s days ++ openInterval user (stateAfter user s days).
Proof.
  revert s. induction days as [|day rest IH]; intros s; simpl; [done|].
  by rewrite IH, app_assoc.
Qed.

Lemma stateAfter_app s l1 l2 :
  stateAfter user s (l1 ++ l2) = stateAfter user (stateAfter user s l1) l2.
Proof. unfold stateAfter. by rewrite foldl_app. Qed.

Lemma replay_app s l1 l2 :
  replay user s (l1 ++ l2)
  = closedBy user s l1 ++ replay user (stateAfter user s l1) l2.
Proof.
  revert s. induction l1 as [|day rest IH]; intros s; simpl; [done|].
  by rewrite IH, app_assoc.
Qed.

(** One step, case by case. *)
Lemma replayDay_cases s day :
  (replayDay user s day = (s, []))
  ∨ (0 < day.2 ∧ s = NoStreak
     ∧ replayDay user s day = (Active day.1 day.1 1, []))
  ∨ (∃ a l n, 0 < day.2 ∧ s = Active a l n ∧ l = day.1 - 1
     ∧ replayDay user s day = (Active a day.1 (n + 1), []))
  ∨ (∃ a l n, 0 < day.2 ∧ s = Active a l n ∧ l < day.1 - 1
     ∧ replayDay user s day
       = (Active day.1 day.1 1, [closedInterval user a l n])).
Proof.
  unfold replayDay. case_bool_decide; [|by left].
  destruct s as [|a l n]; [right; left; done|].
  repeat case_bool_decide; try (by left).
  - right. right. left. by exists a, l, n.
  - right. right. right. by exists a, l, n.
Qed.

Lemma stateAfter_NoStreak s days :
  stateAfter user s days = NoStreak →
  s = NoStreak ∧ closedBy user s days = [].
Proof.
  revert s. induction days as [|day rest IH]; intros s; simpl; [done|].
  intros Hs. apply IH in Hs as [Hs Hc].
  destruct (replayDay_cases s day)
    as [E|[(_ & _ & E)|[(a & l & n & _ & _ & _ & E)|(a & l & n & _ & _ & _ & E)]]];
    rewrite E in Hs, Hc |- *; simpl in *; try done.
Qed.

Lemma replay_tidy bound s days :
  tidy bound s → (∀ x, x ∈ days → x.1 < bound) →
  tidy bound (stateAfter user s days)
  ∧ Forall (λ r, startDate r < bound ∧ endsBefore bound r = true)
           (closedBy user s days).
Proof.
  revert s. induction days as [|day rest IH]; intros s Hs Hdays; simpl; [done|].
  assert (day.1 < bound) as Hday by (apply Hdays; left).
  assert (∀ x, x ∈ rest → x.1 < bound) as Hrest
    by (intros x Hx; apply Hdays; by right).
  destruct (replayDay_cases s day)
    as [E|[(_ & _ & E)|[(a & l & n & _ & -> & Hl & E)|(a & l & n & _ & -> & Hl & E)]]];
    rewrite E; simpl.
  - by apply IH.
  - apply IH; [simpl; lia|done].
  - destruct Hs as (? & ? & ?). apply IH; [simpl; lia|done].
  - destruct Hs as (? & ? & ?).
    destruct (IH (Active day.1 day.1 1)) as [Ht Hc]; [simpl; lia|done|].
    split; [done|]. constructor; [|done]. simpl. split; [lia|].
    unfold endsBefore. simpl. apply bool_decide_eq_true. lia.
Qed.

Lemma replay_startsFrom fromDate s days :
  startsFrom fromDate s → (∀ x, x ∈ days → fromDate ≤ x.1) →
  Forall (λ r, fromDate ≤ startDate r) (replay user s days).
Proof.
  revert s. induction days as [|day rest IH]; intros s Hs Hdays; simpl.
  - destruct s; simpl; [constructor|]. repeat constructor. done.
  - assert (fromDate ≤ day.1) as Hday by (apply Hdays; left).
    assert (∀ x, x ∈ rest → fromDate ≤ x.1) as Hrest
      by (intros x Hx; apply Hdays; by right).
    destruct (replayDay_cases s day)
      as [E|[(_ & _ & E)|[(a & l & n & _ & -> & Hl & E)|(a & l & n & _ & -> & Hl & E)]]];
      rewrite E; simpl.
    + by apply IH.
    + by apply IH.
    + by apply IH.
    + constructor; [done|]. by apply IH.
Qed.

(** The replay from an open interval starts with that interval, from
    which the state at the entry of the window can be read back. *)
Lemma replay_head fromDate a l l' n' days :
  a ≤ l' → n' = l' - a + 1 → Z.min l' (fromDate - 1) = l →
  (∀ x, x ∈ days → fromDate ≤ x.1) →
  ∃ r rest,
    replay user (Active a l' n') days = r :: rest
    ∧ startDate r = a ∧ reconcilable r = true
    ∧ resume fromDate r = Active a l (l - a + 1)
    ∧ Forall (λ r, fromDate ≤ startDate r) rest.
Proof.
  revert l' n'. induction days as [|day rest IH]; intros l' n' Ha Hn Hmin Hdays.
  - simpl. eexists _, []. split; [done|].
    unfold reconcilable, resume, lastDay. simpl.
    repeat split; auto.
    + rewrite bool_decide_eq_true_2 by lia. done.
    + f_equal; lia.
  - assert (fromDate ≤ day.1) as Hday by (apply Hdays; left).
    assert (∀ x, x ∈ rest → fromDate ≤ x.1) as Hrest
      by (intros x Hx; apply Hdays; by right).
    simpl.
    destruct (replayDay_cases (Active a l' n') day)
      as [E|[(_ & ? & E)|[(a0 & l0 & n0 & _ & [= <- <- <-] & Hl & E)
                         |(a0 & l0 & n0 & _ & [= <- <- <-] & Hl & E)]]];
      rewrite E; simpl; try done.
    + by apply IH.
    + apply IH; auto; lia.
    + eexists _, _. split; [done|].
      unfold reconcilable, resume, lastDay. simpl.
      repeat split; auto.
      * rewrite !bool_decide_eq_true_2 by lia. done.
      * f_equal; lia.
      * apply replay_startsFrom; simpl; auto.
Qed.
End replay_facts.

Lemma filter_keep_head {A} (P : A → Prop) `{∀ x, Decision (P x)}
    (l1 : list A) (r : A) (rest : list A) :
  Forall P l1 → P r → Forall (λ x, ¬ P x) rest →
  filter P (l1 ++ r :: rest) = l1 ++ [r].
Proof.
  intros H1 Hr Hrest. rewrite filter_app, filter_cons_True by done.
  f_equal.
  - induction H1; [done|]. rewrite filter_cons_True by done. by f_equal.
  - f_equal. induction Hrest; [done|]. by rewrite filter_cons_False.
Qed.

Lemma filter_all {A} (P : A → Prop) `{∀ x, Decision (P x)} (l : list A) :
  Forall P l → filter P l = l.
Proof. induction 1; [done|]. rewrite filter_cons_True by done. by f_equal. Qed.

Lemma filter_none {A} (P : A → Prop) `{∀ x, Decision (P x)} (l : list A) :
  Forall (λ x, ¬ P x) l → filter P l = [].
Proof. induction 1; [done|]. by rewrite filter_cons_False. Qed.

(** Re-deriving the ledger from a date on gives the replay of the whole
    history. *)
Lemma rederive_full user fromDate (before old new : list (Z * Z)) :
  (∀ x, x ∈ before → x.1 < fromDate) →
  (∀ x, x ∈ old → fromDate ≤ x.1) →
  (∀ x, x ∈ new → fromDate ≤ x.1) →
  rederive user fromDate (replay user NoStreak (before ++ old)) new
           (before ++ new)
  = replay user NoStreak (before ++ new).
Proof.
  intros Hb Ho Hn. unfold rederive. rewrite !replay_app.
  destruct (replay_tidy user fromDate NoStreak before) as [Ht Hc]; [done..|].
  destruct (stateAfter user NoStreak before) as [|a l n] eqn:Hs.
  - apply stateAfter_NoStreak in Hs as [_ ->]. simpl.
    rewrite filter_none; [done|].
    eapply Forall_impl; [by apply replay_startsFrom|]. simpl. lia.
  - destruct Ht as (Hal & Hn' & Hl).
    destruct (replay_head user fromDate a l l n old)
      as (r & rest & -> & Hstart & Hrec & Hres & Hrest); auto; [lia|].
    rewrite filter_keep_head.
    + rewrite last_snoc, Hrec, removelast_last, Hres, <-Hn'.
      rewrite filter_all; [done|].
      eapply Forall_impl; [done|]. by intros r0 [_ ?].
    + eapply Forall_impl; [done|]. by intros r0 [? _].
    + lia.
    + eapply Forall_impl; [done|]. simpl. lia.
Qed.

(** * The store stays consistent *)

Lemma rederive_store (user fromDate : Z) (st : Store) (m0 : gmap (Z * Z) Z) :
  getStreakHistory st user = replay user NoStreak (daysOf m0 user (λ _, true)) →
  (∀ d, d < fromDate → m0 !! (user, d) = userDays st !! (user, d)) →
  rederive user fromDate (getStreakHistory st user)
           (daysFrom st user fromDate) (allDays st user)
  = replay user NoStreak (allDays st user).
Proof.
  intros Hledger Hagree. rewrite Hledger. unfold allDays, daysFrom.
  rewrite (daysOf_split m0 user fromDate).
  rewrite (daysOf_split (userDays st) user fromDate).
  rewrite (daysOf_ext m0 (userDays st) user
             (λ d, bool_decide (d < fromDate)) (λ d, bool_decide (d < fromDate)));
    [|done|].
  - apply rederive_full.
    + intros [d t] Hx. apply daysOf_elem in Hx as [_ Hx].
      by apply bool_decide_eq_true in Hx.
    + intros [d t] Hx. apply daysOf_elem in Hx as [_ Hx].
      by apply bool_decide_eq_true in Hx.
    + intros [d t] Hx. apply daysOf_elem in Hx as [_ Hx].
      by apply bool_decide_eq_true in Hx.
  - intros d Hd. apply bool_decide_eq_true in Hd. by apply Hagree.
Qed.

Lemma recomputeStreaks_consistent user fromDate st :
  consistent st →
  recomputeStreaks user fromDate st
  = setStreakIntervals st
      (<[user := replay user NoStreak (allDays st user)]> (streakIntervals st)).
Proof.
  intros Hc. unfold recomputeStreaks.
  by rewrite (rederive_store user fromDate st (userDays st)).
Qed.

Lemma recomputeUserDay_derive user date st :
  consistent st →
  match recomputeUserDay user date st with
  | inr st' => st'
  | inl _ => st
  end = derive user date st.
Proof.
  intros Hc. unfold recomputeUserDay, aggregate, derive.
  case_bool_decide as Hu; [|done].
  unfold recomputeStreaks.
  rewrite (rederive_store user date _ (userDays st)).
  - done.
  - apply Hc.
  - intros d Hd. simpl. rewrite lookup_insert_ne; [done|].
    intros [= E]. lia.
Qed.

Lemma allDays_other (m m' : gmap (Z * Z) Z) user :
  (∀ d, m !! (user, d) = m' !! (user, d)) →
  daysOf m user (λ _, true) = daysOf m' user (λ _, true).
Proof. intros H. by apply daysOf_ext. Qed.

Lemma derive_consistent user date st :
  consistent st → consistent (derive user date st).
Proof.
  intros Hc u. unfold derive. case_bool_decide; [|apply Hc].
  unfold getStreakHistory, allDays. simpl.
  destruct (decide (u = user)) as [->|Hne].
  - by rewrite lookup_insert_eq.
  - rewrite lookup_insert_ne by done.
    etrans; [apply Hc|]. unfold allDays. f_equal.
    apply allDays_other. intros d. rewrite lookup_insert_ne; [done|].
    intros [= E _]. done.
Qed.

Lemma recomputeStreaks_keeps_consistent user fromDate st :
  consistent st → consistent (recomputeStreaks user fromDate st).
Proof.
  intros Hc. rewrite recomputeStreaks_consistent by done.
  intros u. unfold getStreakHistory, allDays. simpl.
  destruct (decide (u = user)) as [->|Hne].
  - by rewrite lookup_insert_eq.
  - rewrite lookup_insert_ne by done. apply Hc.
Qed.

Lemma forceFullRecompute_consistent user st :
  consistent st → consistent (forceFullRecompute user st).
Proof.
  intros Hc u. unfold forceFullRecompute.
  unfold getStreakHistory, allDays. simpl.
  destruct (decide (u = user)) as [->|Hne].
  - by rewrite lookup_insert_eq.
  - rewrite lookup_insert_ne by done.
    etrans; [apply Hc|]. unfold allDays. f_equal.
    apply allDays_other. intros d.
    rewrite lookup_union_r.
    + rewrite map_lookup_filter. destruct (userDays st !! (u, d)); [|done].
      simpl. by rewrite option_guard_True.
    + apply not_elem_of_list_to_map_1. rewrite <-list_fmap_compose.
      intros Hin. apply list_elem_of_fmap in Hin as (d' & [= E _] & _). done.
Qed.

Lemma consistent_ext st st' :
  userDays st' = userDays st → streakIntervals st' = streakIntervals st →
  consistent st → consistent st'.
Proof.
  intros Hu Hs Hc u. unfold getStreakHistory, allDays. rewrite Hu, Hs. apply Hc.
Qed.

Lemma ingest_derive r t c raw st :
  consistent st →
  match ingest r t c raw st with
  | inr (st', _) => st'
  | inl _ => st
  end
  = if bool_decide (c < 0) then st
    else match calendarDate t with
         | None => st
         | Some day =>
             match trackedRepositories st !! r with
             | None => st
             | Some repo =>
                 derive (ownerUserId repo) day
                   (setRepoDays st (<[(r, day) := mkRepoDayCommitRecord c raw]>
                                      (repoDays st)))
             end
         end.
Proof.
  intros Hc. unfold ingest. case_bool_decide; [done|].
  destruct (calendarDate t) as [day|]; [|done].
  destruct (trackedRepositories st !! r) as [repo|]; [|done].
  apply recomputeUserDay_derive. by eapply consistent_ext.
Qed.

Lemma run_consistent op st : consistent st → consistent (run op st).
Proof.
  intros Hc. destruct op as [u|id repo|id t|id|r t c raw|u d|u d|u]; simpl.
  - by eapply consistent_ext.
  - destruct (trackedRepositories st !! id); [done|]. by eapply consistent_ext.
  - by eapply consistent_ext.
  - by eapply consistent_ext.
  - rewrite ingest_derive by done. case_bool_decide; [done|].
    destruct (calendarDate t); [|done].
    destruct (trackedRepositories st !! r); [|done].
    apply derive_consistent. by eapply consistent_ext.
  - rewrite recomputeUserDay_derive by done. by apply derive_consistent.
  - by apply recomputeStreaks_keeps_consistent.
  - by apply forceFullRecompute_consistent.
Qed.

Lemma empty_consistent : consistent empty.
Proof. intros u. done. Qed.

Lemma reachable_consistent st : reachable st → consistent st.
Proof.
  induction 1; [apply empty_consistent|by apply run_consistent].
Qed.

Lemma closedBy_closed user s days :
  Forall (λ r, endDate r ≠ None) (closedBy user s days).
Proof.
  revert s. induction days as [|day rest IH]; intros s; simpl; [constructor|].
  apply Forall_app. split; [|apply IH].
  destruct (replayDay_cases user s day)
    as [E|[(_ & _ & E)|[(a & l & n & _ & _ & _ & E)|(a & l & n & _ & _ & _ & E)]]];
    rewrite E; simpl; repeat constructor. done.
Qed.

Lemma closed_app_oneOpen (l1 l2 : list StreakInterval) :
  Forall (λ r, endDate r ≠ None) l1 → oneOpen l2 → oneOpen (l1 ++ l2).
Proof.
  intros Hc Ho i j r r' Hi Hj Hr Hr'. rewrite Forall_forall in Hc.
  apply lookup_app_Some in Hi as [Hi|[Hgi Hi]].
  { apply list_elem_of_lookup_2 in Hi. by destruct (Hc r Hi). }
  apply lookup_app_Some in Hj as [Hj|[Hgj Hj]].
  { apply list_elem_of_lookup_2 in Hj. by destruct (Hc r' Hj). }
  pose proof (Ho _ _ _ _ Hi Hj Hr Hr'). lia.
Qed.

Lemma openInterval_oneOpen user s : oneOpen (openInterval user s).
Proof.
  intros i j r r' Hi Hj _ _.
  apply lookup_lt_Some in Hi, Hj. destruct s; simpl in *; lia.
Qed.

Lemma replay_oneOpen user s days : oneOpen (replay user s days).
Proof.
  rewrite replay_closed_open.
  apply closed_app_oneOpen; [apply closedBy_closed|apply openInterval_oneOpen].
Qed.

(** Whatever the stored ledger is, the ledger that replaces it has at
    most one open interval. *)
Lemma rederive_oneOpen user fromDate ledger window history :
  oneOpen (rederive user fromDate ledger window history).
Proof.
  unfold rederive. destruct (last _) as [loaded|]; [|apply replay_oneOpen].
  destruct (reconcilable loaded); [|apply replay_oneOpen].
  apply closed_app_oneOpen; [|apply replay_oneOpen].
  apply Forall_forall. intros r Hr.
  apply list_elem_of_filter in Hr as [He _].
  unfold endsBefore in He. by destruct (endDate r).
Qed.

Lemma recomputeStreaks_oneOpen user fromDate st :
  (∀ u, oneOpen (getStreakHistory st u)) →
  ∀ u, oneOpen (getStreakHistory (recomputeStreaks user fromDate st) u).
Proof.
  intros H u. unfold recomputeStreaks, getStreakHistory. simpl.
  destruct (decide (u = user)) as [->|Hne].
  - rewrite lookup_insert_eq. apply rederive_oneOpen.
  - rewrite lookup_insert_ne by done. apply H.
Qed.

Lemma recomputeUserDay_oneOpen user date st :
  (∀ u, oneOpen (getStreakHistory st u)) →
  ∀ u, oneOpen (getStreakHistory
                  (match recomputeUserDay user date st with
                   | inr st' => st'
                   | inl _ => st
                   end) u).
Proof.
  intros H. unfold recomputeUserDay, aggregate. case_bool_decide; [|done].
  by apply recomputeStreaks_oneOpen.
Qed.

Lemma run_oneOpen op st :
  (∀ u, oneOpen (getStreakHistory st u)) →
  ∀ u, oneOpen (getStreakHistory (run op st) u).
Proof.
  intros H. destruct op as [u0|id repo|id t|id|r t c raw|u0 d|u0 d|u0]; simpl;
    try done.
  - by destruct (trackedRepositories st !! id).
  - unfold ingest. case_bool_decide; [done|].
    destruct (calendarDate t) as [day|]; [|done].
    destruct (trackedRepositories st !! r) as [repo|]; [|done].
    by apply recomputeUserDay_oneOpen.
  - by apply recomputeUserDay_oneOpen.
  - by apply recomputeStreaks_oneOpen.
  - intros u. unfold forceFullRecompute, getStreakHistory. simpl.
    destruct (decide (u = u0)) as [->|Hne].
    + rewrite lookup_insert_eq. apply replay_oneOpen.
    + rewrite lookup_insert_ne by done. apply H.
Qed.

(** C6: every operation keeps the property that each user's ledger holds
    at most one interval whose end date is null, from whatever store it
    starts; hence every state the system can reach has it. *)
Theorem at_most_one_active_streak :
  (∀ op st, (∀ user, oneOpen (getStreakHistory st user)) →
            ∀ user, oneOpen (getStreakHistory (run op st) user))
  ∧ (∀ st, reachable st → ∀ user, oneOpen (getStreakHistory st user)).
Proof.
  split; [apply run_oneOpen|].
  induction 1 as [|op st Hr IH]; [|by apply run_oneOpen].
  intros user i j r r' Hi. unfold getStreakHistory in Hi. simpl in Hi.
  rewrite lookup_empty in Hi. by destruct i.
Qed.

(** C2: the streak recomputation on the totals 1, 1, 1, 0, 1 of days 1
    to 5 yields the closed interval from day 1 to day 3 of length 3 and
    the active interval that starts on day 5 with length 1, and nothing
    else. *)
Theorem contiguity_example :
  getStreakHistory (recomputeStreaks 7 1 contiguityStore) 7
  = [mkStreakInterval 7 1 (Some 3) 3 false; mkStreakInterval 7 5 None 1 true].
Proof. by vm_compute. Qed.

(** * The ingestion gate *)

Lemma calendarDate_midnight day : calendarDate (midnight day) = Some day.
Proof.
  unfold calendarDate, midnight, secondsPerDay.
  rewrite bool_decide_eq_true_2 by (apply Z_mod_mult).
  f_equal. by apply Z_div_mult.
Qed.

Lemma recomputeStreaks_frame user fromDate st :
  knownUsers (recomputeStreaks user fromDate st) = knownUsers st
  ∧ trackedRepositories (recomputeStreaks user fromDate st) = trackedRepositories st
  ∧ repoDays (recomputeStreaks user fromDate st) = repoDays st
  ∧ userDays (recomputeStreaks user fromDate st) = userDays st.
Proof. done. Qed.

Lemma recomputeUserDay_frame user date st st' :
  recomputeUserDay user date st = inr st' →
  knownUsers st' = knownUsers st
  ∧ trackedRepositories st' = trackedRepositories st
  ∧ repoDays st' = repoDays st
  ∧ userDays st' = <[(user, date) := activeTotal st user date]> (userDays st).
Proof.
  unfold recomputeUserDay, aggregate. case_bool_decide; [|done].
  intros [= <-]. done.
Qed.

Lemma ingest_inr r t c raw st st' rec :
  ingest r t c raw st = inr (st', rec) →
  ∃ day repo,
    0 ≤ c ∧ calendarDate t = Some day
    ∧ trackedRepositories st !! r = Some repo
    ∧ rec = mkRepoDayCommitRecord c raw
    ∧ knownUsers st' = knownUsers st
    ∧ trackedRepositories st' = trackedRepositories st
    ∧ repoDays st' = <[(r, day) := rec]> (repoDays st)
    ∧ (userDays st' = userDays st
       ∨ ∃ total, userDays st' = <[(ownerUserId repo, day) := total]> (userDays st)).
Proof.
  unfold ingest. case_bool_decide as Hc; [done|].
  destruct (calendarDate t) as [day|]; [|done].
  destruct (trackedRepositories st !! r) as [repo|]; [|done].
  intros [= <- <-]. exists day, repo.
  repeat split; try done; try lia;
    destruct (recomputeUserDay _ _ _) as [e|st2] eqn:E;
    try apply recomputeUserDay_frame in E as (? & ? & ? & ?); try done.
  - left. done.
  - right. eauto.
Qed.

(** C7, amended: whichever of its two checks ingest makes first, it
    fails with ValidationError when the count is negative or the date is
    malformed and the repository exists, with NotFoundError when the count
    and the date are valid and the repository is unknown, and with one of
    the two when both are at fault; it fails with ValidationError only when
    the count is negative or the date is malformed, and with NotFoundError
    only when the repository is unknown; otherwise, whether the repository
    is active or not, it succeeds, returns the record and the record is
    stored. *)
Theorem ingest_outcome (order : CheckOrder) (repositoryId : Z) (date : Time)
    (cnt : Z) (raw : string) (st : Store) :
  (cnt < 0 ∨ calendarDate date = None →
   trackedRepositories st !! repositoryId ≠ None →
   ingestWith order repositoryId date cnt raw st = inl ValidationError)
  ∧ (0 ≤ cnt → calendarDate date ≠ None →
     trackedRepositories st !! repositoryId = None →
     ingestWith order repositoryId date cnt raw st = inl NotFoundError)
  ∧ (cnt < 0 ∨ calendarDate date = None →
     trackedRepositories st !! repositoryId = None →
     ingestWith order repositoryId date cnt raw st = inl ValidationError
     ∨ ingestWith order repositoryId date cnt raw st = inl NotFoundError)
  ∧ (ingestWith order repositoryId date cnt raw st = inl ValidationError →
     cnt < 0 ∨ calendarDate date = None)
  ∧ (ingestWith order repositoryId date cnt raw st = inl NotFoundError →
     trackedRepositories st !! repositoryId = None)
  ∧ (∀ day repo,
       0 ≤ cnt → calendarDate date = Some day →
       trackedRepositories st !! repositoryId = Some repo →
       ∃ st', ingestWith order repositoryId date cnt raw st
              = inr (st', mkRepoDayCommitRecord cnt raw)
              ∧ repoDays st' !! (repositoryId, day)
                = Some (mkRepoDayCommitRecord cnt raw)).
Proof.
  assert (ingest repositoryId date cnt raw st = inl ValidationError
          ↔ cnt < 0 ∨ calendarDate date = None) as Hv.
  { unfold ingest. case_bool_decide; [split; auto|].
    destruct (calendarDate date); [|split; auto].
    destruct (trackedRepositories st !! repositoryId); split; try done;
      intros [?|?]; done || lia. }
  assert (ingest repositoryId date cnt raw st = inl NotFoundError
          ↔ 0 ≤ cnt ∧ calendarDate date ≠ None
            ∧ trackedRepositories st !! repositoryId = None) as Hn.
  { unfold ingest. case_bool_decide; [split; [done|lia]|].
    destruct (calendarDate date); [|split; [done|tauto]].
    destruct (trackedRepositories st !! repositoryId); split; try done.
    - intros (_ & _ & ?). done.
    - intros _. split; [lia|]. done. }
  assert (∀ day repo,
            0 ≤ cnt → calendarDate date = Some day →
            trackedRepositories st !! repositoryId = Some repo →
            ∃ st', ingest repositoryId date cnt raw st
                   = inr (st', mkRepoDayCommitRecord cnt raw)
                   ∧ repoDays st' !! (repositoryId, day)
                     = Some (mkRepoDayCommitRecord cnt raw)) as Hok.
  { intros day repo Hc Hd Hr.
    destruct (ingest repositoryId date cnt raw st) as [e|[st' rec]] eqn:E.
    - exfalso. unfold ingest in E. rewrite Hd, Hr in E.
      by rewrite bool_decide_eq_false_2 in E by lia.
    - apply ingest_inr in E
        as (day' & repo' & _ & Hd' & _ & -> & _ & _ & Hrd & _).
      exists st'. split; [done|]. rewrite Hrd.
      assert (day' = day) as -> by congruence. apply lookup_insert_eq. }
  destruct order; simpl.
  - split_and!.
    + intros Hi _. by apply Hv.
    + intros ? ? ?. by apply Hn.
    + intros Hi _. left. by apply Hv.
    + apply Hv.
    + intros E. by apply Hn in E as (_ & _ & ?).
    + done.
  - destruct (trackedRepositories st !! repositoryId) as [repo|] eqn:Hr.
    + split_and!.
      * intros Hi _. by apply Hv.
      * done.
      * done.
      * apply Hv.
      * intros E. by apply Hn in E as (_ & _ & ?).
      * intros day repo' ? ? [= <-]. eauto.
    + split_and!; try done; auto.
Qed.

(** Both causes of failure can be present at once, and a call returns one
    result: no function at all, whatever the order of its checks, fails
    with each of the two errors exactly when that error's own cause is
    present. *)
Lemma ingest_errors_not_independent
    (f : Z → Time → Z → string → Store
         → Error + (Store * RepoDayCommitRecord)) :
  ¬ (∀ repositoryId date cnt raw st,
       (f repositoryId date cnt raw st = inl ValidationError
        ↔ cnt < 0 ∨ calendarDate date = None)
       ∧ (f repositoryId date cnt raw st = inl NotFoundError
          ↔ trackedRepositories st !! repositoryId = None)).
Proof.
  intros H. destruct (H 1 (midnight 1) (-1) "" empty) as [H1 H2].
  assert (f 1 (midnight 1) (-1) "" empty = inl ValidationError)
    as E1 by (apply H1; left; lia).
  assert (f 1 (midnight 1) (-1) "" empty = inl NotFoundError)
    as E2 by (by apply H2).
  congruence.
Qed.

(** * Repeated and reordered ingestion *)


Lemma derive_frame user date st :
  knownUsers (derive user date st) = knownUsers st
  ∧ trackedRepositories (derive user date st) = trackedRepositories st
  ∧ repoDays (derive user date st) = repoDays st.
Proof. unfold derive. by case_bool_decide. Qed.







(** The sum of a date does not see a record of another date or of a
    repository of another user. *)
Lemma activeRepositories_elem st user r :
  r ∈ activeRepositories st user ↔
  ∃ repo, trackedRepositories st !! r = Some repo
          ∧ ownerUserId repo = user ∧ deactivatedAt repo = None.
Proof.
  unfold activeRepositories. rewrite list_elem_of_fmap. split.
  - intros ([r' repo] & -> & Hin). apply elem_of_map_to_list in Hin.
    apply map_lookup_filter_Some in Hin as [Hl [Ho Ha]]. simpl in *.
    exists repo. repeat split; auto.
    unfold isActive in Ha. by apply bool_decide_eq_true in Ha.
  - intros (repo & Hl & Ho & Ha). exists (r, repo). split; [done|].
    apply elem_of_map_to_list. apply map_lookup_filter_Some. split; [done|].
    simpl. split; [done|]. unfold isActive. by apply bool_decide_eq_true.
Qed.

Lemma activeTotal_insert_other st user date r day rec repo :
  trackedRepositories st !! r = Some repo →
  (ownerUserId repo, day) ≠ (user, date) →
  activeTotal (setRepoDays st (<[(r, day) := rec]> (repoDays st))) user date
  = activeTotal st user date.
Proof.
  intros Hr Hne. unfold activeTotal. f_equal.
  change (activeRepositories (setRepoDays st _) user)
    with (activeRepositories st user).
  apply list_fmap_ext. intros i r' Hin.
  apply list_elem_of_lookup_2, activeRepositories_elem in Hin
    as (repo' & Hr' & Ho & _).
  unfold countOn. simpl. rewrite lookup_insert_ne; [done|].
  intros [= -> ->]. apply Hne. congruence.
Qed.

Lemma store_eq st st' :
  knownUsers st = knownUsers st' →
  trackedRepositories st = trackedRepositories st' →
  repoDays st = repoDays st' → userDays st = userDays st' →
  streakIntervals st = streakIntervals st' → st = st'.
Proof. destruct st, st'. simpl. by intros -> -> -> -> ->. Qed.

Lemma run_ingested o st : consistent st → run (ingestOp o) st = ingested o st.
Proof. intros Hc. unfold ingestOp, ingested. simpl. by apply ingest_derive. Qed.

Lemma activeTotal_ext st st' user date :
  trackedRepositories st = trackedRepositories st' →
  repoDays st = repoDays st' →
  activeTotal st user date = activeTotal st' user date.
Proof.
  intros H1 H2. unfold activeTotal, activeRepositories, countOn.
  by rewrite H1, H2.
Qed.

Lemma derive_unfold user date st :
  user ∈ knownUsers st →
  derive user date st
  = mkStore (knownUsers st) (trackedRepositories st) (repoDays st)
      (<[(user, date) := activeTotal st user date]> (userDays st))
      (<[user := replay user NoStreak
                   (daysOf (<[(user, date) := activeTotal st user date]>
                              (userDays st)) user (λ _, true))]>
         (streakIntervals st)).
Proof. intros H. unfold derive. by rewrite bool_decide_eq_true_2. Qed.

Lemma derive_unknown user date st :
  user ∉ knownUsers st → derive user date st = st.
Proof. intros H. unfold derive. by rewrite bool_decide_eq_false_2. Qed.

Lemma daysOf_insert_other (m : gmap (Z * Z) Z) user user' date total keep :
  user' ≠ user →
  daysOf (<[(user', date) := total]> m) user keep = daysOf m user keep.
Proof.
  intros Hne. apply daysOf_ext; [done|]. intros d _.
  rewrite lookup_insert_ne; [done|]. intros [= ? ?]. done.
Qed.

Lemma derive_commute st r1 day1 rec1 repo1 r2 day2 rec2 repo2 :
  trackedRepositories st !! r1 = Some repo1 →
  trackedRepositories st !! r2 = Some repo2 →
  (r1, day1) ≠ (r2, day2) →
  derive (ownerUserId repo2) day2
    (addRecord (derive (ownerUserId repo1) day1 (addRecord st (r1, day1) rec1))
               (r2, day2) rec2)
  = derive (ownerUserId repo1) day1
      (addRecord (derive (ownerUserId repo2) day2 (addRecord st (r2, day2) rec2))
                 (r1, day1) rec1).
Proof.
  intros Hr1 Hr2 Hne.
  set (u1 := ownerUserId repo1). set (u2 := ownerUserId repo2).
  set (final := addRecord (addRecord st (r1, day1) rec1) (r2, day2) rec2).
  assert (repoDays (addRecord (addRecord st (r2, day2) rec2) (r1, day1) rec1)
          = repoDays final) as Hrd.
  { simpl. by apply insert_insert_ne. }
  assert (∀ u d, (u2, day2) ≠ (u, d) →
            activeTotal (addRecord st (r1, day1) rec1) u d = activeTotal final u d)
    as Hskip2.
  { intros u d Hud. symmetry. by eapply activeTotal_insert_other. }
  assert (∀ u d, (u1, day1) ≠ (u, d) →
            activeTotal (addRecord st (r2, day2) rec2) u d = activeTotal final u d)
    as Hskip1.
  { intros u d Hud.
    rewrite <-(activeTotal_ext
                 (addRecord (addRecord st (r2, day2) rec2) (r1, day1) rec1) final)
      by done.
    symmetry. by eapply activeTotal_insert_other. }
  destruct (decide (u1 ∈ knownUsers st)) as [K1|K1];
    destruct (decide (u2 ∈ knownUsers st)) as [K2|K2].
  - rewrite (derive_unfold u1 day1 (addRecord st _ _)) by done.
    rewrite (derive_unfold u2 day2 (addRecord st _ _)) by done.
    rewrite !derive_unfold by done. simpl.
    rewrite (activeTotal_ext _ final u2 day2) by done.
    rewrite (activeTotal_ext
               (addRecord (mkStore _ _ _ _ _) (r1, day1) rec1) final u1 day1)
      by (unfold final; simpl; first [done | by apply insert_insert_ne]).
    destruct (decide ((u1, day1) = (u2, day2))) as [E|Hk].
    + injection E as E1 E2. rewrite E1, E2. rewrite !insert_insert_eq.
      f_equal. apply insert_insert_ne. congruence.
    + rewrite (Hskip2 u1 day1) by (intros E; by apply Hk).
      rewrite (Hskip1 u2 day2) by done.
      assert (<[(u2, day2) := activeTotal final u2 day2]>
                (<[(u1, day1) := activeTotal final u1 day1]> (userDays st))
              = <[(u1, day1) := activeTotal final u1 day1]>
                  (<[(u2, day2) := activeTotal final u2 day2]> (userDays st)))
        as HU by (by apply insert_insert_ne).
      f_equal; [apply insert_insert_ne; congruence|done|].
      rewrite HU.
      destruct (decide (u1 = u2)) as [Eu|Hu].
      * rewrite Eu. by rewrite !insert_insert_eq.
      * rewrite (daysOf_insert_other _ u2 u1) by done.
        rewrite <-HU. rewrite (daysOf_insert_other _ u1 u2) by congruence.
        apply insert_insert_ne. congruence.
  - rewrite (derive_unfold u1 day1 (addRecord st _ _)) by done.
    rewrite (derive_unknown u2 day2 (addRecord st _ _)) by done.
    rewrite (derive_unknown u2 day2) by done.
    rewrite (derive_unfold u1 day1) by done. simpl.
    rewrite (Hskip2 u1 day1) by (intros [= E _]; by rewrite E in K2).
    rewrite (activeTotal_ext
               (addRecord (addRecord st (r2, day2) rec2) (r1, day1) rec1)
               final u1 day1) by done.
    unfold addRecord, setRepoDays. simpl. f_equal.
    apply insert_insert_ne. congruence.
  - rewrite (derive_unknown u1 day1 (addRecord st _ _)) by done.
    rewrite (derive_unfold u2 day2 (addRecord st _ _)) by done.
    rewrite (derive_unknown u1 day1) by done.
    rewrite (derive_unfold u2 day2) by done. simpl.
    rewrite (Hskip1 u2 day2) by (intros [= E _]; by rewrite E in K1).
    rewrite (activeTotal_ext _ final u2 day2) by done.
    unfold addRecord, setRepoDays. simpl. f_equal.
    apply insert_insert_ne. congruence.
  - rewrite (derive_unknown u1 day1 (addRecord st _ _)) by done.
    rewrite (derive_unknown u2 day2 (addRecord st _ _)) by done.
    rewrite !derive_unknown by done.
    unfold addRecord, setRepoDays. simpl. f_equal.
    apply insert_insert_ne. congruence.
Qed.

Lemma calendarDate_inv t day : calendarDate t = Some day → t = midnight day.
Proof.
  unfold calendarDate, midnight, secondsPerDay. case_bool_decide as Hm; [|done].
  intros [= <-]. rewrite Z.mul_comm. by apply Z.div_exact.
Qed.

Lemma ingested_frame o st :
  knownUsers (ingested o st) = knownUsers st
  ∧ trackedRepositories (ingested o st) = trackedRepositories st.
Proof.
  unfold ingested. case_bool_decide; [done|].
  destruct (calendarDate _); [|done].
  destruct (trackedRepositories st !! _); [|done].
  destruct (derive_frame (ownerUserId t) z
              (addRecord st (obs_repositoryId o, z)
                 (mkRepoDayCommitRecord (obs_count o) (obs_rawPayload o))))
    as (-> & -> & _). done.
Qed.

Lemma ingested_commute o1 o2 st :
  obs_key o1 ≠ obs_key o2 →
  ingested o2 (ingested o1 st) = ingested o1 (ingested o2 st).
Proof.
  intros Hk.
  assert (∀ o st', trackedRepositories st' = trackedRepositories st →
            ingested o st'
            = if bool_decide (obs_count o < 0) then st'
              else match calendarDate (obs_date o) with
                   | None => st'
                   | Some day =>
                       match trackedRepositories st !! obs_repositoryId o with
                       | None => st'
                       | Some repo =>
                           derive (ownerUserId repo) day
                             (addRecord st' (obs_repositoryId o, day)
                                (mkRepoDayCommitRecord (obs_count o)
                                   (obs_rawPayload o)))
                       end
                   end) as Hun.
  { intros o st' E. unfold ingested. by rewrite E. }
  rewrite (Hun o2 (ingested o1 st)) by apply ingested_frame.
  rewrite (Hun o1 (ingested o2 st)) by apply ingested_frame.
  rewrite (Hun o1 st), (Hun o2 st) by done.
  destruct (bool_decide (obs_count o1 < 0)); [done|].
  destruct (bool_decide (obs_count o2 < 0)); [done|].
  destruct (calendarDate (obs_date o1)) as [day1|] eqn:Hd1; [|done].
  destruct (calendarDate (obs_date o2)) as [day2|] eqn:Hd2; [|done].
  destruct (trackedRepositories st !! obs_repositoryId o1) as [repo1|] eqn:Hr1;
    [|done].
  destruct (trackedRepositories st !! obs_repositoryId o2) as [repo2|] eqn:Hr2;
    [|done].
  apply derive_commute; try done.
  intros [= Er Ed]. apply Hk. unfold obs_key.
  apply calendarDate_inv in Hd1, Hd2. congruence.
Qed.

Lemma runAll_cons op ops st : runAll (op :: ops) st = runAll ops (run op st).
Proof. done. Qed.

Lemma runAll_consistent ops st : consistent st → consistent (runAll ops st).
Proof.
  revert st. induction ops as [|op ops IH]; intros st Hc; [done|].
  rewrite runAll_cons. by apply IH, run_consistent.
Qed.

Lemma ingest_order st (l1 l2 : list Observation) :
  consistent st → l1 ≡ₚ l2 → NoDup (obs_key <$> l1) →
  runAll (ingestOp <$> l1) st = runAll (ingestOp <$> l2) st.
Proof.
  intros Hc Hp. revert st Hc.
  induction Hp as [|x l l' Hp IH|x y l|l l' l'' Hp1 IH1 Hp2 IH2];
    intros st Hc Hnd.
  - done.
  - rewrite !fmap_cons, !runAll_cons. rewrite fmap_cons in Hnd.
    apply NoDup_cons in Hnd as [_ Hnd]. by apply IH; [apply run_consistent|].
  - rewrite !fmap_cons, !runAll_cons. rewrite !fmap_cons in Hnd.
    apply NoDup_cons in Hnd as [Hy _].
    pose proof (run_consistent (ingestOp x) st Hc) as Hx.
    pose proof (run_consistent (ingestOp y) st Hc) as Hy'.
    rewrite (run_ingested x st Hc) in *. rewrite (run_ingested y st Hc) in *.
    rewrite (run_ingested x _ Hy'), (run_ingested y _ Hx).
    f_equal. apply ingested_commute. intros E. apply Hy. rewrite E. left.
  - rewrite IH1 by done. apply IH2; [done|]. by rewrite <-Hp1.
Qed.

(** C4, amended: from every reachable state, two orders of the same
    observations, no two of which are about the same repository and date,
    end in the same daily totals and the same intervals. *)
Theorem ingestion_order_independent st (l1 l2 : list Observation) :
  reachable st → l1 ≡ₚ l2 → NoDup (obs_key <$> l1) →
  userDays (runAll (ingestOp <$> l1) st) = userDays (runAll (ingestOp <$> l2) st)
  ∧ streakIntervals (runAll (ingestOp <$> l1) st)
    = streakIntervals (runAll (ingestOp <$> l2) st).
Proof.
  intros Hr%reachable_consistent Hp Hnd.
  by rewrite (ingest_order st l1 l2).
Qed.


(** * The stored total and the most recent recomputation *)

Lemma keepsOwners_refl st : keepsOwners st st.
Proof. intros r repo Hr. eauto. Qed.

Lemma keepsOwners_same st0 st st' :
  trackedRepositories st' = trackedRepositories st →
  keepsOwners st0 st → keepsOwners st0 st'.
Proof. intros E H r repo Hr. rewrite E. by apply H. Qed.

Lemma ingest_repositories r t c raw st :
  trackedRepositories (match ingest r t c raw st with
                       | inr (st', _) => st'
                       | inl _ => st
                       end) = trackedRepositories st.
Proof.
  destruct (ingest r t c raw st) as [e|[st' rec]] eqn:E; [done|].
  by apply ingest_inr in E as (? & ? & _ & _ & _ & _ & _ & ? & _).
Qed.

Lemma recomputeUserDay_repositories user date st :
  trackedRepositories (match recomputeUserDay user date st with
                       | inr st' => st'
                       | inl _ => st
                       end) = trackedRepositories st.
Proof.
  destruct (recomputeUserDay user date st) as [e|st'] eqn:E; [done|].
  by apply recomputeUserDay_frame in E as (_ & ? & _).
Qed.

Lemma run_keepsOwners st0 op st : keepsOwners st0 st → keepsOwners st0 (run op st).
Proof.
  intros H. destruct op as [u|id repo|id t|id|r t c raw|u d|u d|u]; simpl.
  - by eapply keepsOwners_same.
  - destruct (trackedRepositories st !! id) eqn:Hid; [done|].
    intros r repo0 Hr. destruct (H r repo0 Hr) as (repo' & Hr' & Ho).
    exists repo'. split; [|done]. simpl. rewrite lookup_insert_ne; [done|].
    intros ->. congruence.
  - intros r repo0 Hr. destruct (H r repo0 Hr) as (repo' & Hr' & Ho). simpl.
    destruct (decide (id = r)) as [->|Hne].
    + rewrite lookup_alter_eq, Hr'. simpl. eauto.
    + rewrite lookup_alter_ne by done. eauto.
  - intros r repo0 Hr. destruct (H r repo0 Hr) as (repo' & Hr' & Ho). simpl.
    destruct (decide (id = r)) as [->|Hne].
    + rewrite lookup_alter_eq, Hr'. simpl. eauto.
    + rewrite lookup_alter_ne by done. eauto.
  - eapply keepsOwners_same; [apply ingest_repositories|done].
  - eapply keepsOwners_same; [apply recomputeUserDay_repositories|done].
  - by eapply keepsOwners_same.
  - by eapply keepsOwners_same.
Qed.

Lemma run_frame_day st0 user date op st :
  keepsOwners st0 st → mayRecompute st0 user date op = false →
  userDays (run op st) !! (user, date) = userDays st !! (user, date).
Proof.
  intros Hk Hm. destruct op as [u|id repo|id t|id|r t c raw|u d|u d|u]; simpl.
  - done.
  - by destruct (trackedRepositories st !! id).
  - done.
  - done.
  - destruct (ingest r t c raw st) as [e|[st' rec]] eqn:E; [done|].
    apply ingest_inr in E
      as (day & repo & _ & Hd & Hr & _ & _ & _ & _ & [->|[total ->]]); [done|].
    rewrite lookup_insert_ne; [done|]. intros [= Ho ->].
    simpl in Hm. rewrite (bool_decide_eq_true_2 _ Hd) in Hm. simpl in Hm.
    destruct (trackedRepositories st0 !! r) as [repo0|] eqn:Hr0; [|done].
    destruct (Hk r repo0 Hr0) as (repo' & Hr' & Ho').
    apply bool_decide_eq_false in Hm. congruence.
  - destruct (recomputeUserDay u d st) as [e|st'] eqn:E; [done|].
    apply recomputeUserDay_frame in E as (_ & _ & _ & ->).
    rewrite lookup_insert_ne; [done|]. intros [= -> ->].
    simpl in Hm. apply bool_decide_eq_false in Hm. by apply Hm.
  - done.
  - simpl in Hm. apply bool_decide_eq_false in Hm.
    rewrite lookup_union_r.
    + rewrite map_lookup_filter. destruct (userDays st !! (user, date)); [|done].
      simpl. rewrite option_guard_True; [done|]. simpl. congruence.
    + apply not_elem_of_list_to_map_1. rewrite <-list_fmap_compose.
      intros Hin. apply list_elem_of_fmap in Hin as (d' & [= E _] & _). done.
Qed.

Lemma runAll_frame_day st0 user date ops st :
  keepsOwners st0 st →
  Forall (λ op, mayRecompute st0 user date op = false) ops →
  userDays (runAll ops st) !! (user, date) = userDays st !! (user, date).
Proof.
  intros Hk Hops. revert st Hk.
  induction Hops as [|op ops Hop Hops IH]; intros st Hk; [done|].
  rewrite runAll_cons, IH by (by apply run_keepsOwners).
  by eapply run_frame_day.
Qed.

(** A full recomputation writes the same sum for every date on which a
    repository of the user has a record. *)
Lemma forceFullRecompute_total st user date ops :
  date ∈ recordedDates st user →
  Forall (λ op, mayRecompute st user date op = false) ops →
  getUserDayTotal (runAll ops (forceFullRecompute user st)) user date
  = Some (activeTotal st user date).
Proof.
  intros Hd Hops. unfold getUserDayTotal.
  rewrite (runAll_frame_day st user date ops (forceFullRecompute user st));
    [|by eapply (keepsOwners_same st st), keepsOwners_refl|done].
  unfold forceFullRecompute. simpl. apply lookup_union_Some_l.
  apply elem_of_list_to_map_1'.
  - intros y Hy. apply list_elem_of_fmap in Hy as (d & [= -> ->] & _). done.
  - apply list_elem_of_fmap. by exists date.
Qed.



(** * The user repository: Upsert on an existing user *)

(** C9, amended: when a row with the GitHub user id of the call exists,
    the table after Upsert is the table before with that row replaced by a
    row of the same id, GitHub user id and creation time, and no row is
    added; the replacing row is the old one (the call failed) or carries
    the username, the email and the DeletedAt of the call and the current
    time as its update time. *)
Theorem Upsert_existing now user d existing :
  users_ok d → existing ∈ users d →
  User.GitHubUserID existing = User.GitHubUserID user →
  ∃ r', users (repository.Upsert now user d).1
          = (λ r, if decide (r = existing) then r' else r) <$> users d
        ∧ User.ID r' = User.ID existing
        ∧ User.GitHubUserID r' = User.GitHubUserID existing
        ∧ User.CreatedAt r' = User.CreatedAt existing
        ∧ (r' = existing
           ∨ (User.GitHubUsername r' = User.GitHubUsername user
              ∧ User.Email r' = User.Email user
              ∧ User.UpdatedAt r' = now
              ∧ User.DeletedAt r' = User.DeletedAt user)).
Proof. apply Upsert_row_replaced. Qed.

(** * Worked instances *)

(** ** The storage layer *)

Lemma fresh_db_ok : db_ok db.fresh.
Proof. intros ix Hin. inversion Hin. Defined.

Lemma fresh_names_free : names_free db.fresh.
Proof. intros ix ix' Hin. inversion Hin. Defined.

Lemma oneUser_ok : users_ok oneUser.
Proof.
  repeat split; try (by vm_compute);
    apply (bool_decide_unpack _); by vm_compute.
Defined.

Example oneUser_rows : users oneUser = [aliceStored].
Proof. by vm_compute. Qed.

(** A second row for the same repository and date is refused. *)
Example duplicate_refused :
  repo_daily_commit_logs (execAll someStatements migrated) = [firstLog].
Proof. by vm_compute. Qed.

Lemma unique_keys_enforced_witness :
  one_per_repo_date (execAll someStatements migrated)
  ∧ one_per_user_date (execAll someStatements migrated).
Proof.
  apply (unique_keys_enforced db.fresh migrated someStatements).
  - exact fresh_db_ok.
  - exact fresh_names_free.
  - by vm_compute.
Defined.

(** A user saved with a repository in its slice: the repository is
    written after the row of the user. *)
Example repository_saved_with_user :
  after_call (CallUpsert 200 aliceRenamed) aliceAssociations oneUser
    (execAll saveRepositories (repository.Upsert 200 aliceRenamed oneUser).1)
  ∧ user_repositories
      (execAll saveRepositories (repository.Upsert 200 aliceRenamed oneUser).1)
    = [UserRepository.mk 1 1 "alice" "town" true None 100 100].
Proof.
  split; [|by vm_compute].
  apply (associations_saved (CallUpsert 200 aliceRenamed)); [done|].
  repeat constructor.
Qed.

Lemma user_identity_and_retention_witness :
  (∀ c a d', after_call c a oneUser d' →
     rows_kept oneUser d'
     ∧ (a = no_associations → same_history oneUser d'))
  ∧ (∀ now user a d' r,
       after_call (CallUpsert now user) a oneUser d' → r ∈ users oneUser →
       ∃ r', r' ∈ users d'
             ∧ User.ID r' = User.ID r
             ∧ User.GitHubUserID r' = User.GitHubUserID r
             ∧ (User.GitHubUserID r ≠ User.GitHubUserID user → r' = r))
  ∧ (∀ g r d', repository.FindByGitHubUserID g oneUser = (d', inr r) →
       d' = oneUser ∧ User.GitHubUserID r = g ∧ User.DeletedAt r = None).
Proof. apply (user_identity_and_retention oneUser). exact oneUser_ok. Defined.

Lemma Upsert_existing_witness :
  ∃ r', users (repository.Upsert 200 aliceRenamed oneUser).1
          = (λ r, if decide (r = aliceStored) then r' else r) <$> users oneUser
        ∧ User.ID r' = User.ID aliceStored
        ∧ User.GitHubUserID r' = User.GitHubUserID aliceStored
        ∧ User.CreatedAt r' = User.CreatedAt aliceStored
        ∧ (r' = aliceStored
           ∨ (User.GitHubUsername r' = User.GitHubUsername aliceRenamed
              ∧ User.Email r' = User.Email aliceRenamed
              ∧ User.UpdatedAt r' = 200
              ∧ User.DeletedAt r' = User.DeletedAt aliceRenamed)).
Proof.
  apply (Upsert_existing 200 aliceRenamed oneUser aliceStored).
  - exact oneUser_ok.
  - apply (bool_decide_unpack _). by vm_compute.
  - reflexivity.
Defined.

Example Upsert_renames :
  users (repository.Upsert 200 aliceRenamed oneUser).1
  = [User.mk 1 42 "alice-renamed" "alice@example.org" 100 200 None].
Proof. by vm_compute. Qed.

(** Upsert writes the DeletedAt of the struct it is given: the stored
    row of an existing user changes in a column other than the username,
    the email and the update time. *)
Lemma Upsert_writes_DeletedAt :
  users oneUser = [aliceStored]
  ∧ User.GitHubUserID aliceStored = User.GitHubUserID aliceRetired
  ∧ users (repository.Upsert 200 aliceRetired oneUser).1
    = [User.mk 1 42 "alice" "alice@example.org" 100 200 (Some 150)]
  ∧ User.DeletedAt aliceStored
    ≠ User.DeletedAt (User.mk 1 42 "alice" "alice@example.org" 100 200 (Some 150)).
Proof. repeat split; by vm_compute. Qed.

Lemma UpsertUser_rejects_witness :
  ∃ msg, controller.UpsertUser (usecase.UpsertUser (λ _, "") 200)
           (Some (dto.mkUpsertUserRequest 0 "alice" "")) oneUser
         = (oneUser, controller.mkResponse controller.StatusBadRequest
                       (controller.ErrorBody msg)).
Proof.
  apply (UpsertUser_rejects (usecase.UpsertUser (λ _, "") 200)
           (dto.mkUpsertUserRequest 0 "alice" "") oneUser).
  left. reflexivity.
Defined.

Example postUsers_accepts :
  (postUsers (λ _, "t") 200 (Some (dto.mkUpsertUserRequest 42 "alice-renamed" ""))
     oneUser).2
  = controller.mkResponse controller.StatusOK
      (controller.UserBody (dto.mkUserResponse 1 42 "alice-renamed" "" "t" "t")).
Proof. by vm_compute. Qed.

(** ** The engine *)

Lemma dayFive_reachable : reachable dayFive.
Proof. repeat apply reachable_run. apply reachable_empty. Defined.


(** The deactivation example: the total of day 5 is 2 until the day is
    recomputed after a repository was deactivated, and 1 afterwards. *)
Example deactivation_example :
  getUserDayTotal dayFive 7 5 = Some 2
  ∧ getUserDayTotal (run (DeactivateRepository 2 1000) dayFive) 7 5 = Some 2
  ∧ getUserDayTotal
      (runAll [DeactivateRepository 2 1000; RecomputeUserDay 7 5] dayFive) 7 5
    = Some 1.
Proof. by vm_compute. Qed.

(** The backfill example: once day 4 has a total of 2, the two intervals
    of the contiguity example merge into one. *)
Example backfill_merge_example :
  getStreakHistory
    (recomputeStreaks 7 4
       (setUserDays (recomputeStreaks 7 1 contiguityStore)
          (<[(7, 4) := 2]> (userDays contiguityStore)))) 7
  = [mkStreakInterval 7 1 None 5 true].
Proof. by vm_compute. Qed.


Lemma ingestion_order_independent_witness :
  userDays (runAll (ingestOp <$> [obsA; obsB; obsC]) dayFive)
  = userDays (runAll (ingestOp <$> [obsC; obsA; obsB]) dayFive)
  ∧ streakIntervals (runAll (ingestOp <$> [obsA; obsB; obsC]) dayFive)
    = streakIntervals (runAll (ingestOp <$> [obsC; obsA; obsB]) dayFive).
Proof.
  apply (ingestion_order_independent dayFive [obsA; obsB; obsC]
           [obsC; obsA; obsB]).
  - exact dayFive_reachable.
  - apply (Permutation_app_comm [obsA; obsB] [obsC]).
  - apply (bool_decide_unpack _). by vm_compute.
Defined.

(** Two observations of the same repository and date do not commute:
    the later one decides the total and with it the intervals. *)
Lemma ingestion_order_matters :
  [obsOne; obsZero] ≡ₚ [obsZero; obsOne]
  ∧ getUserDayTotal (runAll (ingestOp <$> [obsOne; obsZero]) twoRepos) 7 1
    = Some 0
  ∧ getUserDayTotal (runAll (ingestOp <$> [obsZero; obsOne]) twoRepos) 7 1
    = Some 1
  ∧ getStreakHistory (runAll (ingestOp <$> [obsOne; obsZero]) twoRepos) 7 = []
  ∧ getStreakHistory (runAll (ingestOp <$> [obsZero; obsOne]) twoRepos) 7
    = [mkStreakInterval 7 1 None 1 true].
Proof. split; [apply perm_swap|]. by vm_compute. Qed.

(** An ingestion with a negative count for a repository that does not
    exist: whichever check comes first, the failures are not as the claim
    words them, since one of its two errors is due and not returned. *)
Lemma ingest_errors_overlap :
  ¬ failures_as_claimed ValidationFirst 1 (midnight 1) (-1) "" empty
  ∧ ¬ failures_as_claimed LookupFirst 1 (midnight 1) (-1) "" empty.
Proof.
  split; intros [H1 H2].
  - assert (ingestWith ValidationFirst 1 (midnight 1) (-1) "" empty
            = inl NotFoundError) as E by (by apply H2).
    by vm_compute in E.
  - assert (ingestWith LookupFirst 1 (midnight 1) (-1) "" empty
            = inl ValidationError) as E by (apply H1; left; lia).
    by vm_compute in E.
Qed.

Example ingest_double_fault :
  ingestWith ValidationFirst 1 (midnight 1) (-1) "" empty = inl ValidationError
  ∧ ingestWith LookupFirst 1 (midnight 1) (-1) "" empty = inl NotFoundError.
Proof. split; by vm_compute. Qed.

Lemma at_most_one_active_streak_witness :
  getStreakHistory busyWeek 7 !! 1%nat = Some (mkStreakInterval 7 8 None 1 true)
  ∧ oneOpen (getStreakHistory busyWeek 7).
Proof.
  split; [by vm_compute|].
  apply (proj2 at_most_one_active_streak busyWeek).
  repeat apply reachable_run. apply reachable_empty.
Defined.

Example two_intervals_one_active :
  getStreakHistory busyWeek 7
  = [mkStreakInterval 7 5 (Some 6) 2 false; mkStreakInterval 7 8 None 1 true].
Proof. by vm_compute. Qed.

(** * Theorems: regular expressions *)

Section regexp_facts.
Import regexp.

Lemma nullable_spec r : nullable r = true ↔ Matches r [].
Proof.
  induction r as [| | c|cc|r1 IH1 r2 IH2|r1 IH1 r2 IH2|r IH]; simpl.
  - split; [done|]. inversion 1.
  - split; [constructor|done].
  - split; [done|]. inversion 1.
  - split; [done|]. inversion 1.
  - rewrite andb_true_iff, IH1, IH2. split.
    + intros [H1 H2]. apply (MConcat r1 r2 [] [] H1 H2).
    + inversion 1 as [| | |? ? s1 s2 H1 H2 E1 E2| | | |]; subst.
      apply app_eq_nil in E2 as [-> ->]. done.
  - rewrite orb_true_iff, IH1, IH2. split.
    + intros [H|H]; [by apply MAltL|by apply MAltR].
    + inversion 1; subst; auto.
  - split; [constructor|done].
Qed.

Lemma Matches_star_cons r c s :
  Matches (Star r) (c :: s) →
  ∃ s1 s2, s = s1 ++ s2 ∧ Matches r (c :: s1) ∧ Matches (Star r) s2.
Proof.
  intros H. remember (Star r) as r' eqn:Er. remember (c :: s) as s' eqn:Es.
  revert s Es. induction H as [| | | | | | |r0 s1 s2 H1 _ H2 IH2];
    intros t Es; try discriminate.
  injection Er as ->. destruct s1 as [|c1 s1]; simpl in Es.
  - by apply IH2.
  - injection Es as -> <-. eauto.
Qed.

Lemma deriv_spec c r s : Matches (deriv c r) s ↔ Matches r (c :: s).
Proof.
  revert s.
  induction r as [| | c'|cc|r1 IH1 r2 IH2|r1 IH1 r2 IH2|r IH]; intros s; simpl.
  - split; inversion 1.
  - split; inversion 1.
  - case_decide as E.
    + subst. split; inversion 1; subst; constructor.
    + split; inversion 1; subst; done.
  - destruct (inClass cc c) eqn:E.
    + split; inversion 1; subst; by constructor.
    + split; inversion 1; subst; congruence.
  - assert (Matches (Concat (deriv c r1) r2) s →
            Matches (Concat r1 r2) (c :: s)) as Hl.
    { inversion 1 as [| | |? ? s1 s2 H1 H2| | | |]; subst.
      apply IH1 in H1. apply (MConcat r1 r2 (c :: s1) s2 H1 H2). }
    destruct (nullable r1) eqn:En.
    + split.
      * inversion 1; subst; [by apply Hl|].
        apply (MConcat r1 r2 [] (c :: s)); [by apply nullable_spec|by apply IH2].
      * inversion 1 as [| | |? ? s1 s2 H1 H2 E1 E2| | | |]; subst.
        destruct s1 as [|c1 s1]; simpl in E2.
        -- subst. apply MAltR. by apply IH2.
        -- injection E2 as -> <-. apply MAltL. constructor; [by apply IH1|done].
    + split; [done|].
      inversion 1 as [| | |? ? s1 s2 H1 H2 E1 E2| | | |]; subst.
      destruct s1 as [|c1 s1]; simpl in E2.
      * apply nullable_spec in H1. congruence.
      * injection E2 as -> <-. constructor; [by apply IH1|done].
  - split.
    + inversion 1; subst; [apply MAltL; by apply IH1|apply MAltR; by apply IH2].
    + inversion 1; subst; [apply MAltL; by apply IH1|apply MAltR; by apply IH2].
  - split.
    + inversion 1 as [| | |? ? s1 s2 H1 H2| | | |]; subst.
      apply IH in H1. apply (MStarApp r (c :: s1) s2 H1 H2).
    + intros (s1 & s2 & -> & H1 & H2)%Matches_star_cons.
      constructor; [by apply IH|done].
Qed.

Lemma fullMatch_spec r s : fullMatch r s = true ↔ Matches r s.
Proof.
  revert r. induction s as [|c s IH]; intros r; simpl.
  - apply nullable_spec.
  - by rewrite IH, deriv_spec.
Qed.

Lemma Matches_empty s : Matches EmptyMatch s ↔ s = [].
Proof. split; [by inversion 1|intros ->; constructor]. Qed.

Lemma Matches_literal c s : Matches (Literal c) s ↔ s = [c].
Proof. split; [by inversion 1|intros ->; constructor]. Qed.

Lemma Matches_concat r1 r2 s :
  Matches (Concat r1 r2) s ↔
  ∃ s1 s2, s = s1 ++ s2 ∧ Matches r1 s1 ∧ Matches r2 s2.
Proof.
  split.
  - inversion 1; subst; eauto.
  - intros (s1 & s2 & -> & H1 & H2). by constructor.
Qed.

Lemma Matches_star_class cc s :
  Matches (Star (OneOf cc)) s ↔ Forall (λ c, inClass cc c = true) s.
Proof.
  split.
  - intros H. remember (Star (OneOf cc)) as r eqn:Er.
    induction H as [| | | | | | |r0 s1 s2 H1 _ H2 IH2]; try discriminate.
    + constructor.
    + injection Er as ->. inversion H1; subst. simpl. constructor; auto.
  - induction 1 as [|c s Hc _ IH]; [constructor|].
    apply (MStarApp _ [c] s); [by constructor|done].
Qed.

Lemma Matches_repeat_class n cc s :
  Matches (RepeatMin n (OneOf cc)) s ↔
  (n ≤ List.length s)%nat ∧ Forall (λ c, inClass cc c = true) s.
Proof.
  revert s. induction n as [|n IH]; intros s; simpl.
  - rewrite Matches_star_class. split; [split; [lia|done]|by intros [_ ?]].
  - rewrite Matches_concat. split.
    + intros (s1 & s2 & -> & H1 & H2). apply IH in H2 as [Hn Hall].
      inversion H1; subst. simpl. split; [lia|]. by constructor.
    + intros [Hn Hall]. destruct s as [|c s]; simpl in Hn; [lia|].
      inversion Hall; subst. exists [c], s. split; [done|].
      split; [by constructor|]. apply IH. split; [lia|done].
Qed.

Lemma Matches_plus_class cc s :
  Matches (Plus (OneOf cc)) s ↔
  s ≠ [] ∧ Forall (λ c, inClass cc c = true) s.
Proof.
  rewrite (Matches_repeat_class 1 cc s).
  destruct s; simpl; split; intros [? ?]; split; first [done | lia].
Qed.

Lemma MatchString_anchored r s :
  MatchString (mkPattern true true r) s = true
  ↔ Matches r (String.list_ascii_of_string s).
Proof.
  unfold MatchString. simpl. rewrite fullMatch_spec, Matches_concat. split.
  - intros (s1 & s2 & -> & ->%Matches_empty & H). simpl.
    apply Matches_concat in H as (s3 & s4 & -> & H & ->%Matches_empty).
    by rewrite app_nil_r.
  - intros H. exists [], (String.list_ascii_of_string s). split; [done|].
    split; [constructor|]. apply Matches_concat.
    exists (String.list_ascii_of_string s), []. rewrite app_nil_r.
    split; [done|]. split; [done|constructor].
Qed.
End regexp_facts.

(** * Theorems: package validator *)

Lemma list_ascii_of_string_app (a b : string) :
  String.list_ascii_of_string (a +:+ b)
  = String.list_ascii_of_string a ++ String.list_ascii_of_string b.
Proof. induction a as [|c a IH]; simpl; [done|]. by rewrite IH. Qed.

Lemma list_ascii_of_string_length (s : string) :
  List.length (String.list_ascii_of_string s) = String.length s.
Proof. induction s as [|c s IH]; simpl; [done|]. by rewrite IH. Qed.

Lemma list_ascii_of_string_inj (a b : string) :
  String.list_ascii_of_string a = String.list_ascii_of_string b → a = b.
Proof.
  intros E. rewrite <-(String.string_of_list_ascii_of_string a),
    <-(String.string_of_list_ascii_of_string b). by rewrite E.
Qed.

Lemma list_ascii_of_string_nil (s : string) :
  String.list_ascii_of_string s = [] ↔ s = "".
Proof. destruct s; simpl; split; done. Qed.

Lemma between_single (c c' : ascii) : between c c c' ↔ c' = c.
Proof.
  unfold between. split.
  - intros [H1 H2]. rewrite <-(ascii_N_embedding c), <-(ascii_N_embedding c').
    f_equal. lia.
  - intros ->. lia.
Qed.

Lemma inClass_spec cc c :
  regexp.inClass cc c = true ↔ Exists (λ r, between r.1 r.2 c) cc.
Proof.
  unfold regexp.inClass. rewrite existsb_exists, Exists_exists.
  split; intros (r & Hin & Hr); exists r.
  - split; [by apply list_elem_of_In|].
    apply andb_true_iff in Hr as [H1%N.leb_le H2%N.leb_le]. done.
  - split; [by apply list_elem_of_In|].
    destruct Hr as [H1 H2]. apply andb_true_iff. by rewrite !N.leb_le.
Qed.

Lemma inClass_letter c :
  regexp.inClass [("a"%char, "z"%char); ("A"%char, "Z"%char)] c = true
  ↔ letter c.
Proof.
  rewrite inClass_spec, !Exists_cons, Exists_nil. unfold letter. simpl. tauto.
Qed.

Lemma inClass_local c :
  regexp.inClass
    (validator.alnum ++ [validator.single "."%char; validator.single "_"%char;
                         validator.single "%"%char; validator.single "+"%char;
                         validator.single "-"%char]) c = true
  ↔ localChar c.
Proof.
  rewrite inClass_spec. unfold validator.alnum, validator.single. simpl.
  rewrite !Exists_cons, Exists_nil. simpl. rewrite !between_single.
  unfold localChar, letter, digit. rewrite !elem_of_cons, elem_of_nil. tauto.
Qed.

Lemma inClass_domain c :
  regexp.inClass
    (validator.alnum ++ [validator.single "."%char; validator.single "-"%char])
    c = true
  ↔ domainChar c.
Proof.
  rewrite inClass_spec. unfold validator.alnum, validator.single. simpl.
  rewrite !Exists_cons, Exists_nil. simpl. rewrite !between_single.
  unfold domainChar, letter, digit. rewrite !elem_of_cons, elem_of_nil. tauto.
Qed.

Lemma Forall_iff_pointwise {A} (P Q : A → Prop) (l : list A) :
  (∀ x, P x ↔ Q x) → Forall P l ↔ Forall Q l.
Proof. intros H. apply Forall_proper; [exact H|done]. Qed.

(** The strings of bytes the pattern of [isValidEmail] stands for. *)
Lemma emailRegex_matches (s : list ascii) :
  regexp.Matches (regexp.body validator.emailRegex) s ↔
  ∃ l d t, s = l ++ "@"%char :: d ++ "."%char :: t
           ∧ l ≠ [] ∧ Forall localChar l
           ∧ d ≠ [] ∧ Forall domainChar d
           ∧ (2 ≤ List.length t)%nat ∧ Forall letter t.
Proof.
  unfold validator.emailRegex. cbn [regexp.body]. split.
  - intros (l & s1 & -> & [Hl1 Hl2]%Matches_plus_class & H)%Matches_concat.
    apply Matches_concat in H as (a & s2 & -> & ->%Matches_literal & H).
    apply Matches_concat in H
      as (d & s3 & -> & [Hd1 Hd2]%Matches_plus_class & H).
    apply Matches_concat in H as (dot & t & -> & ->%Matches_literal & H).
    apply (Matches_repeat_class 2) in H as [Ht1 Ht2].
    exists l, d, t. split; [done|].
    rewrite <-(Forall_iff_pointwise _ _ l inClass_local),
      <-(Forall_iff_pointwise _ _ d inClass_domain),
      <-(Forall_iff_pointwise _ _ t inClass_letter). done.
  - intros (l & d & t & -> & Hl1 & Hl2 & Hd1 & Hd2 & Ht1 & Ht2).
    rewrite <-(Forall_iff_pointwise _ _ l inClass_local) in Hl2.
    rewrite <-(Forall_iff_pointwise _ _ d inClass_domain) in Hd2.
    rewrite <-(Forall_iff_pointwise _ _ t inClass_letter) in Ht2.
    apply Matches_concat. exists l, ("@"%char :: d ++ "."%char :: t).
    split; [done|]. split; [by apply Matches_plus_class|].
    apply Matches_concat. exists ["@"%char], (d ++ "."%char :: t).
    split; [done|]. split; [by apply Matches_literal|].
    apply Matches_concat. exists d, ("."%char :: t).
    split; [done|]. split; [by apply Matches_plus_class|].
    apply Matches_concat. exists ["."%char], t.
    split; [done|]. split; [by apply Matches_literal|].
    by apply (Matches_repeat_class 2).
Qed.

Lemma isValidEmail_chars (email : string) :
  validator.isValidEmail email = true ↔
  ∃ l d t, String.list_ascii_of_string email = l ++ "@"%char :: d ++ "."%char :: t
           ∧ l ≠ [] ∧ Forall localChar l
           ∧ d ≠ [] ∧ Forall domainChar d
           ∧ (2 ≤ List.length t)%nat ∧ Forall letter t.
Proof.
  unfold validator.isValidEmail.
  rewrite (MatchString_anchored (regexp.body validator.emailRegex) email).
  apply emailRegex_matches.
Qed.

(** X1: isValidEmail accepts exactly the strings of the form
    local@domain.tld where local is a non-empty string of letters, digits
    and the characters . _ % + -, domain is a non-empty string of letters,
    digits, dots and hyphens, and tld consists of two or more letters. *)
Theorem isValidEmail_spec (email : string) :
  validator.isValidEmail email = true ↔
  ∃ l d t : string,
    email = l +:+ "@" +:+ d +:+ "." +:+ t
    ∧ l ≠ "" ∧ allOf localChar l
    ∧ d ≠ "" ∧ allOf domainChar d
    ∧ (2 ≤ String.length t)%nat ∧ allOf letter t.
Proof.
  rewrite isValidEmail_chars. split.
  - intros (l & d & t & E & Hl1 & Hl2 & Hd1 & Hd2 & Ht1 & Ht2).
    exists (String.string_of_list_ascii l), (String.string_of_list_ascii d),
           (String.string_of_list_ascii t).
    unfold allOf. rewrite !String.list_ascii_of_string_of_list_ascii.
    rewrite <-list_ascii_of_string_length,
      String.list_ascii_of_string_of_list_ascii.
    repeat split; try done.
    + apply list_ascii_of_string_inj.
      rewrite !list_ascii_of_string_app,
        !String.list_ascii_of_string_of_list_ascii. done.
    + intros E'%list_ascii_of_string_nil.
      by rewrite String.list_ascii_of_string_of_list_ascii in E'.
    + intros E'%list_ascii_of_string_nil.
      by rewrite String.list_ascii_of_string_of_list_ascii in E'.
  - intros (l & d & t & -> & Hl1 & Hl2 & Hd1 & Hd2 & Ht1 & Ht2).
    exists (String.list_ascii_of_string l), (String.list_ascii_of_string d),
           (String.list_ascii_of_string t).
    rewrite !list_ascii_of_string_app, list_ascii_of_string_length,
      !list_ascii_of_string_nil. done.
Qed.

Lemma letter_localChar c : letter c → localChar c.
Proof. unfold localChar. auto. Qed.

Lemma domainChar_localChar c : domainChar c → localChar c.
Proof.
  unfold domainChar, localChar. rewrite !elem_of_cons, !elem_of_nil.
  intuition.
Qed.

Lemma localChar_not_at c : localChar c → c ≠ "@"%char.
Proof.
  intros H ->. unfold localChar, letter, digit, between in H. simpl in H.
  rewrite !elem_of_cons, elem_of_nil in H.
  destruct H as [[H|H]|[H|[H|[H|[H|[H|[H|[]]]]]]]]; first [lia | discriminate].
Qed.

Lemma filter_none_of {A} (P Q : A → Prop) `{∀ x, Decision (Q x)} (l : list A) :
  Forall P l → (∀ x, P x → ¬ Q x) → filter Q l = [].
Proof.
  intros Hall Hno. induction Hall as [|x l Hx _ IH]; [done|].
  rewrite filter_cons_False by auto. done.
Qed.

(** X2: an address that isValidEmail accepts holds exactly one @, consists
    of letters, digits and the characters . _ % + - @ only, and is at least
    six bytes long. *)
Theorem isValidEmail_shape (email : string) :
  validator.isValidEmail email = true →
  occurrences "@" email = 1%nat
  ∧ allOf (λ c, localChar c ∨ c = "@"%char) email
  ∧ (6 ≤ String.length email)%nat.
Proof.
  intros (l & d & t & E & Hl1 & Hl2 & Hd1 & Hd2 & Ht1 & Ht2)%isValidEmail_chars.
  unfold allOf, occurrences. rewrite <-list_ascii_of_string_length, E.
  pose proof (Forall_impl _ _ _ Hd2 domainChar_localChar) as Hd3.
  pose proof (Forall_impl _ _ _ Ht2 letter_localChar) as Ht3.
  split; [|split].
  - rewrite filter_app, filter_cons_True by done.
    rewrite filter_app, filter_cons_False by done.
    rewrite (filter_none_of localChar _ _ Hl2),
      (filter_none_of localChar _ _ Hd3),
      (filter_none_of localChar _ _ Ht3); auto using localChar_not_at.
  - apply Forall_app. split; [by eapply Forall_impl; eauto|].
    constructor; [by right|]. apply Forall_app.
    split; [by eapply Forall_impl; eauto|].
    constructor; [|by eapply Forall_impl; eauto].
    left. unfold localChar. rewrite !elem_of_cons. auto.
  - rewrite length_app. simpl. rewrite length_app. simpl.
    destruct l; [done|]. destruct d; [done|]. simpl. lia.
Qed.

(** X3: ValidateCreateUser returns no error exactly when the name is between
    2 and 100 bytes long, both included, and isValidEmail accepts the email. *)
Theorem ValidateCreateUser_accepts (input : validator.CreateUserInput.t) :
  validator.ValidateCreateUser input = None ↔
  (2 ≤ String.length (validator.CreateUserInput.Name input) ≤ 100)%nat
  ∧ validator.isValidEmail (validator.CreateUserInput.Email input) = true.
Proof.
  unfold validator.ValidateCreateUser.
  destruct input as [name email]. simpl.
  case_bool_decide as H0.
  { subst. simpl. split; [done|]. intros [? _]. lia. }
  case_bool_decide as H1; [split; [done|]; intros [? _]; lia|].
  case_bool_decide as H2; [split; [done|]; intros [? _]; lia|].
  case_bool_decide as H3.
  { subst. split; [done|]. intros [_ ?]. done. }
  destruct (validator.isValidEmail email); simpl; split; try done.
  - intros _. split; [lia|done].
  - intros [_ ?]. done.
Qed.

(** X4: ValidateUpdateUser returns no error exactly when the name is empty
    or between 2 and 100 bytes long, and the email is empty or accepted by
    isValidEmail. *)
Theorem ValidateUpdateUser_accepts (input : validator.UpdateUserInput.t) :
  validator.ValidateUpdateUser input = None ↔
  (validator.UpdateUserInput.Name input = ""
   ∨ (2 ≤ String.length (validator.UpdateUserInput.Name input) ≤ 100)%nat)
  ∧ (validator.UpdateUserInput.Email input = ""
     ∨ validator.isValidEmail (validator.UpdateUserInput.Email input) = true).
Proof.
  unfold validator.ValidateUpdateUser.
  destruct input as [name email]. simpl.
  assert (validator.isValidEmail "" = false) as Hempty by done.
  case_bool_decide as H0.
  - case_bool_decide as H1; [split; [done|]; intros [[?|?] _]; [done|lia]|].
    case_bool_decide as H2; [split; [done|]; intros [[?|?] _]; [done|lia]|].
    case_bool_decide as H3; simpl.
    + destruct (validator.isValidEmail email); simpl; split; try done.
      * intros _. split; [right; lia|by right].
      * intros [_ [?|?]]; done.
    + try apply dec_stable in H3. split; [|done]. intros _. split; [right; lia|by left].
  - try apply dec_stable in H0. simpl.
    case_bool_decide as H3; simpl.
    + destruct (validator.isValidEmail email); simpl; split; try done.
      * intros _. split; [by left|by right].
      * intros [_ [?|?]]; done.
    + try apply dec_stable in H3. split; [|done]. intros _. split; by left.
Qed.

(** X5: an update that gives both a name and an email is validated as a
    creation is, with the same error; and whatever ValidateCreateUser
    accepts, ValidateUpdateUser accepts. *)
Theorem ValidateUpdateUser_as_create (name email : string) :
  (name ≠ "" → email ≠ "" →
   validator.ValidateUpdateUser (validator.UpdateUserInput.mk name email)
   = validator.ValidateCreateUser (validator.CreateUserInput.mk name email))
  ∧ (validator.ValidateCreateUser (validator.CreateUserInput.mk name email)
     = None →
     validator.ValidateUpdateUser (validator.UpdateUserInput.mk name email)
     = None).
Proof.
  split.
  - intros Hn He. unfold validator.ValidateUpdateUser,
      validator.ValidateCreateUser. simpl.
    rewrite (bool_decide_eq_true_2 (name ≠ "")),
      (bool_decide_eq_false_2 (name = "")),
      (bool_decide_eq_true_2 (email ≠ "")),
      (bool_decide_eq_false_2 (email = "")) by done.
    repeat case_bool_decide; try done.
  - unfold validator.ValidateUpdateUser, validator.ValidateCreateUser. simpl.
    repeat case_bool_decide; try done;
      destruct (validator.isValidEmail email); simpl; done.
Qed.

(** * Theorems: more on the user repository and the endpoint *)



Lemma least_is_Some p rows x :
  x ∈ rows → p x = true → is_Some (gorm.least p rows).
Proof.
  intros Hx Hp. destruct (gorm.least p rows) eqn:Hl; [done|].
  pose proof (least_None _ _ Hl x Hx). congruence.
Qed.

Lemma least_unique p rows r :
  r ∈ rows → p r = true → (∀ x, x ∈ rows → p x = true → x = r) →
  gorm.least p rows = Some r.
Proof.
  intros Hr Hp Hu. destruct (least_is_Some p rows r Hr Hp) as [r' Hl].
  rewrite Hl. apply least_Some in Hl as [Hin Hp']. f_equal. by apply Hu.
Qed.


Section update_one.
Context {R : Type} `{Model R}.

Lemma update_rows_none sch (p : R → bool) f seen todo :
  (∀ r, r ∈ todo → p r = false) →
  update_rows sch p f seen todo = inr (seen ++ todo).
Proof.
  revert seen. induction todo as [|r rest IH]; intros seen Hp; simpl.
  - by rewrite app_nil_r.
  - rewrite (Hp r) by left. rewrite IH by (intros; apply Hp; by right).
    by rewrite <-app_assoc.
Qed.

(** UPDATE ... WHERE with a single row that satisfies the condition. *)
Lemma update_rows_one sch (p : R → bool) f seen l1 x l2 :
  (∀ r, r ∈ l1 → p r = false) → (∀ r, r ∈ l2 → p r = false) → p x = true →
  update_rows sch p f seen (l1 ++ x :: l2)
  = if violates sch (f x) (seen ++ l1 ++ l2) then inl ErrDuplicatedKey
    else inr (seen ++ l1 ++ f x :: l2).
Proof.
  revert seen. induction l1 as [|r l1 IH]; intros seen H1 H2 Hx; simpl.
  - rewrite Hx. destruct (violates _ _ _); [done|].
    rewrite update_rows_none by done. by rewrite <-app_assoc.
  - rewrite (H1 r) by left.
    rewrite IH by (try done; intros; apply H1; by right).
    by rewrite <-!app_assoc.
Qed.

Lemma violates_none sch (r : R) rows :
  (∀ ix, ix ∈ sch → ix_table ix = TableName → clash ix r rows = false) →
  violates sch r rows = false.
Proof.
  intros Hall. unfold violates.
  destruct (existsb _ _) eqn:E; [|done].
  apply existsb_exists in E as (ix & Hin & Hc).
  apply list_elem_of_In, list_elem_of_filter in Hin as [Ht Hin].
  by rewrite Hall in Hc.
Qed.

Lemma unique_rows_others ix l1 (x : R) l2 :
  unique_rows ix (l1 ++ x :: l2) = true → clash ix x (l1 ++ l2) = false.
Proof.
  intros (_ & Hu & Hc)%unique_rows_app. simpl in Hu.
  apply andb_true_iff in Hu as [Hx%negb_true_iff _].
  rewrite clash_app, orb_false_iff. split; [|done].
  apply clash_false. intros r Hr. specialize (Hc r Hr).
  unfold clash in Hc. simpl in Hc. apply orb_false_iff in Hc as [Hc _].
  by rewrite same_key_sym.
Qed.
End update_one.

Lemma unique_ids_NoDup rows :
  unique_rows (db.pkey "users") rows = true → NoDup (User.ID <$> rows).
Proof.
  induction rows as [|r rows IH]; simpl; [constructor|].
  intros [Hc%negb_true_iff Hu]%andb_true_iff. constructor; [|by apply IH].
  intros (r' & Hid & Hin)%list_elem_of_fmap.
  pose proof (proj1 (clash_false (db.pkey "users") r rows) Hc r' Hin) as Hk.
  by rewrite (proj2 (same_key_users_pkey r r') Hid) in Hk.
Qed.

Lemma unique_github_NoDup rows :
  unique_rows db.idx_users_github_user_id rows = true →
  NoDup (User.GitHubUserID <$> rows).
Proof.
  induction rows as [|r rows IH]; simpl; [constructor|].
  intros [Hc%negb_true_iff Hu]%andb_true_iff. constructor; [|by apply IH].
  intros (r' & Hid & Hin)%list_elem_of_fmap.
  pose proof (proj1 (clash_false db.idx_users_github_user_id r rows) Hc r' Hin)
    as Hk.
  by rewrite (proj2 (same_key_users_github r r') Hid) in Hk.
Qed.

Lemma Create_users_ok now user d :
  users_ok d → users_ok (gorm.Create now user d).1.
Proof.
  intros (Hpk & Hix & Hupk & Huix). unfold gorm.Create.
  destruct (insert_row _ _ _) as [e|rows] eqn:E; simpl; [done|].
  repeat split; auto.
  - by apply (insert_row_unique _ (db.pkey "users") _ _ _ E).
  - by apply (insert_row_unique _ db.idx_users_github_user_id _ _ _ E).
Qed.

Lemma Save_users_ok now user d :
  users_ok d → users_ok (gorm.Save now user d).1.
Proof.
  intros Hok. unfold gorm.Save. case_bool_decide as Hz.
  { by apply Create_users_ok. }
  destruct Hok as (Hpk & Hix & Hupk & Huix). cbv zeta.
  destruct (existsb _ (users d)).
  - destruct (update_where _ _ _ _) as [e|rows] eqn:Hup; simpl; [done|].
    repeat split; auto.
    + by apply (update_rows_unique _ (db.pkey "users") _ _ _ _ _ Hup).
    + by apply (update_rows_unique _ db.idx_users_github_user_id _ _ _ _ _ Hup).
  - unfold upsert_row. destruct (clash _ _ _).
    + destruct (update_where _ _ _ _) as [e|rows] eqn:Hup; simpl; [done|].
      repeat split; auto.
      * by apply (update_rows_unique _ (db.pkey "users") _ _ _ _ _ Hup).
      * by apply (update_rows_unique _ db.idx_users_github_user_id
                    _ _ _ _ _ Hup).
    + destruct (insert_row _ _ _) as [e|rows] eqn:E; simpl; [done|].
      repeat split; auto.
      * by apply (insert_row_unique _ (db.pkey "users") _ _ _ E).
      * by apply (insert_row_unique _ db.idx_users_github_user_id _ _ _ E).
Qed.

Lemma call_users_ok c d : users_ok d → users_ok (call c d).1.
Proof.
  intros Hok. destruct c as [g|now u|now u|now u]; unfold call.
  - unfold repository.FindByGitHubUserID, gorm.First.
    by destruct (gorm.least _ _).
  - by apply Create_users_ok.
  - by apply Save_users_ok.
  - unfold repository.Upsert, repository.FindByGitHubUserID, gorm.First.
    destruct (gorm.least _ _).
    + by apply Save_users_ok.
    + by apply Create_users_ok.
Qed.

(** X7: once the primary key and the index on github_user_id exist and hold,
    they exist and hold after every call of the user repository, the refused
    ones included: no two rows share an id, and no two rows share a GitHub
    user id. *)
Theorem repository_keeps_users_unique (c : RepoCall) (d : DB) :
  users_ok d →
  users_ok (call c d).1
  ∧ NoDup (User.ID <$> users (call c d).1)
  ∧ NoDup (User.GitHubUserID <$> users (call c d).1).
Proof.
  intros Hok. pose proof (call_users_ok c d Hok) as Hok'.
  split; [done|]. destruct Hok' as (_ & _ & Hupk & Huix).
  split; [by apply unique_ids_NoDup|by apply unique_github_NoDup].
Qed.

Lemma Find_unique u d :
  users_ok d → u ∈ users d → User.DeletedAt u = None →
  repository.FindByGitHubUserID (User.GitHubUserID u) d = (d, inr u).
Proof.
  intros (_ & _ & _ & Huix) Hin Hlive.
  unfold repository.FindByGitHubUserID, gorm.First.
  rewrite (least_unique _ (users d) u); [done|done| |].
  - unfold gorm.live. by rewrite !bool_decide_eq_true_2.
  - intros x Hx [Hg%bool_decide_eq_true _]%andb_true_iff.
    apply (unique_rows_elem db.idx_users_github_user_id (users d) x u
             Huix Hx Hin).
    by apply same_key_users_github.
Qed.

Lemma Create_inr now user d d' row :
  gorm.Create now user d = (d', inr row) →
  users d' = users d ++ [row]
  ∧ User.GitHubUserID row = User.GitHubUserID user
  ∧ User.GitHubUsername row = User.GitHubUsername user
  ∧ User.Email row = User.Email user
  ∧ User.DeletedAt row = User.DeletedAt user.
Proof.
  unfold gorm.Create, insert_row. destruct (violates _ _ _); [done|].
  intros [= <- <-]. done.
Qed.

Lemma Upsert_inr now user d d' u :
  repository.Upsert now user d = (d', inr u) →
  u ∈ users d'
  ∧ User.GitHubUserID u = User.GitHubUserID user
  ∧ User.GitHubUsername u = User.GitHubUsername user
  ∧ User.Email u = User.Email user
  ∧ User.DeletedAt u = User.DeletedAt user.
Proof.
  assert (∀ s, User.GitHubUserID s = User.GitHubUserID user →
            User.GitHubUsername s = User.GitHubUsername user →
            User.Email s = User.Email user →
            User.DeletedAt s = User.DeletedAt user →
            gorm.Create now s d = (d', inr u) →
            u ∈ users d'
            ∧ User.GitHubUserID u = User.GitHubUserID user
            ∧ User.GitHubUsername u = User.GitHubUsername user
            ∧ User.Email u = User.Email user
            ∧ User.DeletedAt u = User.DeletedAt user) as Hcreate.
  { intros s E1 E2 E3 E4 (-> & ? & ? & ? & ?)%Create_inr.
    split; [apply elem_of_app; right; by left|]. repeat split; congruence. }
  unfold repository.Upsert, repository.FindByGitHubUserID, gorm.First.
  destruct (gorm.least _ (users d)) as [existing|] eqn:Hl.
  - apply least_Some in Hl as [Hin [_ Hlive]%andb_true_iff].
    unfold repository.Update, gorm.Save. simpl User.ID.
    destruct (decide (User.ID existing = 0)) as [Hz|Hz].
    { rewrite bool_decide_eq_true_2 by done. by apply Hcreate. }
    rewrite bool_decide_eq_false_2 by done. cbv zeta.
    match goal with |- context [existsb ?t (users d)] =>
      assert (existsb t (users d) = true) as -> end.
    { apply existsb_exists. exists existing. split; [by apply list_elem_of_In|].
      rewrite Hlive. by rewrite bool_decide_eq_true_2. }
    destruct (update_where _ _ _ _) as [e|rows] eqn:Hup; [done|].
    intros [= <- <-]. simpl. split; [|done].
    apply update_rows_map in Hup. simpl in Hup. subst rows.
    apply list_elem_of_fmap. exists existing. split; [|done].
    rewrite Hlive. by rewrite bool_decide_eq_true_2.
  - unfold repository.Create. by apply Hcreate.
Qed.

(** X8: after an Upsert that succeeded for a user not marked as deleted
    whose fields fit their columns, FindByGitHubUserID with the user's
    GitHub user id returns a row with the id Upsert gave the user and with
    the username and the email of the call. *)
Theorem Upsert_then_Find now user d d' u :
  users_ok d → fits_columns user → User.DeletedAt user = None →
  repository.Upsert now user d = (d', inr u) →
  ∃ row,
    repository.FindByGitHubUserID (User.GitHubUserID user) d' = (d', inr row)
    ∧ User.ID row = User.ID u
    ∧ User.GitHubUsername row = User.GitHubUsername user
    ∧ User.Email row = User.Email user.
Proof.
  intros Hok _ Hlive Hup.
  pose proof (call_users_ok (CallUpsert now user) d Hok) as Hok'.
  simpl in Hok'. rewrite Hup in Hok'. simpl in Hok'.
  apply Upsert_inr in Hup as (Hin & Hg & Hn & He & Hd).
  exists u. split; [|done]. rewrite <-Hg. apply Find_unique; [done..|congruence].
Qed.

Lemma Find_none (g : Z) d :
  (∀ r, r ∈ users d → User.GitHubUserID r = g → User.DeletedAt r ≠ None) →
  repository.FindByGitHubUserID g d = (d, inl ErrRecordNotFound).
Proof.
  intros Hno. unfold repository.FindByGitHubUserID, gorm.First.
  destruct (gorm.least _ (users d)) as [found|] eqn:Hl; [|done].
  apply least_Some in Hl
    as [Hin [Hg%bool_decide_eq_true Hlive%bool_decide_eq_true]%andb_true_iff].
  by destruct (Hno found Hin Hg).
Qed.

Lemma Create_clash now user d existing :
  users_ok d → existing ∈ users d →
  User.GitHubUserID existing = User.GitHubUserID user →
  ∃ seq, gorm.Create now user d
         = (gorm.with_users d (users d) seq, inl ErrDuplicatedKey).
Proof.
  intros (Hpk & Hix & Hupk & Huix) Hin Hg. unfold gorm.Create.
  match goal with |- context [insert_row ?s ?r ?rows] =>
    assert (insert_row s r rows = inl ErrDuplicatedKey) as -> end;
    [|eauto].
  unfold insert_row.
  rewrite (violates_true (schema d) db.idx_users_github_user_id); try done.
  apply (clash_true db.idx_users_github_user_id _ existing (users d) Hin).
  apply same_key_users_github. by simpl.
Qed.

(** X9: Create is refused as a duplicate, and leaves the rows as they are,
    whenever a row has the GitHub user id of the new user, be it a row that
    is marked as deleted. *)
Theorem Create_duplicate now user d existing :
  users_ok d → existing ∈ users d →
  User.GitHubUserID existing = User.GitHubUserID user →
  (repository.Create now user d).2 = inl ErrDuplicatedKey
  ∧ users (repository.Create now user d).1 = users d.
Proof.
  intros Hok Hin Hg. unfold repository.Create.
  by destruct (Create_clash now user d existing Hok Hin Hg) as [seq ->].
Qed.

Lemma Upsert_deleted now user d existing :
  users_ok d → existing ∈ users d →
  User.GitHubUserID existing = User.GitHubUserID user →
  User.DeletedAt existing ≠ None →
  ∃ seq, repository.Upsert now user d
         = (gorm.with_users d (users d) seq, inl ErrDuplicatedKey).
Proof.
  intros Hok Hin Hg Hdel. unfold repository.Upsert.
  rewrite Find_none.
  - unfold repository.Create. by apply (Create_clash now user d existing).
  - destruct Hok as (Hpk & Hix & Hupk & Huix). intros r Hr Hrg.
    assert (r = existing) as ->; [|done].
    apply (unique_rows_elem db.idx_users_github_user_id (users d) r existing
             Huix Hr Hin).
    apply same_key_users_github. congruence.
Qed.

(** X10: POST /api/users does not bring back a user whose row is marked as
    deleted: the lookup does not see the row, the INSERT collides with it on
    github_user_id, and the request is answered with status 500 while the
    rows stay as they are. *)
Theorem postUsers_deleted_user Format now req d existing :
  users_ok d → existing ∈ users d →
  User.GitHubUserID existing = dto.req_GitHubUserID req →
  User.DeletedAt existing ≠ None →
  valid_request req →
  ∃ d', postUsers Format now (Some req) d
        = (d', controller.mkResponse controller.StatusInternalServerError
                 (controller.ErrorBody "Failed to upsert user"))
        ∧ users d' = users d.
Proof.
  intros Hok Hin Hg Hdel [Hid Hname].
  unfold postUsers, controller.UpsertUser.
  rewrite !bool_decide_eq_false_2 by done.
  unfold usecase.UpsertUser, bind.
  edestruct (Upsert_deleted now
               (User.mk 0 (dto.req_GitHubUserID req)
                  (dto.req_GitHubUsername req) (dto.req_Email req)
                  zeroTime zeroTime None) d existing) as [seq ->]; eauto.
Qed.

Lemma stamp_zero now : gorm.stamp now zeroTime = now.
Proof. done. Qed.

Lemma with_users_same d : gorm.with_users d (users d) (users_id_seq d) = d.
Proof. by destruct d. Qed.

Lemma Upsert_new_row now req d :
  api_ok d →
  (∀ r, r ∈ users d → User.GitHubUserID r ≠ dto.req_GitHubUserID req) →
  repository.Upsert now
    (User.mk 0 (dto.req_GitHubUserID req) (dto.req_GitHubUsername req)
       (dto.req_Email req) zeroTime zeroTime None) d
  = (gorm.with_users d
       (users d ++ [created_row now req (users_id_seq d + 1)])
       (users_id_seq d + 1),
     inr (created_row now req (users_id_seq d + 1))).
Proof.
  intros (Hok & Hixs & Hseq & Hrows) Hnew. unfold repository.Upsert.
  rewrite Find_none by (intros r Hr Hg; by destruct (Hnew r Hr)).
  unfold repository.Create, gorm.Create. simpl.
  rewrite !stamp_zero. fold (created_row now req (users_id_seq d + 1)).
  unfold insert_row. rewrite violates_none; [done|].
  intros ix Hin Ht. apply clash_false. intros r' Hr'.
  destruct (same_key ix _ r') eqn:Hk; [|done]. exfalso.
  destruct (Hixs ix Hin Ht) as [->| ->].
  - apply same_key_users_pkey in Hk. simpl in Hk.
    rewrite Forall_forall in Hrows. destruct (Hrows r' Hr') as [? _]. lia.
  - apply same_key_users_github in Hk. simpl in Hk.
    by destruct (Hnew r' Hr').
Qed.

Lemma Upsert_existing_row now req d existing :
  api_ok d → existing ∈ users d →
  User.GitHubUserID existing = dto.req_GitHubUserID req →
  repository.Upsert now
    (User.mk 0 (dto.req_GitHubUserID req) (dto.req_GitHubUsername req)
       (dto.req_Email req) zeroTime zeroTime None) d
  = (gorm.with_users d
       ((λ r, if decide (r = existing) then updated_row now req existing
              else r) <$> users d)
       (users_id_seq d),
     inr (updated_row now req existing)).
Proof.
  intros (Hok & Hixs & Hseq & Hrows) Hin Hg. unfold repository.Upsert.
  rewrite Forall_forall in Hrows.
  destruct (Hrows existing Hin) as ([Hpos _] & Hlive & _).
  rewrite <-Hg at 1. simpl User.GitHubUserID.
  rewrite <-Hg, (Find_unique existing d Hok Hin Hlive), Hg.
  unfold repository.Update, gorm.Save. simpl.
  rewrite bool_decide_eq_false_2 by lia.
  fold (updated_row now req existing).
  match goal with |- context [existsb ?t (users d)] =>
    assert (existsb t (users d) = true) as -> end.
  { apply existsb_exists. exists existing. split; [by apply list_elem_of_In|].
    unfold gorm.live. by rewrite !bool_decide_eq_true_2. }
  destruct Hok as (Hpk & Hix & Hupk & Huix).
  apply list_elem_of_split in Hin as (l1 & l2 & Hsplit).
  rewrite Hsplit in Hupk, Huix |- *.
  pose proof (unique_rows_others _ _ _ _ Hupk) as Hcpk.
  pose proof (unique_rows_others _ _ _ _ Huix) as Hcix.
  assert (∀ r, r ∈ l1 ++ l2 → User.ID r ≠ User.ID existing) as Hother.
  { intros r Hr Hid.
    pose proof (proj1 (clash_false _ _ _) Hcpk r Hr) as Hk.
    by rewrite (proj2 (same_key_users_pkey existing r) (eq_sym Hid)) in Hk. }
  unfold update_where. rewrite update_rows_one.
  - rewrite violates_none.
    + simpl. do 2 f_equal. rewrite fmap_app, fmap_cons.
      rewrite decide_True by done. f_equal; [|f_equal].
      * rewrite <-(list_fmap_id l1) at 1. apply list_fmap_ext.
        intros i r Hr. simpl. rewrite decide_False; [done|].
        intros ->. apply (Hother existing); [|done].
        apply elem_of_app. left. by eapply list_elem_of_lookup_2.
      * rewrite <-(list_fmap_id l2) at 1. apply list_fmap_ext.
        intros i r Hr. simpl. rewrite decide_False; [done|].
        intros ->. apply (Hother existing); [|done].
        apply elem_of_app. right. by eapply list_elem_of_lookup_2.
    + intros ix Hixin Ht. simpl. apply clash_false. intros r' Hr'.
      destruct (same_key ix _ r') eqn:Hk; [|done]. exfalso.
      destruct (Hixs ix Hixin Ht) as [->| ->].
      * apply same_key_users_pkey in Hk. simpl in Hk.
        by apply (Hother r' Hr').
      * apply same_key_users_github in Hk. simpl in Hk.
        pose proof (proj1 (clash_false _ _ _) Hcix r' Hr') as Hk'.
        rewrite (proj2 (same_key_users_github existing r')) in Hk';
          [done|congruence].
  - intros r Hr. rewrite bool_decide_eq_false_2; [done|].
    apply Hother. apply elem_of_app. by left.
  - intros r Hr. rewrite bool_decide_eq_false_2; [done|].
    apply Hother. apply elem_of_app. by right.
  - unfold gorm.live. by rewrite !bool_decide_eq_true_2.
Qed.

Lemma postUsers_valid Format now req d :
  valid_request req →
  postUsers Format now (Some req) d
  = match repository.Upsert now
            (User.mk 0 (dto.req_GitHubUserID req) (dto.req_GitHubUsername req)
               (dto.req_Email req) zeroTime zeroTime None) d with
    | (d', inr u) =>
        (d', controller.mkResponse controller.StatusOK
               (controller.UserBody (response_of Format u)))
    | (d', inl _) =>
        (d', controller.mkResponse controller.StatusInternalServerError
               (controller.ErrorBody "Failed to upsert user"))
    end.
Proof.
  intros [Hid Hname]. unfold postUsers, controller.UpsertUser.
  rewrite !bool_decide_eq_false_2 by done.
  unfold usecase.UpsertUser, bind, ret.
  by destruct (repository.Upsert _ _ _) as [d' [e|u]].
Qed.

Lemma postUsers_invalid Format now bound d :
  (∀ req, bound = Some req → ¬ valid_request req) →
  (postUsers Format now bound d).1 = d.
Proof.
  intros Hbad. unfold postUsers, controller.UpsertUser.
  destruct bound as [req|]; [|done].
  case_bool_decide as H0; [done|]. case_bool_decide as H1; [done|].
  destruct (Hbad req eq_refl). done.
Qed.

Lemma postUsers_new Format now req d :
  api_ok d → valid_request req →
  (∀ r, r ∈ users d → User.GitHubUserID r ≠ dto.req_GitHubUserID req) →
  postUsers Format now (Some req) d
  = (gorm.with_users d
       (users d ++ [created_row now req (users_id_seq d + 1)])
       (users_id_seq d + 1),
     controller.mkResponse controller.StatusOK
       (controller.UserBody
          (response_of Format (created_row now req (users_id_seq d + 1))))).
Proof.
  intros Hok Hv Hnew. rewrite postUsers_valid by done.
  by rewrite Upsert_new_row.
Qed.

Lemma postUsers_existing Format now req d existing :
  api_ok d → valid_request req → existing ∈ users d →
  User.GitHubUserID existing = dto.req_GitHubUserID req →
  postUsers Format now (Some req) d
  = (gorm.with_users d
       ((λ r, if decide (r = existing) then updated_row now req existing
              else r) <$> users d)
       (users_id_seq d),
     controller.mkResponse controller.StatusOK
       (controller.UserBody
          (response_of Format (updated_row now req existing)))).
Proof.
  intros Hok Hv Hin Hg. rewrite postUsers_valid by done.
  by rewrite (Upsert_existing_row now req d existing).
Qed.

Lemma known_or_new (g : Z) (rows : list User.t) :
  (∃ existing, existing ∈ rows ∧ User.GitHubUserID existing = g)
  ∨ (∀ r, r ∈ rows → User.GitHubUserID r ≠ g).
Proof.
  destruct (decide (Exists (λ r, User.GitHubUserID r = g) rows)) as [H|H].
  - left. by apply Exists_exists in H.
  - right. intros r Hr Hg. apply H. apply Exists_exists. eauto.
Qed.

Lemma valid_request_dec req : Decision (valid_request req).
Proof. unfold valid_request. apply _. Qed.

Lemma postUsers_api_ok Format now bound d :
  api_ok d → api_ok (postUsers Format now bound d).1.
Proof.
  intros Hok.
  destruct bound as [req|]; [|by rewrite postUsers_invalid].
  destruct (valid_request_dec req) as [Hv|Hv];
    [|rewrite postUsers_invalid; [done|by intros ? [= <-]]].
  pose proof Hok as (Husers & Hixs & Hseq & Hrows).
  pose proof (call_users_ok
                (CallUpsert now
                   (User.mk 0 (dto.req_GitHubUserID req)
                      (dto.req_GitHubUsername req) (dto.req_Email req)
                      zeroTime zeroTime None)) d Husers) as Husers'.
  simpl in Husers'. destruct Hv as [Hid Hname].
  destruct (known_or_new (dto.req_GitHubUserID req) (users d))
    as [(existing & Hin & Hg)|Hnew].
  - rewrite (postUsers_existing Format now req d existing) by done.
    rewrite (Upsert_existing_row now req d existing) in Husers' by done.
    split; [exact Husers'|]. split; [done|]. split; [done|]. simpl.
    apply Forall_fmap. eapply Forall_impl; [exact Hrows|].
    intros r Hr. simpl. case_decide; [subst|done].
    destruct Hr as ([? ?] & ? & ? & ?). unfold row_ok. simpl. done.
  - rewrite (postUsers_new Format now req d) by done.
    rewrite (Upsert_new_row now req d) in Husers' by done.
    split; [exact Husers'|]. split; [done|]. split; [simpl; lia|]. simpl.
    apply Forall_app. split.
    + eapply Forall_impl; [exact Hrows|].
      intros r (? & ? & ? & ?). repeat split; try done; lia.
    + apply Forall_singleton. repeat split; simpl; try done; lia.
Qed.

Lemma migrated_api_ok : api_ok migrated.
Proof.
  repeat split; try (by vm_compute);
    try (apply (bool_decide_unpack _); by vm_compute).
  intros ix Hin Ht.
  assert (Forall (λ ix, ix_table ix = "users" →
                        ix = db.pkey "users" ∨ ix = db.idx_users_github_user_id)
            (schema migrated)) as Hall.
  { apply (bool_decide_unpack _). by vm_compute. }
  rewrite Forall_forall in Hall. by apply Hall.
Qed.

Lemma served_api_ok Format d : served Format d → api_ok d.
Proof.
  induction 1 as [|d now bound _ IH]; [apply migrated_api_ok|].
  by apply postUsers_api_ok.
Qed.

Lemma postUsers_history Format now bound d :
  same_history d (postUsers Format now bound d).1.
Proof.
  unfold postUsers, controller.UpsertUser.
  destruct bound as [req|]; [|done].
  repeat case_bool_decide; try done.
  unfold usecase.UpsertUser, bind, ret.
  pose proof (call_rows (CallUpsert now
                 (User.mk 0 (dto.req_GitHubUserID req)
                    (dto.req_GitHubUsername req) (dto.req_Email req)
                    zeroTime zeroTime None)) d) as [Hh _].
  simpl in Hh. by destruct (repository.Upsert _ _ _) as [d' [e|u]].
Qed.

(** X11: in every database the server can be in, the rows of [users] have
    pairwise different ids and pairwise different GitHub user ids, each row
    has a positive id, a GitHub user id other than 0 and a username, none is
    marked as deleted, and the endpoint has written to no table but [users]. *)
Theorem served_users Format d :
  served Format d →
  NoDup (User.ID <$> users d)
  ∧ NoDup (User.GitHubUserID <$> users d)
  ∧ Forall (λ r, 0 < User.ID r ∧ User.DeletedAt r = None
                 ∧ User.GitHubUserID r ≠ 0 ∧ User.GitHubUsername r ≠ "")
           (users d)
  ∧ same_history migrated d.
Proof.
  intros Hs. pose proof (served_api_ok Format d Hs)
    as ((_ & _ & Hupk & Huix) & _ & _ & Hrows).
  split; [by apply unique_ids_NoDup|].
  split; [by apply unique_github_NoDup|]. split.
  - eapply Forall_impl; [exact Hrows|].
    intros r ([? _] & ? & ? & ?). done.
  - clear Hupk Huix Hrows.
    induction Hs as [|d now bound _ IH]; [done|].
    pose proof (postUsers_history Format now bound d) as Hh.
    unfold same_history in *. intuition congruence.
Qed.

Lemma postUsers_row Format now req d :
  api_ok d → valid_request req →
  ∃ d' row,
    postUsers Format now (Some req) d
    = (d', controller.mkResponse controller.StatusOK
             (controller.UserBody (response_of Format row)))
    ∧ users_ok d' ∧ row ∈ users d'
    ∧ User.GitHubUserID row = dto.req_GitHubUserID req
    ∧ User.DeletedAt row = None
    ∧ User.GitHubUsername row = dto.req_GitHubUsername req
    ∧ User.Email row = dto.req_Email req.
Proof.
  intros Hok Hv.
  pose proof (postUsers_api_ok Format now (Some req) d Hok) as (Hok' & _).
  destruct (known_or_new (dto.req_GitHubUserID req) (users d))
    as [(existing & Hin & Hg)|Hnew].
  - rewrite (postUsers_existing Format now req d existing) in * by done.
    eexists _, _. split; [done|]. split; [done|]. split; [|done].
    simpl. apply list_elem_of_fmap. exists existing.
    by rewrite decide_True.
  - rewrite (postUsers_new Format now req d) in * by done.
    eexists _, _. split; [done|]. split; [done|]. split; [|done].
    simpl. apply elem_of_app. right. by left.
Qed.

(** X12: when the primary key and the index on github_user_id are in force,
    no row is marked as deleted and the sequence has a value left, a request
    with a GitHub user id other than 0 and a username, whose fields fit
    their columns, is answered with status 200; the body carries the GitHub
    user id, the username and the email of the request, and
    FindByGitHubUserID then returns, for that GitHub user id, a row with the
    id of the body and the username and the email of the request. *)
Theorem postUsers_succeeds Format now req d :
  api_ok d → sequence_left d → valid_request req → fits req →
  ∃ d' u row,
    postUsers Format now (Some req) d
    = (d', controller.mkResponse controller.StatusOK (controller.UserBody u))
    ∧ dto.GitHubUserID u = dto.req_GitHubUserID req
    ∧ dto.GitHubUsername u = dto.req_GitHubUsername req
    ∧ dto.Email u = dto.req_Email req
    ∧ repository.FindByGitHubUserID (dto.req_GitHubUserID req) d'
      = (d', inr row)
    ∧ User.ID row = dto.ID u
    ∧ User.GitHubUsername row = dto.req_GitHubUsername req
    ∧ User.Email row = dto.req_Email req.
Proof.
  intros Hok _ Hv _.
  destruct (postUsers_row Format now req d Hok Hv)
    as (d' & row & Hpost & Hok' & Hin & Hg & Hlive & Hname & Hemail).
  exists d', (response_of Format row), row. split; [done|].
  repeat split; try done. rewrite <-Hg. by apply Find_unique.
Qed.

(** X13: under the same conditions, a request with a GitHub user id that no
    row has adds exactly one row and leaves the others as they are: the new
    row has the id the response shows, which is greater than that of every
    row there was, it carries the GitHub user id, the username and the email
    of the request, and it is not marked as deleted. *)
Theorem postUsers_new_user Format now req d :
  api_ok d → sequence_left d → valid_request req → fits req →
  (∀ r, r ∈ users d → User.GitHubUserID r ≠ dto.req_GitHubUserID req) →
  ∃ d' u row,
    postUsers Format now (Some req) d
    = (d', controller.mkResponse controller.StatusOK (controller.UserBody u))
    ∧ users d' = users d ++ [row]
    ∧ User.ID row = dto.ID u
    ∧ User.GitHubUserID row = dto.req_GitHubUserID req
    ∧ User.GitHubUsername row = dto.req_GitHubUsername req
    ∧ User.Email row = dto.req_Email req
    ∧ User.DeletedAt row = None
    ∧ ∀ r, r ∈ users d → User.ID r < User.ID row.
Proof.
  intros Hok _ Hv _ Hnew.
  rewrite (postUsers_new Format now req d) by done.
  eexists _, _, _. split; [done|]. split; [done|]. repeat split.
  destruct Hok as (_ & _ & _ & Hrows). rewrite Forall_forall in Hrows.
  intros r Hr. destruct (Hrows r Hr) as [? _]. simpl. lia.
Qed.

(** X14: under the same conditions, the same request sent twice is answered
    twice with status 200 and with the same id; the second request adds no
    row and draws no id: the ids and the GitHub user ids of the rows are the
    ones after the first request, and every row of another GitHub user id
    is as it was. *)
Theorem postUsers_twice Format now1 now2 req d :
  api_ok d → sequence_left d → valid_request req → fits req →
  ∃ d1 d2 u1 u2,
    postUsers Format now1 (Some req) d
    = (d1, controller.mkResponse controller.StatusOK (controller.UserBody u1))
    ∧ postUsers Format now2 (Some req) d1
      = (d2, controller.mkResponse controller.StatusOK (controller.UserBody u2))
    ∧ dto.ID u2 = dto.ID u1
    ∧ User.ID <$> users d2 = User.ID <$> users d1
    ∧ User.GitHubUserID <$> users d2 = User.GitHubUserID <$> users d1
    ∧ users_id_seq d2 = users_id_seq d1
    ∧ ∀ r, r ∈ users d1 →
           User.GitHubUserID r ≠ dto.req_GitHubUserID req → r ∈ users d2.
Proof.
  intros Hok _ Hv _.
  destruct (postUsers_row Format now1 req d Hok Hv)
    as (d1 & row & Hpost & _ & Hin & Hg & Hlive & Hname & Hemail).
  assert (api_ok d1) as Hok1.
  { replace d1 with (postUsers Format now1 (Some req) d).1
      by (by rewrite Hpost).
    by apply postUsers_api_ok. }
  eexists d1, _, _, _. split; [done|].
  rewrite (postUsers_existing Format now2 req d1 row) by done.
  split; [done|]. split; [done|]. simpl.
  rewrite <-!list_fmap_compose. split; [|split; [|split; [done|]]].
  - apply list_fmap_ext. intros i r _. simpl. by case_decide; subst.
  - apply list_fmap_ext. intros i r _. simpl. by case_decide; subst.
  - intros r Hr Hother. apply list_elem_of_fmap. exists r.
    rewrite decide_False; [done|]. intros ->. done.
Qed.

Lemma postUsers_keeps_row Format now bound d r :
  api_ok d → r ∈ users d →
  ∃ r', r' ∈ users (postUsers Format now bound d).1
        ∧ User.ID r' = User.ID r
        ∧ User.GitHubUserID r' = User.GitHubUserID r
        ∧ User.CreatedAt r' = User.CreatedAt r.
Proof.
  intros Hok Hr.
  destruct bound as [req|]; [|rewrite postUsers_invalid by done; eauto].
  destruct (valid_request_dec req) as [Hv|Hv];
    [|rewrite postUsers_invalid by (by intros ? [= <-]); eauto].
  destruct (known_or_new (dto.req_GitHubUserID req) (users d))
    as [(existing & Hin & Hg)|Hnew].
  - rewrite (postUsers_existing Format now req d existing) by done. simpl.
    destruct (decide (r = existing)) as [->|Hne].
    + exists (updated_row now req existing). split; [|done].
      apply list_elem_of_fmap. exists existing. by rewrite decide_True.
    + exists r. split; [|done].
      apply list_elem_of_fmap. exists r. by rewrite decide_False.
  - rewrite (postUsers_new Format now req d) by done. simpl.
    exists r. split; [|done]. apply elem_of_app. by left.
Qed.

(** X15: a user keeps the id for good: in every database the server can be
    in, and after any further requests to POST /api/users, each row that was
    there is still there with its id, its GitHub user id and its time of
    creation. *)
Theorem user_ids_stable Format requests d r :
  served Format d → r ∈ users d →
  ∃ r', r' ∈ users (postAll Format requests d)
        ∧ User.ID r' = User.ID r
        ∧ User.GitHubUserID r' = User.GitHubUserID r
        ∧ User.CreatedAt r' = User.CreatedAt r.
Proof.
  revert d r. induction requests as [|[now bound] requests IH];
    intros d r Hs Hr; simpl; [eauto|].
  destruct (postUsers_keeps_row Format now bound d r
              (served_api_ok Format d Hs) Hr) as (r1 & Hr1 & E1 & E2 & E3).
  destruct (IH _ r1 (served_post Format d now bound Hs) Hr1)
    as (r' & Hr' & E1' & E2' & E3').
  exists r'. split; [done|]. repeat split; congruence.
Qed.

(** * The migration, run again *)

Lemma createUniqueIndex_cases ix d :
  (ix_name ix ∈ ix_name <$> schema d
   ∧ db.createUniqueIndex ix d = (d, inr ()))
  ∨ ((ix_name ix ∉ ix_name <$> schema d) ∧ db.table_unique ix d = true
     ∧ db.createUniqueIndex ix d
       = (db.with_schema d (schema d ++ [ix]), inr ()))
  ∨ ((ix_name ix ∉ ix_name <$> schema d) ∧ db.table_unique ix d = false
     ∧ db.createUniqueIndex ix d = (d, inl ErrDuplicatedKey)).
Proof.
  unfold db.createUniqueIndex. case_bool_decide as Hn; [by left|].
  right. destruct (db.table_unique ix d); [left|right]; done.
Qed.

Lemma with_schema_rows d sch : same_rows d (db.with_schema d sch).
Proof. done. Qed.

Lemma same_rows_trans d1 d2 d3 :
  same_rows d1 d2 → same_rows d2 d3 → same_rows d1 d3.
Proof. unfold same_rows. intuition congruence. Qed.

Lemma createAll_rows l d : same_rows d (createAll l d).1.
Proof.
  revert d. induction l as [|ix l IH]; intros d; simpl; [done|].
  unfold bind.
  destruct (createUniqueIndex_cases ix d)
    as [[_ ->]|[(_ & _ & ->)|(_ & _ & ->)]]; simpl; [apply IH| |done].
  eapply same_rows_trans; [apply with_schema_rows|apply IH].
Qed.

Lemma createAll_error l d e :
  (createAll l d).2 = inl e → e = ErrDuplicatedKey.
Proof.
  revert d. induction l as [|ix l IH]; intros d; simpl; [done|].
  unfold bind.
  destruct (createUniqueIndex_cases ix d)
    as [[_ ->]|[(_ & _ & ->)|(_ & _ & ->)]]; simpl; [apply IH|apply IH|].
  by intros [= <-].
Qed.

Lemma createAll_succeeds l d :
  NoDup (ix_name <$> l) →
  (createAll l d).2 = inr () ↔
  ∀ ix, ix ∈ l →
        ix_name ix ∈ ix_name <$> schema d ∨ db.table_unique ix d = true.
Proof.
  revert d. induction l as [|ix l IH]; intros d Hnd; simpl.
  { split; [intros _ ix Hin; inversion Hin|done]. }
  rewrite fmap_cons in Hnd. apply NoDup_cons in Hnd as [Hfresh Hnd].
  unfold bind.
  destruct (createUniqueIndex_cases ix d)
    as [[Hin ->]|[(Hnin & Hu & ->)|(Hnin & Hu & ->)]]; simpl.
  - rewrite (IH d Hnd). split.
    + intros Hall ix' [->|Hin']%elem_of_cons; auto.
    + intros Hall ix' Hin'. apply Hall. by right.
  - rewrite (IH _ Hnd). simpl. split.
    + intros Hall ix' [->|Hin']%elem_of_cons; [by right|].
      destruct (Hall ix' Hin') as [Hn|Hu']; [|by right].
      rewrite fmap_app in Hn. apply elem_of_app in Hn as [Hn|Hn]; [by left|].
      simpl in Hn. apply list_elem_of_singleton in Hn.
      destruct Hfresh. rewrite <-Hn. apply list_elem_of_fmap. eauto.
    + intros Hall ix' Hin'.
      destruct (Hall ix' (list_elem_of_further _ _ _ Hin')) as [Hn|Hu'];
        [|by right].
      left. rewrite fmap_app. apply elem_of_app. by left.
  - split; [done|]. intros Hall.
    destruct (Hall ix (list_elem_of_here _ _)) as [Hn|Hu']; [done|congruence].
Qed.

Lemma addUniqueConstraints_createAll d :
  db.addUniqueConstraints d = createAll constraint_indexes d.
Proof.
  unfold db.addUniqueConstraints, createAll, constraint_indexes, foldr, bind, ret.
  repeat match goal with
         | |- context [db.createUniqueIndex ?ix ?d] =>
             destruct (db.createUniqueIndex ix d) as [? [?|[]]]; try done
         end.
Qed.

Lemma constraint_names_NoDup : NoDup (ix_name <$> constraint_indexes).
Proof. apply (bool_decide_unpack _). by vm_compute. Qed.

Lemma createAll_names l d d' :
  createAll l d = (d', inr ()) →
  (∀ n, n ∈ ix_name <$> schema d → n ∈ ix_name <$> schema d')
  ∧ (∀ ix, ix ∈ l → ix_name ix ∈ ix_name <$> schema d').
Proof.
  revert d. induction l as [|ix l IH]; intros d; simpl.
  { intros [= <-]. split; [done|]. intros ix Hin. inversion Hin. }
  unfold bind.
  destruct (createUniqueIndex_cases ix d)
    as [[Hin ->]|[(Hnin & Hu & ->)|(Hnin & Hu & ->)]]; [| |done].
  - intros [Hold Hnew]%IH. split; [done|].
    intros ix' [->|Hin']%elem_of_cons; auto.
  - intros [Hold Hnew]%IH. simpl in Hold.
    split.
    + intros n Hn. apply Hold. rewrite fmap_app. apply elem_of_app. by left.
    + intros ix' [->|Hin']%elem_of_cons; auto.
      apply Hold. rewrite fmap_app. apply elem_of_app. right. by left.
Qed.

Lemma createAll_noop l d :
  (∀ ix, ix ∈ l → ix_name ix ∈ ix_name <$> schema d) →
  createAll l d = (d, inr ()).
Proof.
  induction l as [|ix l IH]; intros Hall; simpl; [done|].
  unfold bind, db.createUniqueIndex.
  rewrite bool_decide_eq_true_2 by (apply Hall; left).
  apply IH. intros ix' Hin. apply Hall. by right.
Qed.

(** X16: on a database that has the tables, addUniqueConstraints never
    changes a row; it succeeds exactly when each of its three unique
    indexes either exists by name or holds of the rows that are there, and
    after it succeeded the three names exist. *)
Theorem addUniqueConstraints_outcome (d : DB) :
  same_rows d (db.addUniqueConstraints d).1
  ∧ ((db.addUniqueConstraints d).2 = inr () ↔
     ∀ ix, ix ∈ constraint_indexes →
           ix_name ix ∈ ix_name <$> schema d ∨ db.table_unique ix d = true)
  ∧ ((db.addUniqueConstraints d).2 = inr () →
     ∀ ix, ix ∈ constraint_indexes →
           ix_name ix ∈ ix_name <$> schema (db.addUniqueConstraints d).1).
Proof.
  rewrite addUniqueConstraints_createAll. split; [apply createAll_rows|]. split.
  - apply createAll_succeeds, constraint_names_NoDup.
  - destruct (createAll constraint_indexes d) as [d' [e|[]]] eqn:E; [done|].
    intros _. by apply createAll_names in E as [_ Hnames].
Qed.

(** X17: the migration runs at every start of the server: after a run that
    succeeded, another run succeeds and changes nothing, neither a row nor
    the schema. *)
Theorem AutoMigrate_again (d d1 : DB) :
  db.AutoMigrate d = (d1, inr ()) → db.AutoMigrate d1 = (d1, inr ()).
Proof.
  rewrite !AutoMigrate_createAll. intros [_ Hnames]%createAll_names.
  by apply createAll_noop.
Qed.

(** * The other unique indexes *)

Lemma same_key_user_repo (r r' : UserRepository.t) :
  same_key db.idx_user_repositories_user_repo r r' = true ↔
  UserRepository.UserID r = UserRepository.UserID r' ∧
  UserRepository.RepoOwner r = UserRepository.RepoOwner r' ∧
  UserRepository.RepoName r = UserRepository.RepoName r'.
Proof. same_key_by_columns UserRepository.col. Qed.

(** X18: once the migration has run, whatever statements are then run on the
    tables, [user_repositories] holds at most one row per (user_id,
    repo_owner, repo_name) and [users] at most one row per github_user_id. *)
Theorem unique_repositories_enforced d0 d (stmts : list Stmt) :
  db_ok d0 → names_free d0 → db.AutoMigrate d0 = (d, inr ()) →
  one_per_user_repo (execAll stmts d) ∧ one_per_github_user (execAll stmts d).
Proof.
  intros Hok Hfree Hm.
  apply AutoMigrate_ok in Hm as (Hok' & _ & _ & Hin); [|done..].
  pose proof (execAll_db_ok stmts d Hok') as Hall.
  split.
  - assert (db.idx_user_repositories_user_repo ∈ schema (execAll stmts d))
      as Hix by (rewrite execAll_schema; apply Hin; set_solver).
    specialize (Hall _ Hix).
    intros i j r r' Hi Hj H1 H2 H3.
    apply (unique_rows_lookup db.idx_user_repositories_user_repo
             (user_repositories (execAll stmts d)) i j r r' Hall Hi Hj).
    by apply same_key_user_repo.
  - assert (db.idx_users_github_user_id ∈ schema (execAll stmts d))
      as Hix by (rewrite execAll_schema; apply Hin; set_solver).
    specialize (Hall _ Hix).
    intros i j r r' Hi Hj H1.
    apply (unique_rows_lookup db.idx_users_github_user_id
             (users (execAll stmts d)) i j r r' Hall Hi Hj).
    by apply same_key_users_github.
Qed.

(** * The errors of the user repository *)

Lemma update_rows_error {R} `{Model R} sch (p : R → bool) f seen todo e :
  update_rows sch p f seen todo = inl e → e = ErrDuplicatedKey.
Proof.
  revert seen. induction todo as [|r rest IH]; intros seen; simpl; [done|].
  destruct (p r); [|apply IH].
  destruct (violates _ _ _); [by intros [= <-]|apply IH].
Qed.

Lemma Create_error now user d e :
  (gorm.Create now user d).2 = inl e → e = ErrDuplicatedKey.
Proof.
  unfold gorm.Create, insert_row. destruct (violates _ _ _); simpl; [|done].
  by intros [= <-].
Qed.

Lemma Save_error now user d e :
  (gorm.Save now user d).2 = inl e → e = ErrDuplicatedKey.
Proof.
  unfold gorm.Save. case_bool_decide; [apply Create_error|]. cbv zeta.
  destruct (existsb _ _).
  - destruct (update_where _ _ _ _) as [e'|rows] eqn:Hup; simpl; [|done].
    intros [= <-]. by apply update_rows_error in Hup.
  - unfold upsert_row. destruct (clash _ _ _).
    + destruct (update_where _ _ _ _) as [e'|rows] eqn:Hup; simpl; [|done].
      intros [= <-]. by apply update_rows_error in Hup.
    + unfold insert_row. destruct (violates _ _ _); simpl; [|done].
      by intros [= <-].
Qed.

(** X19: Create, Update and Upsert never fail with ErrRecordNotFound, so
    that Upsert never passes on the ErrRecordNotFound of its own lookup; and
    FindByGitHubUserID never fails as a duplicate. *)
Theorem repository_errors (c : RepoCall) (d : DB) :
  match c with
  | CallFindByGitHubUserID _ => (call c d).2 ≠ inl ErrDuplicatedKey
  | _ => (call c d).2 ≠ inl ErrRecordNotFound
  end.
Proof.
  destruct c as [g|now u|now u|now u]; unfold call.
  - unfold repository.FindByGitHubUserID, gorm.First.
    by destruct (gorm.least _ _).
  - intros E. by apply Create_error in E.
  - intros E. by apply Save_error in E.
  - unfold repository.Upsert, repository.FindByGitHubUserID, gorm.First.
    destruct (gorm.least _ _); intros E;
      [by apply Save_error in E|by apply Create_error in E].
Qed.

(** * The start of the server *)

(** X20: the server gets to listen only when DATABASE_URL is set and the
    connection was opened; it then listens on the port of PORT, on 8080
    when PORT is empty, and on a database that has the rows of the one
    opened and in which the unique indexes of addUniqueConstraints hold: at
    most one row per (user_id, repo_owner, repo_name) in
    [user_repositories], per (user_repo_id, commit_date) in
    [repo_daily_commit_logs] and per (user_id, date) in
    [user_daily_commit_logs]. *)
Theorem main_starts_migrated Getenv Open address d :
  (∀ dsn d0, Open dsn = inr d0 → db_ok d0 ∧ names_free d0) →
  main.main Getenv Open = main.Start address d →
  Getenv "DATABASE_URL" ≠ ""
  ∧ (∃ d0, Open (Getenv "DATABASE_URL") = inr d0 ∧ same_rows d0 d)
  ∧ one_per_user_repo d ∧ one_per_repo_date d ∧ one_per_user_date d
  ∧ address = ":" +:+ (if decide (Getenv "PORT" = "") then "8080"
                       else Getenv "PORT").
Proof.
  intros Hopen. unfold main.main, NewDatabase.
  case_bool_decide as Hdsn; [done|].
  destruct (Open (Getenv "DATABASE_URL")) as [err|d0] eqn:Ho; [done|].
  destruct (Hopen _ _ Ho) as [Hok Hfree].
  destruct (db.AutoMigrate d0) as [d1 [e|[]]] eqn:Hm; [done|].
  intros [= <- <-].
  apply AutoMigrate_ok in Hm as Hm'; [|done..].
  destruct Hm' as (Hok' & _ & Hrows & Hin).
  split; [done|]. split; [eauto|]. split; [|split; [|split]].
  - assert (db.idx_user_repositories_user_repo ∈ schema d1) as Hix.
    { apply Hin, (bool_decide_unpack _). by vm_compute. }
    intros i j r r' Hi Hj H1 H2 H3.
    apply (unique_rows_lookup db.idx_user_repositories_user_repo
             (user_repositories d1) i j r r' (Hok' _ Hix) Hi Hj).
    by apply same_key_user_repo.
  - assert (db.idx_repo_daily_commit_logs_repo_date ∈ schema d1) as Hix.
    { apply Hin, (bool_decide_unpack _). by vm_compute. }
    intros i j r r' Hi Hj H1 H2.
    apply (unique_rows_lookup db.idx_repo_daily_commit_logs_repo_date
             (repo_daily_commit_logs d1) i j r r' (Hok' _ Hix) Hi Hj).
    by apply same_key_repo_date.
  - assert (db.idx_user_daily_commit_logs_user_date ∈ schema d1) as Hix.
    { apply Hin, (bool_decide_unpack _). by vm_compute. }
    intros i j r r' Hi Hj H1 H2.
    apply (unique_rows_lookup db.idx_user_daily_commit_logs_user_date
             (user_daily_commit_logs d1) i j r r' (Hok' _ Hix) Hi Hj).
    by apply same_key_user_date.
  - case_bool_decide; by case_decide.
Qed.

(** * The dashboard *)

Lemma split_head sep s :
  ∃ w ws, web.split sep s = w :: ws ∧ (sep ∉ w)
          ∧ (s = w ∨ ∃ rest, s = w ++ sep :: rest).
Proof.
  induction s as [|c s (w & ws & E & Hw & Hs)]; simpl.
  - exists [], []. split; [done|]. split; [apply not_elem_of_nil|by left].
  - case_decide as Hc.
    + subst. exists [], (web.split sep s). split; [done|].
      split; [apply not_elem_of_nil|]. right. by exists s.
    + rewrite E. exists (c :: w), ws. split; [done|]. split.
      * intros [->|?]%elem_of_cons; done.
      * destruct Hs as [->|[rest ->]]; [by left|]. right. by exists rest.
Qed.

(** X21: the name in the welcome line of the dashboard is never empty and
    holds no space: it is the part of the user's name before its first
    space, and it is User when there is no name, when the name is empty and
    when the name begins with a space. *)
Theorem welcome_name (s : web.Session) :
  ∃ w, web.welcome s = web.lit "Welcome back, " ++ w ++ web.lit "!"
       ∧ w ≠ [] ∧ (web.space ∉ w)
       ∧ match web.name (web.user s) with
         | None => w = web.lit "User"
         | Some n =>
             (n = w ∨ ∃ rest, n = w ++ web.space :: rest)
             ∨ (w = web.lit "User"
                ∧ (n = [] ∨ ∃ rest, n = web.space :: rest))
         end.
Proof.
  assert (web.space ∉ web.lit "User") as Huser.
  { apply (bool_decide_unpack _). by vm_compute. }
  unfold web.welcome. destruct (web.name (web.user s)) as [n|]; simpl.
  - destruct (split_head web.space n) as (w & ws & -> & Hw & Hn). simpl.
    destruct w as [|c w].
    + exists (web.lit "User"). split; [done|]. split; [done|].
      split; [done|]. right. split; [done|].
      destruct Hn as [->|[rest ->]]; [by left|right; by exists rest].
    + exists (c :: w). split; [done|]. split; [done|]. split; [done|].
      by left.
  - exists (web.lit "User"). done.
Qed.

(** X22: after the session callback with a token that has a subject which is
    not empty, the dashboard shows that subject as the User ID; with no such
    token it shows what the session held before; and it never shows an empty
    User ID. *)
Theorem dashboard_user_id (s : web.Session) (token : option web.JWT) :
  web.userId (web.session s token) ≠ []
  ∧ (web.truthy (token ≫= web.sub) = true →
     Some (web.userId (web.session s token)) = token ≫= web.sub)
  ∧ (web.truthy (token ≫= web.sub) = false →
     web.session s token = s).
Proof.
  unfold web.session, web.userId.
  destruct (token ≫= web.sub) as [[|c sub]|] eqn:E; simpl; rewrite ?E;
    repeat split; try done;
    by destruct (web.id (web.user s)) as [[|? ?]|].
Qed.

(** * The endpoint and the accounts *)

Lemma accounts_keys rows :
  ((λ u, (User.GitHubUserID u, account_of u)) <$> rows).*1
  = User.GitHubUserID <$> rows.
Proof. rewrite <-list_fmap_compose. by apply list_fmap_ext. Qed.

Lemma accounts_lookup d u :
  NoDup (User.GitHubUserID <$> users d) → u ∈ users d →
  accounts d !! User.GitHubUserID u = Some (account_of u).
Proof.
  intros Hnd Hin. unfold accounts. apply elem_of_list_to_map_1.
  - by rewrite accounts_keys.
  - apply list_elem_of_fmap. by exists u.
Qed.

Lemma accounts_lookup_None d g :
  (∀ r, r ∈ users d → User.GitHubUserID r ≠ g) → accounts d !! g = None.
Proof.
  intros Hnew. unfold accounts. apply not_elem_of_list_to_map_1.
  rewrite accounts_keys. intros (r & Hg & Hr)%list_elem_of_fmap.
  by destruct (Hnew r Hr).
Qed.

Lemma accounts_replace (rows : list User.t) (existing new : User.t) :
  NoDup (User.GitHubUserID <$> rows) → existing ∈ rows →
  User.GitHubUserID new = User.GitHubUserID existing →
  list_to_map ((λ u, (User.GitHubUserID u, account_of u))
                 <$> ((λ r, if decide (r = existing) then new else r)
                        <$> rows))
  =@{gmap Z Account}
  <[User.GitHubUserID existing := account_of new]>
    (list_to_map ((λ u, (User.GitHubUserID u, account_of u)) <$> rows)).
Proof.
  intros Hnd Hin Hg. induction rows as [|x rows IH]; [by inversion Hin|].
  rewrite fmap_cons in Hnd. apply NoDup_cons in Hnd as [Hx Hnd].
  rewrite !fmap_cons, !list_to_map_cons.
  destruct (decide (x = existing)) as [->|Hne].
  - assert ((λ r, if decide (r = existing) then new else r) <$> rows = rows)
      as ->.
    { rewrite <-(list_fmap_id rows) at 2. apply list_fmap_ext.
      intros i r Hr. simpl. rewrite decide_False; [done|].
      intros ->. apply Hx. apply list_elem_of_fmap. exists existing.
      split; [done|]. by eapply list_elem_of_lookup_2. }
    simpl. by rewrite Hg, insert_insert_eq.
  - apply elem_of_cons in Hin as [->|Hin]; [done|].
    rewrite (IH Hnd Hin). apply insert_insert_ne.
    intros E. apply Hx. rewrite E. apply list_elem_of_fmap. by exists existing.
Qed.

Lemma postUsers_accounts Format now bound d :
  api_ok d → users_id_seq d = Z.of_nat (List.length (users d)) →
  accounts (postUsers Format now bound d).1
  = register (accounts d) (now, bound)
  ∧ users_id_seq (postUsers Format now bound d).1
    = Z.of_nat (List.length (users (postUsers Format now bound d).1)).
Proof.
  intros Hok Hseq. unfold register. simpl.
  destruct bound as [req|]; [|by rewrite postUsers_invalid].
  case_bool_decide as Hv;
    [|rewrite postUsers_invalid; [done|by intros ? [= <-]]].
  pose proof Hok as ((_ & _ & _ & Huix%unique_github_NoDup) & _).
  destruct (known_or_new (dto.req_GitHubUserID req) (users d))
    as [(existing & Hin & Hg)|Hnew].
  - rewrite (postUsers_existing Format now req d existing) by done.
    rewrite <-Hg, (accounts_lookup d existing Huix Hin). simpl.
    rewrite length_fmap. split; [|done]. unfold accounts. simpl.
    by rewrite (accounts_replace _ existing (updated_row now req existing)).
  - rewrite (postUsers_new Format now req d) by done.
    rewrite (accounts_lookup_None d _ Hnew). simpl.
    rewrite length_app. simpl. split; [|lia]. unfold accounts at 1. simpl.
    rewrite fmap_app. simpl. rewrite list_to_map_snoc.
    + fold (accounts d).
      assert (Z.of_nat (size (accounts d)) = users_id_seq d) as ->; [|done].
      unfold accounts.
      rewrite map_size_list_to_map by (by rewrite accounts_keys).
      by rewrite length_fmap.
    + rewrite accounts_keys. intros (r & E & Hr)%list_elem_of_fmap.
      by destruct (Hnew r Hr).
Qed.

Lemma postAll_accounts Format requests d :
  api_ok d → users_id_seq d = Z.of_nat (List.length (users d)) →
  accounts (postAll Format requests d) = foldl register (accounts d) requests.
Proof.
  revert d. induction requests as [|[now bound] requests IH];
    intros d Hok Hseq; simpl; [done|].
  destruct (postUsers_accounts Format now bound d Hok Hseq) as [<- Hseq'].
  apply IH; [by apply postUsers_api_ok|done].
Qed.

(** X23: when every request that the controller lets through fits the
    columns, what a sequence of requests to POST /api/users leaves in
    [users] is what they make of a map from GitHub user ids to accounts,
    one after the other, from the empty map: a request the controller lets
    through sets the username and the email of the account of its GitHub
    user id, and for a GitHub user id without an account it adds one with
    the next id; any other request changes nothing. *)
Theorem endpoint_refines_accounts Format requests :
  all_fit requests →
  accounts (postAll Format requests migrated) = foldl register ∅ requests.
Proof.
  intros _. rewrite (postAll_accounts Format requests migrated); [done| |done].
  apply migrated_api_ok.
Qed.

(** * Worked instances: the validator, the endpoint and the migration *)

Example isValidEmail_accepts :
  validator.isValidEmail "alice.smith+x@mail.example.org" = true.
Proof. by vm_compute. Qed.

Example isValidEmail_refuses :
  validator.isValidEmail "alice@example" = false
  ∧ validator.isValidEmail "a b@example.org" = false
  ∧ validator.isValidEmail "alice@example.c" = false.
Proof. by vm_compute. Qed.

Lemma isValidEmail_shape_witness :
  occurrences "@" "a@b.co" = 1%nat
  ∧ allOf (λ c, localChar c ∨ c = "@"%char) "a@b.co"
  ∧ (6 ≤ String.length "a@b.co")%nat.
Proof. apply (isValidEmail_shape "a@b.co"). reflexivity. Defined.

Lemma ValidateUpdateUser_as_create_witness :
  validator.ValidateUpdateUser (validator.UpdateUserInput.mk "a" "a@b.co")
  = validator.ValidateCreateUser (validator.CreateUserInput.mk "a" "a@b.co").
Proof.
  apply (proj1 (ValidateUpdateUser_as_create "a" "a@b.co")); discriminate.
Defined.

Lemma retired_ok : users_ok retired.
Proof.
  repeat split; try (by vm_compute);
    apply (bool_decide_unpack _); by vm_compute.
Defined.

Lemma repository_keeps_users_unique_witness :
  users_ok (call (CallUpsert 200 aliceRenamed) oneUser).1
  ∧ NoDup (User.ID <$> users (call (CallUpsert 200 aliceRenamed) oneUser).1)
  ∧ NoDup (User.GitHubUserID
             <$> users (call (CallUpsert 200 aliceRenamed) oneUser).1).
Proof.
  apply (repository_keeps_users_unique (CallUpsert 200 aliceRenamed) oneUser).
  exact oneUser_ok.
Defined.

Lemma aliceRequest_fits : fits aliceRequest.
Proof.
  repeat split; try (by vm_compute); apply (bool_decide_unpack _); by vm_compute.
Defined.

Lemma aliceRenamed_fits : fits_columns aliceRenamed.
Proof.
  repeat split; try (by vm_compute); apply (bool_decide_unpack _); by vm_compute.
Defined.

Lemma Upsert_then_Find_witness :
  ∃ row,
    repository.FindByGitHubUserID (User.GitHubUserID aliceRenamed)
      (repository.Upsert 200 aliceRenamed oneUser).1
    = ((repository.Upsert 200 aliceRenamed oneUser).1, inr row)
    ∧ User.ID row = 1
    ∧ User.GitHubUsername row = User.GitHubUsername aliceRenamed
    ∧ User.Email row = User.Email aliceRenamed.
Proof.
  apply (Upsert_then_Find 200 aliceRenamed oneUser _
           (User.mk 1 42 "alice-renamed" "alice@example.org" 100 200 None)).
  - exact oneUser_ok.
  - exact aliceRenamed_fits.
  - reflexivity.
  - by vm_compute.
Defined.

Lemma Create_duplicate_witness :
  (repository.Create 200 aliceRenamed retired).2 = inl ErrDuplicatedKey
  ∧ users (repository.Create 200 aliceRenamed retired).1 = users retired.
Proof.
  apply (Create_duplicate 200 aliceRenamed retired aliceDeleted).
  - exact retired_ok.
  - apply (bool_decide_unpack _). by vm_compute.
  - reflexivity.
Defined.

Lemma postUsers_deleted_user_witness :
  ∃ d', postUsers earlyOrLate 200 (Some aliceRequest) retired
        = (d', controller.mkResponse controller.StatusInternalServerError
                 (controller.ErrorBody "Failed to upsert user"))
        ∧ users d' = users retired.
Proof.
  apply (postUsers_deleted_user earlyOrLate 200 aliceRequest retired aliceDeleted).
  - exact retired_ok.
  - apply (bool_decide_unpack _). by vm_compute.
  - reflexivity.
  - discriminate.
  - split; discriminate.
Defined.

Lemma afterAlice_served : served earlyOrLate afterAlice.
Proof. apply served_post, served_migrated. Defined.

Lemma served_users_witness :
  NoDup (User.ID <$> users afterAlice)
  ∧ NoDup (User.GitHubUserID <$> users afterAlice)
  ∧ Forall (λ r, 0 < User.ID r ∧ User.DeletedAt r = None
                 ∧ User.GitHubUserID r ≠ 0 ∧ User.GitHubUsername r ≠ "")
           (users afterAlice)
  ∧ same_history migrated afterAlice.
Proof. apply (served_users earlyOrLate afterAlice). exact afterAlice_served. Defined.

Lemma afterAlice_api_ok : api_ok afterAlice.
Proof. apply postUsers_api_ok, migrated_api_ok. Defined.

Lemma postUsers_succeeds_witness :
  ∃ d' u row,
    postUsers earlyOrLate 200 (Some aliceRequest) afterAlice
    = (d', controller.mkResponse controller.StatusOK (controller.UserBody u))
    ∧ dto.GitHubUserID u = dto.req_GitHubUserID aliceRequest
    ∧ dto.GitHubUsername u = dto.req_GitHubUsername aliceRequest
    ∧ dto.Email u = dto.req_Email aliceRequest
    ∧ repository.FindByGitHubUserID (dto.req_GitHubUserID aliceRequest) d'
      = (d', inr row)
    ∧ User.ID row = dto.ID u
    ∧ User.GitHubUsername row = dto.req_GitHubUsername aliceRequest
    ∧ User.Email row = dto.req_Email aliceRequest.
Proof.
  apply (postUsers_succeeds earlyOrLate 200 aliceRequest afterAlice).
  - exact afterAlice_api_ok.
  - by vm_compute.
  - split; discriminate.
  - exact aliceRequest_fits.
Defined.

Lemma postUsers_new_user_witness :
  ∃ d' u row,
    postUsers earlyOrLate 100 (Some aliceRequest) migrated
    = (d', controller.mkResponse controller.StatusOK (controller.UserBody u))
    ∧ users d' = users migrated ++ [row]
    ∧ User.ID row = dto.ID u
    ∧ User.GitHubUserID row = dto.req_GitHubUserID aliceRequest
    ∧ User.GitHubUsername row = dto.req_GitHubUsername aliceRequest
    ∧ User.Email row = dto.req_Email aliceRequest
    ∧ User.DeletedAt row = None
    ∧ ∀ r, r ∈ users migrated → User.ID r < User.ID row.
Proof.
  apply (postUsers_new_user earlyOrLate 100 aliceRequest migrated).
  - exact migrated_api_ok.
  - by vm_compute.
  - split; discriminate.
  - exact aliceRequest_fits.
  - intros r Hr. inversion Hr.
Defined.

Lemma postUsers_twice_witness :
  ∃ d1 d2 u1 u2,
    postUsers earlyOrLate 100 (Some aliceRequest) migrated
    = (d1, controller.mkResponse controller.StatusOK (controller.UserBody u1))
    ∧ postUsers earlyOrLate 200 (Some aliceRequest) d1
      = (d2, controller.mkResponse controller.StatusOK (controller.UserBody u2))
    ∧ dto.ID u2 = dto.ID u1
    ∧ User.ID <$> users d2 = User.ID <$> users d1
    ∧ User.GitHubUserID <$> users d2 = User.GitHubUserID <$> users d1
    ∧ users_id_seq d2 = users_id_seq d1
    ∧ ∀ r, r ∈ users d1 →
           User.GitHubUserID r ≠ dto.req_GitHubUserID aliceRequest →
           r ∈ users d2.
Proof.
  apply (postUsers_twice earlyOrLate 100 200 aliceRequest migrated).
  - exact migrated_api_ok.
  - by vm_compute.
  - split; discriminate.
  - exact aliceRequest_fits.
Defined.

Example postUsers_twice_example :
  (postUsers earlyOrLate 100 (Some aliceRequest) migrated).2
  = controller.mkResponse controller.StatusOK
      (controller.UserBody
         (dto.mkUserResponse 1 42 "alice" "alice@example.org" "early" "early"))
  ∧ (postUsers earlyOrLate 200 (Some aliceRequest) afterAlice).2
    = controller.mkResponse controller.StatusOK
        (controller.UserBody
           (dto.mkUserResponse 1 42 "alice" "alice@example.org" "early" "late")).
Proof. by vm_compute. Qed.

Lemma user_ids_stable_witness :
  ∃ r', r' ∈ users (postAll earlyOrLate laterRequests afterAlice)
        ∧ User.ID r' = 1 ∧ User.GitHubUserID r' = 42 ∧ User.CreatedAt r' = 100.
Proof.
  apply (user_ids_stable earlyOrLate laterRequests afterAlice
           (created_row 100 aliceRequest 1)).
  - exact afterAlice_served.
  - apply (bool_decide_unpack _). by vm_compute.
Defined.

Example users_after_later_requests :
  users (postAll earlyOrLate laterRequests afterAlice)
  = [User.mk 1 42 "alice-renamed" "a@example.org" 100 500 None;
     User.mk 2 43 "bob" "bob@example.org" 200 200 None].
Proof. by vm_compute. Qed.

Lemma AutoMigrate_again_witness :
  db.AutoMigrate migrated = (migrated, inr ()).
Proof. apply (AutoMigrate_again db.fresh migrated). by vm_compute. Defined.

Lemma unique_repositories_enforced_witness :
  one_per_user_repo (execAll someRegistrations migrated)
  ∧ one_per_github_user (execAll someRegistrations migrated).
Proof.
  apply (unique_repositories_enforced db.fresh migrated someRegistrations).
  - exact fresh_db_ok.
  - exact fresh_names_free.
  - by vm_compute.
Defined.

Example second_registration_refused :
  user_repositories (execAll someRegistrations migrated) = [octoOne].
Proof. by vm_compute. Qed.

Lemma main_starts_migrated_witness :
  exampleGetenv "DATABASE_URL" ≠ ""
  ∧ (∃ d0, exampleOpen (exampleGetenv "DATABASE_URL") = inr d0
           ∧ same_rows d0 migrated)
  ∧ one_per_user_repo migrated ∧ one_per_repo_date migrated
  ∧ one_per_user_date migrated
  ∧ ":8080" = ":" +:+ (if decide (exampleGetenv "PORT" = "") then "8080"
                       else exampleGetenv "PORT").
Proof.
  apply (main_starts_migrated exampleGetenv exampleOpen ":8080" migrated).
  - intros dsn d0 [= <-]. split; [exact fresh_db_ok|exact fresh_names_free].
  - by vm_compute.
Defined.

Example addUniqueConstraints_refused :
  (db.addUniqueConstraints
     (mkDB [] [octoOne; UserRepository.mk 2 7 "octo" "one" true None 200 200]
        [] [] [] 0 [])).2
  = inl ErrDuplicatedKey.
Proof. by vm_compute. Qed.

Example main_without_DATABASE_URL :
  main.main (λ _, "") exampleOpen
  = main.FailedToConnect "DATABASE_URL is not set".
Proof. by vm_compute. Qed.

Example welcome_first_name :
  web.welcome
    (web.mkSession
       (web.mkSessionUser None (Some (web.lit "Ada Lovelace")) None None) [])
  = web.lit "Welcome back, Ada!".
Proof. by vm_compute. Qed.

Lemma dashboard_user_id_witness :
  Some (web.userId
          (web.session
             (web.mkSession (web.mkSessionUser None None None None) [])
             (Some (web.mkJWT (Some (web.lit "583231"))))))
  = Some (web.mkJWT (Some (web.lit "583231"))) ≫= web.sub.
Proof.
  apply (dashboard_user_id
           (web.mkSession (web.mkSessionUser None None None None) [])
           (Some (web.mkJWT (Some (web.lit "583231"))))).
  reflexivity.
Defined.

Lemma laterRequests_fit : all_fit laterRequests.
Proof.
  split; [|by vm_compute].
  unfold laterRequests. repeat apply Forall_cons_2; [..|apply Forall_nil_2];
    simpl; intros req E _; try discriminate E; injection E as <-;
    (repeat split; try (by vm_compute); apply (bool_decide_unpack _);
     by vm_compute).
Defined.

Lemma endpoint_refines_accounts_witness :
  accounts (postAll earlyOrLate laterRequests migrated)
  = foldl register ∅ laterRequests.
Proof.
  apply (endpoint_refines_accounts earlyOrLate laterRequests).
  exact laterRequests_fit.
Defined.

Example accounts_after_later_requests :
  accounts (postAll earlyOrLate laterRequests migrated)
  = {[ 43 := mkAccount 1 "bob" "bob@example.org";
       42 := mkAccount 2 "alice-renamed" "a@example.org" ]}.
Proof. by vm_compute. Qed.
